(** * ParamDict: arithmetic on dictionaries of tensors

    A verification development for [ParamDict] of [disc/utils/tools.py]:

    [[
    class ParamDict(OrderedDict):
        def __init__(self, *args, **kwargs):
            super().__init__( *args, *kwargs )
        def _prototype(self, other, op):
            if isinstance(other, Number):
                return ParamDict({k: op(v, other).cpu() for k, v in self.items()})
            elif isinstance(other, dict):
                return ParamDict({k: op(self[k].cpu(), other[k].cpu()) for k in self})
            else:
                raise NotImplementedError
        def __add__(self, other):     return self._prototype(other, operator.add)
        def __rmul__(self, other):    return self._prototype(other, operator.mul)
        __mul__ = __rmul__
        def __neg__(self):            return ParamDict({k: -v for k, v in self.items()})
        def __rsub__(self, other):    return self.__add__(other.__neg__())
        __sub__ = __rsub__
        def __truediv__(self, other): return self._prototype(other, operator.truediv)
    ]]

    The class is embedded twice.  [Module ParamDict] reads the methods as
    functions on values (a dictionary is its ordered list of items), with
    Python exceptions as an error result.  [Module Store] reads the same
    methods over a store of objects with identity, so that "the operands are
    not modified" is a statement about the store and not a consequence of
    the notation.  [Store_refines] connects the two. *)

From Stdlib Require Import QArith Qcanon.
From stdpp Require Import base option list strings.

Local Open Scope string_scope.
Local Open Scope list_scope.

(** ** Tensors (the part of torch the class touches)

    A tensor is where it lives and what it holds.  The payload is one exact
    rational: the class only ever combines tensors entrywise, and its
    algebraic laws are laws of exact arithmetic.  (torch answers a zero divisor with
    inf or nan, which exact rationals do not have; [Qcdiv] answers 0.) *)

Inductive Device := CPU | CUDA.

Record Tensor := mkTensor { device : Device; data : Qc }.

(** [t.cpu()] *)
Definition Tensor_cpu (t : Tensor) : Tensor := mkTensor CPU (data t).

(** [-t]: a new tensor on the device of [t]. *)
Definition Tensor_neg (t : Tensor) : Tensor := mkTensor (device t) (- data t)%Qc.

(** The functions of Python's [operator] module that the class passes to
    [_prototype], as they act on payloads. *)
Definition binop := Qc -> Qc -> Qc.

Module operator.
Definition add : binop := Qcplus.
Definition mul : binop := Qcmult.
Definition truediv : binop := Qcdiv.
End operator.

(** [op(t, s)] for a Python number [s]: the result stays on the device of [t]. *)
Definition op_number (op : binop) (t : Tensor) (s : Qc) : Tensor :=
  mkTensor (device t) (op (data t) s).

(** [op(a, b)] for two tensors; [_prototype] only calls it on two host tensors. *)
Definition op_tensor (op : binop) (a b : Tensor) : Tensor :=
  mkTensor (device a) (op (data a) (data b)).

(** ** Python exceptions as results *)

Inductive PyErr :=
| KeyError (k : string)
| NotImplementedError
| AttributeError
| TypeError
| ValueError
| SystemError.               (* a reference to no object; no Python program sees it *)

Inductive Result (A : Type) :=
| Ok (a : A)
| Raise (e : PyErr).
Arguments Ok {A} a.
Arguments Raise {A} e.

#[global] Instance Result_ret : MRet Result := fun A a => Ok a.
#[global] Instance Result_bind : MBind Result := fun A B f m =>
  match m with Ok a => f a | Raise e => Raise e end.

#[global] Instance Result_fmap : FMap Result := fun A B f m =>
  match m with Ok a => Ok (f a) | Raise e => Raise e end.

Definition raises {A} (r : Result A) : bool :=
  match r with Ok _ => false | Raise _ => true end.

(** ** Dictionaries as ordered lists of items with distinct keys

    The functions are generic in what a key maps to: tensors at the level of
    values, references in the store. *)

Section assoc.
Context {V : Type}.
Implicit Types (d : list (string * V)) (k : string) (v : V).

Definition keys d : list string := d.*1.

(** The invariant of every Python dictionary. *)
Definition wf d : Prop := NoDup (keys d).

(** [d.get(k)] *)
Fixpoint get d k : option V :=
  match d with
  | [] => None
  | (k', v) :: r => if String.eqb k k' then Some v else get r k
  end.

(** [d[k]] *)
Definition getitem d k : Result V :=
  match get d k with
  | Some v => Ok v
  | None => Raise (KeyError k)
  end.

(** [d[k] = v]: an existing key keeps its place, a new one goes last. *)
Fixpoint setitem d k v : list (string * V) :=
  match d with
  | [] => [(k, v)]
  | (k', v') :: r =>
      if String.eqb k k' then (k', v) :: r else (k', v') :: setitem r k v
  end.

(** [d.update(l)] for a list of items. *)
Definition update d (l : list (string * V)) : list (string * V) :=
  foldl (fun d kv => setitem d kv.1 kv.2) d l.

(** The dictionary built by setting the given items one after the other:
    what [dict(pairs)] and a dict display or comprehension produce. *)
Definition from_items (l : list (string * V)) : list (string * V) := update [] l.

(** The dictionary with the keys of [d], in their order, and new values. *)
Definition map_values (f : string -> V -> V) d : list (string * V) :=
  (fun kv => (kv.1, f kv.1 kv.2)) <$> d.

End assoc.

Definition dict := list (string * Tensor).

(** [{key(x): val(x) for x in xs}]: the elements are evaluated in order, the
    first exception ends the comprehension. *)
Definition comprehension {A} (f : A -> Result (string * Tensor)) (xs : list A)
  : Result dict :=
  kvs ← mapM f xs; mret (from_items kvs).

(** ** Python values that can reach the class as an operand or an argument *)

Inductive PyVal :=
| PNone
| PNum (s : Qc)               (* an instance of numbers.Number *)
| PStr (s : string)
| PTensor (t : Tensor)
| PDict (d : dict)            (* a dict or OrderedDict of tensors *)
| PParamDict (d : dict).      (* an instance of the class itself *)

(** [OrderedDict.__init__] of the Python library, on positional arguments
    [args] and keyword arguments [kwds]: at most one positional argument; a
    mapping is copied item by item, any other iterable must yield pairs (a
    string yields its characters, which are strings of length one, so only
    the empty string passes), what is not iterable is a TypeError; the
    keyword items are set last. *)
Definition OrderedDict_update (a : PyVal) : Result dict :=
  match a with
  | PDict m | PParamDict m => Ok (from_items m)
  | PStr EmptyString => Ok []
  | PStr (String _ _) => Raise ValueError
  | PNone | PNum _ | PTensor _ => Raise TypeError
  end.

Definition OrderedDict_init (args : list PyVal) (kwds : dict) : Result dict :=
  match args with
  | [] => Ok (from_items kwds)
  | [a] => d ← OrderedDict_update a; mret (update d kwds)
  | _ => Raise TypeError
  end.

Module ParamDict.

(** [super().__init__( *args, *kwargs )]: iterating the keyword dictionary
    yields its keys, so they travel as further positional arguments and no
    keyword reaches the parent. *)
Definition __init__ (args : list PyVal) (kwargs : dict) : Result dict :=
  OrderedDict_init (args ++ (PStr <$> keys kwargs)) [].

(** [ParamDict(d)] for one dictionary [d]. *)
Definition new (d : dict) : Result dict := __init__ [PDict d] [].

Definition _prototype (self : dict) (other : PyVal) (op : binop) : Result dict :=
  match other with
  | PNum s =>
      d ← comprehension (fun kv => Ok (kv.1, Tensor_cpu (op_number op kv.2 s))) self;
      new d
  | PDict o | PParamDict o =>
      d ← comprehension (fun k =>
             a ← getitem self k;
             b ← getitem o k;
             mret (k, op_tensor op (Tensor_cpu a) (Tensor_cpu b))) (keys self);
      new d
  | PNone | PStr _ | PTensor _ => Raise NotImplementedError
  end.

Definition __add__ (self : dict) (other : PyVal) : Result dict :=
  _prototype self other operator.add.

Definition __rmul__ (self : dict) (other : PyVal) : Result dict :=
  _prototype self other operator.mul.

Definition __mul__ := __rmul__.

Definition __neg__ (self : dict) : Result dict :=
  d ← comprehension (fun kv => Ok (kv.1, Tensor_neg kv.2)) self;
  new d.

(** [other.__neg__()] for the operand of a subtraction: numbers, tensors and
    instances of the class have the method, the other values do not. *)
Definition neg (other : PyVal) : Result PyVal :=
  match other with
  | PNum s => Ok (PNum (- s)%Qc)
  | PTensor t => Ok (PTensor (Tensor_neg t))
  | PParamDict o => PParamDict <$> __neg__ o
  | PNone | PStr _ | PDict _ => Raise AttributeError
  end.

Definition __rsub__ (self : dict) (other : PyVal) : Result dict :=
  (* a- b := a + (-b) *)
  n ← neg other; __add__ self n.

Definition __sub__ := __rsub__.

Definition __truediv__ (self : dict) (other : PyVal) : Result dict :=
  _prototype self other operator.truediv.

End ParamDict.


(** The element of the comprehension of the dictionary branch of
    [_prototype], by name. *)
Definition pair_step (op : binop) (self o : dict) (k : string) : Result (string * Tensor) :=
  a ← getitem self k; b ← getitem o k;
  mret (k, op_tensor op (Tensor_cpu a) (Tensor_cpu b)).

(** The value the dictionary branch computes at a key both operands have. *)
Definition paired (op : binop) (o : dict) (k : string) (a : Tensor) : Tensor :=
  op_tensor op (Tensor_cpu a) (Tensor_cpu (default a (get o k))).

(** What a dictionary holds when placement is left aside: its keys, in
    order, with the payload of each tensor. *)
Definition contents (d : dict) : list (string * Qc) := (fun kv => (kv.1, data kv.2)) <$> d.

(** Every value of the dictionary is in host memory. *)
Definition on_host (d : dict) : Prop := Forall (fun kv => device kv.2 = CPU) d.

(** The operand test of [_prototype]: [isinstance(other, Number)] and
    [isinstance(other, dict)]. *)
Definition is_number (v : PyVal) : bool :=
  match v with PNum _ => true | _ => false end.

Definition is_dict (v : PyVal) : bool :=
  match v with PDict _ | PParamDict _ => true | _ => false end.

(** The dictionary an operand is, when it is one. *)
Definition as_dict (v : PyVal) : option dict :=
  match v with PDict d | PParamDict d => Some d | _ => None end.

(** The arithmetic methods that go through [_prototype], each with the
    operator it passes: add, scale (from either side) and divide. *)
Definition arithmetic : list ((dict -> PyVal -> Result dict) * binop) :=
  [ (ParamDict.__add__, operator.add);
    (ParamDict.__mul__, operator.mul);
    (ParamDict.__rmul__, operator.mul);
    (ParamDict.__truediv__, operator.truediv) ].

(** [x - a] for an instance [a] of the class, as the interpreter resolves it:
    the [__sub__] of the left operand when that is an instance too, else the
    reflected method of [a] (numbers and tensors answer NotImplemented for
    such a right operand, the other values have no [__sub__]). *)
Definition minus (x : PyVal) (a : dict) : Result dict :=
  match x with
  | PParamDict d => ParamDict.__sub__ d (PParamDict a)
  | _ => ParamDict.__rsub__ a x
  end.

(** Two dictionaries have the same keys. *)
Definition same_keys (a b : dict) : Prop := forall k, k ∈ keys a <-> k ∈ keys b.

(** ** The dictionaries of the examples *)

Definition host (q : Qc) : Tensor := mkTensor CPU q.

Definition ex_A : dict := [("w1", host (Q2Qc 2)); ("w2", host (Q2Qc 4))].
Definition ex_B : dict := [("w1", host (Q2Qc 1)); ("w2", host (Q2Qc 1))].
Definition ex_G : dict := [("w1", mkTensor CUDA (Q2Qc 2)); ("w2", host (Q2Qc 4))].
Definition ex_w2 : dict := [("w2", host (Q2Qc 1))].

(** * The class over a store of objects

    Tensors and dictionaries are objects with identity; a dictionary holds
    references to its values.  A method is a function from the store to the
    store after the call and a reference or an exception.  Nothing in the
    class assigns to an existing object, so the store only has two
    primitives: [alloc] and [load]. *)

Module Store.

Abbreviation loc := nat.

Inductive Obj :=
| OTensor (t : Tensor)
| ODict (its : list (string * loc))         (* a dict or OrderedDict *)
| OParamDict (its : list (string * loc)).   (* an instance of the class *)

Abbreviation Heap := (list Obj).

(** An operand: None, numbers and strings are immutable and stand for
    themselves; everything else is a reference. *)
Inductive Ref :=
| RNone
| RNum (s : Qc)
| RStr (s : string)
| RObj (l : loc).

Definition M (A : Type) : Type := Heap -> Heap * Result A.

#[global] Instance M_ret : MRet M := fun A a h => (h, Ok a).
#[global] Instance M_bind : MBind M := fun A B f m h =>
  match m h with
  | (h', Ok a) => f a h'
  | (h', Raise e) => (h', Raise e)
  end.

Definition raise {A} (e : PyErr) : M A := fun h => (h, Raise e).

(** The result of a computation that does not touch the store. *)
Definition lift {A} (r : Result A) : M A := fun h => (h, r).

(** A new object, at the next free address. *)
Definition alloc (o : Obj) : M loc := fun h => (h ++ [o], Ok (length h)).

Definition load (l : loc) : M Obj := fun h =>
  (h, match h !! l with Some o => Ok o | None => Raise SystemError end).

(** ** Tensor methods *)

(** The tensor behind a reference; [e] is what Python raises when the object
    is no tensor. *)
Definition load_tensor (e : PyErr) (l : loc) : M Tensor :=
  o ← load l;
  match o with
  | OTensor t => mret t
  | ODict _ | OParamDict _ => raise e
  end.

(** [t.cpu()]: the tensor itself when it is on the host, else a copy. *)
Definition cpu (l : loc) : M loc :=
  t ← load_tensor AttributeError l;
  match device t with
  | CPU => mret l
  | CUDA => alloc (OTensor (Tensor_cpu t))
  end.

(** [op(t, s)] for a number [s]: a new tensor. *)
Definition apply_number (op : binop) (l : loc) (s : Qc) : M loc :=
  t ← load_tensor TypeError l; alloc (OTensor (op_number op t s)).

(** [op(a, b)]: a new tensor. *)
Definition apply_tensor (op : binop) (la lb : loc) : M loc :=
  a ← load_tensor TypeError la; b ← load_tensor TypeError lb;
  alloc (OTensor (op_tensor op a b)).

(** [-t]: a new tensor. *)
Definition negate (l : loc) : M loc :=
  t ← load_tensor TypeError l; alloc (OTensor (Tensor_neg t)).

(** ** Dictionaries *)

Definition items (l : loc) : M (list (string * loc)) :=
  o ← load l;
  match o with
  | ODict its | OParamDict its => mret its
  | OTensor _ => raise TypeError
  end.

(** [d[k]] *)
Definition getitem_at (d : loc) (k : string) : M loc :=
  its ← items d; lift (getitem its k).

(** A comprehension evaluates its elements in order and leaves a new dict. *)
Definition comprehension {A} (f : A -> M (string * loc)) (xs : list A) : M loc :=
  kvs ← mapM f xs; alloc (ODict (from_items kvs)).

Definition OrderedDict_update (a : Ref) : M (list (string * loc)) :=
  match a with
  | RObj l =>
      o ← load l;
      match o with
      | ODict m | OParamDict m => mret (from_items m)
      | OTensor _ => raise TypeError
      end
  | RStr EmptyString => mret []
  | RStr (String _ _) => raise ValueError
  | RNone | RNum _ => raise TypeError
  end.

Definition OrderedDict_init (args : list Ref) (kwds : list (string * loc))
  : M (list (string * loc)) :=
  match args with
  | [] => mret (from_items kwds)
  | [a] => d ← OrderedDict_update a; mret (update d kwds)
  | _ => raise TypeError
  end.

(** ** The class *)

(** The new instance comes into being with the items the parent's
    constructor gives it; no one holds a reference to it before. *)
Definition __init__ (args : list Ref) (kwargs : list (string * loc)) : M loc :=
  its ← OrderedDict_init (args ++ (RStr <$> keys kwargs)) [];
  alloc (OParamDict its).

Definition new (d : loc) : M loc := __init__ [RObj d] [].

Definition _prototype (self : loc) (other : Ref) (op : binop) : M loc :=
  match other with
  | RNum s =>
      its ← items self;
      d ← comprehension (fun kv =>
             r ← apply_number op kv.2 s; c ← cpu r; mret (kv.1, c)) its;
      new d
  | RObj o =>
      ob ← load o;
      match ob with
      | ODict _ | OParamDict _ =>
          its ← items self;
          d ← comprehension (fun k =>
                 a ← getitem_at self k; a' ← cpu a;
                 b ← getitem_at o k; b' ← cpu b;
                 r ← apply_tensor op a' b'; mret (k, r)) (keys its);
          new d
      | OTensor _ => raise NotImplementedError
      end
  | RNone | RStr _ => raise NotImplementedError
  end.

Definition __add__ (self : loc) (other : Ref) : M loc :=
  _prototype self other operator.add.

Definition __rmul__ (self : loc) (other : Ref) : M loc :=
  _prototype self other operator.mul.

Definition __mul__ := __rmul__.

Definition __neg__ (self : loc) : M loc :=
  its ← items self;
  d ← comprehension (fun kv => r ← negate kv.2; mret (kv.1, r)) its;
  new d.

(** [other.__neg__()] *)
Definition neg (other : Ref) : M Ref :=
  match other with
  | RNum s => mret (RNum (- s)%Qc)
  | RObj l =>
      o ← load l;
      match o with
      | OTensor _ => r ← negate l; mret (RObj r)
      | OParamDict _ => r ← __neg__ l; mret (RObj r)
      | ODict _ => raise AttributeError
      end
  | RNone | RStr _ => raise AttributeError
  end.

Definition __rsub__ (self : loc) (other : Ref) : M loc :=
  (* a- b := a + (-b) *)
  n ← neg other; __add__ self n.

Definition __sub__ := __rsub__.

Definition __truediv__ (self : loc) (other : Ref) : M loc :=
  _prototype self other operator.truediv.

(** The arithmetic of the class: add, scale (on either side), negate,
    subtract (on either side) and divide; each method over the store with
    the same method on values. *)
Definition methods : list ((loc -> Ref -> M loc) * (dict -> PyVal -> Result dict)) :=
  [ (__add__, ParamDict.__add__);
    (__mul__, ParamDict.__mul__);
    (__rmul__, ParamDict.__rmul__);
    (fun self _ => __neg__ self, fun self _ => ParamDict.__neg__ self);
    (__sub__, ParamDict.__sub__);
    (__rsub__, ParamDict.__rsub__);
    (__truediv__, ParamDict.__truediv__) ].

(** ** What a reference stands for in a store *)

Definition view_tensor (h : Heap) (l : loc) : option Tensor :=
  match h !! l with
  | Some (OTensor t) => Some t
  | _ => None
  end.

Definition view_items (h : Heap) (its : list (string * loc)) : option dict :=
  mapM (fun kv => t ← view_tensor h kv.2; Some (kv.1, t)) its.

(** The keys and values of the dictionary at [l]. *)
Definition view (h : Heap) (l : loc) : option dict :=
  match h !! l with
  | Some (ODict its) | Some (OParamDict its) => view_items h its
  | _ => None
  end.

Definition view_ref (h : Heap) (r : Ref) : option PyVal :=
  match r with
  | RNone => Some PNone
  | RNum s => Some (PNum s)
  | RStr s => Some (PStr s)
  | RObj l =>
      match h !! l with
      | Some (OTensor t) => Some (PTensor t)
      | Some (ODict its) => PDict <$> view_items h its
      | Some (OParamDict its) => PParamDict <$> view_items h its
      | None => None
      end
  end.

(** ** What a call may do to the store *)

(** The store after the call extends the store before it: every object that
    was there is there unchanged. *)
Definition frame {A} (m : M A) : Prop := forall h, h `prefix_of` (m h).1.

(** A reference the call returns is to an instance of the class that was not
    in the store before. *)
Definition fresh (m : M loc) : Prop :=
  forall h h' r, m h = (h', Ok r) ->
    h !! r = None /\ exists its, h' !! r = Some (OParamDict its).

(** ** Store-level computations against value-level results

    [sim rel m h R]: run from [h], the computation [m] extends the store and
    either returns something that [rel] relates, in the store it leaves, to
    what [R] returns, or raises the exception that [R] raises. *)
Definition sim {X Y} (rel : Heap -> X -> Y -> Prop) (m : M X) (h : Heap)
    (R : Result Y) : Prop :=
  h `prefix_of` (m h).1 /\
  match (m h).2, R with
  | Ok x, Ok y => rel (m h).1 x y
  | Raise e, Raise e' => e = e'
  | _, _ => False
  end.

Definition is_tensor (h : Heap) (l : loc) (t : Tensor) : Prop :=
  view_tensor h l = Some t.

Definition is_item (h : Heap) (kl : string * loc) (kt : string * Tensor) : Prop :=
  kl.1 = kt.1 /\ view_tensor h kl.2 = Some kt.2.

Definition are_items (h : Heap) (its : list (string * loc)) (d : dict) : Prop :=
  view_items h its = Some d.

Definition is_dict_at (h : Heap) (l : loc) (d : dict) : Prop :=
  view h l = Some d.

Definition is_value (h : Heap) (r : Ref) (v : PyVal) : Prop :=
  view_ref h r = Some v.

(** [l] is an instance of the class with the keys and values of [d]. *)
Definition is_instance (h : Heap) (l : loc) (d : dict) : Prop :=
  exists its, h !! l = Some (OParamDict its) /\ view_items h its = Some d.

(** The store of the examples: [ex_G] at address 2 and [ex_B] at address 5. *)
Definition ex_heap : Heap :=
  [ OTensor (mkTensor CUDA (Q2Qc 2)); OTensor (host (Q2Qc 4));
    OParamDict [("w1", 0); ("w2", 1)];
    OTensor (host (Q2Qc 1)); OTensor (host (Q2Qc 1));
    OParamDict [("w1", 3); ("w2", 4)] ].

End Store.

From Stdlib Require Import Ascii.
From stdpp Require pretty.

(** ** Where the values of a result live *)

(** Every reference that the computation returns in its items is to an
    object allocated during the computation. *)
Definition allocated {X} (refs : X -> list Store.loc) (m : Store.M X) : Prop :=
  forall h h' x, m h = (h', Ok x) -> Forall (fun l => length h <= l) (refs x).

(** The instance that the computation returns holds only references to
    objects allocated during the computation. *)
Definition new_values (m : Store.M Store.loc) : Prop :=
  forall h h' r its, m h = (h', Ok r) -> h' !! r = Some (Store.OParamDict its) ->
    Forall (fun l => length h <= l) its.*2.

(** * The other utilities of the file

    Their numbers are exact: Python's integers, and its floats up to
    rounding. *)

(** The exceptions of the class and the one that arithmetic adds. *)
Inductive Exn :=
| Builtin (e : PyErr)
| ZeroDivisionError.

Inductive Res (A : Type) :=
| Return (a : A)
| Throw (e : Exn).
Arguments Return {A} a.
Arguments Throw {A} e.

#[global] Instance Res_ret : MRet Res := fun A a => Return a.
#[global] Instance Res_bind : MBind Res := fun A B f m =>
  match m with Return a => f a | Throw e => Throw e end.

(** [a / b] on Python numbers *)
Definition truediv (a b : Qc) : Res Qc :=
  if Qc_eq_bool b 0%Qc then Throw ZeroDivisionError else Return (a / b)%Qc.

(** ** AverageMeter

    [[
    class AverageMeter(object):
        def __init__(self):
            self.reset()
        def reset(self):
            self.val = 0
            self.avg = 0
            self.sum = 0
            self.count = 0
        def update(self, val, n=1):
            self.val = val
            self.sum += val * n
            self.count += n
            self.avg = self.sum / self.count
    ]]

    A method takes the object before the call and returns the object after
    it; [update] also returns how the call ended, since the assignments made
    before an exception stay. *)

Module AverageMeter.

Record t := mk { val : Qc; avg : Qc; sum : Qc; count : Qc }.

Definition reset (self : t) : t :=
  let self := mk 0%Qc (avg self) (sum self) (count self) in
  let self := mk (val self) 0%Qc (sum self) (count self) in
  let self := mk (val self) (avg self) 0%Qc (count self) in
  mk (val self) (avg self) (sum self) 0%Qc.

(** [AverageMeter()]: whatever the new object holds, [reset] overwrites it. *)
Definition __init__ (self : t) : t := reset self.

Definition update (self : t) (v n : Qc) : t * Res unit :=
  let self := mk v (avg self) (sum self) (count self) in
  let self := mk (val self) (avg self) (sum self + v * n)%Qc (count self) in
  let self := mk (val self) (avg self) (sum self) (count self + n)%Qc in
  match truediv (sum self) (count self) with
  | Return q => (mk (val self) q (sum self) (count self), Return tt)
  | Throw e => (self, Throw e)
  end.

(** [for v, n in batches: meter.update(v, n)]: the first exception ends the
    loop. *)
Fixpoint updates (self : t) (batches : list (Qc * Qc)) : t * Res unit :=
  match batches with
  | [] => (self, Return tt)
  | (v, n) :: rest =>
      match update self v n with
      | (self, Return _) => updates self rest
      | (self, Throw e) => (self, Throw e)
      end
  end.

End AverageMeter.

(** The number of samples and the weighted total of a list of batches. *)
Definition samples (batches : list (Qc * Qc)) : Qc :=
  foldr (fun vn acc => vn.2 + acc)%Qc 0%Qc batches.

Definition weighted_total (batches : list (Qc * Qc)) : Qc :=
  foldr (fun vn acc => vn.1 * vn.2 + acc)%Qc 0%Qc batches.

(** A meter that starts from arbitrary fields, and some batches. *)
Definition ex_meter : AverageMeter.t :=
  AverageMeter.mk (Q2Qc 7) (Q2Qc 7) (Q2Qc 7) (Q2Qc 7).

Definition ex_batches : list (Qc * Qc) :=
  [(Q2Qc 1, Q2Qc 2); (Q2Qc 4, Q2Qc 1); (Q2Qc 2, Q2Qc 3)].

(** The value of a decimal digit. *)
Definition digit (c : Ascii.ascii) : option Z :=
  let n := Ascii.nat_of_ascii c in
  if ((48 <=? n) && (n <=? 57))%nat then Some (Z.of_nat n - 48)%Z else None.

(** ** Strings

    The methods of Python's [str] that the functions call. *)

Module str.

(** [s.endswith(suffix)] *)
Definition endswith (s suffix : string) : bool :=
  String.prefix (String.rev suffix) (String.rev s).

(** [s.lower()] on the letters A to Z; no other character lowers to one of
    the letters a to z but the Kelvin sign, which lowers to k. *)
Definition lower_char (c : Ascii.ascii) : Ascii.ascii :=
  let n := Ascii.nat_of_ascii c in
  if (65 <=? n)%nat && (n <=? 90)%nat then Ascii.ascii_of_nat (n + 32) else c.

Fixpoint lower (s : string) : string :=
  match s with
  | EmptyString => EmptyString
  | String c r => String (lower_char c) (lower r)
  end.

(** A blank, for [strip]. *)
Definition is_space (c : Ascii.ascii) : bool :=
  let n := Ascii.nat_of_ascii c in
  ((9 <=? n) && (n <=? 13) || (28 <=? n) && (n <=? 32))%nat.

Fixpoint lstrip (s : string) : string :=
  match s with
  | String c r => if is_space c then lstrip r else s
  | EmptyString => EmptyString
  end.

(** [s.strip()] *)
Definition strip (s : string) : string :=
  String.rev (lstrip (String.rev (lstrip s))).

(** [s.split(sep)] for a separator of one character: the pieces between the
    separators, empty ones too. *)
Fixpoint split (sep : ascii) (s : string) : list string :=
  match s with
  | EmptyString => [EmptyString]
  | String c r =>
      if Ascii.eqb c sep then EmptyString :: split sep r
      else match split sep r with
           | piece :: pieces => String c piece :: pieces
           | [] => [String c EmptyString]
           end
  end.

(** [s.replace(c, '')] for one character [c]. *)
Fixpoint remove (c : ascii) (s : string) : string :=
  match s with
  | EmptyString => EmptyString
  | String c' r => if Ascii.eqb c' c then remove c r else String c' (remove c r)
  end.

Fixpoint all_digits (s : string) : bool :=
  match s with
  | EmptyString => true
  | String c r => (if digit c is Some _ then true else false) && all_digits r
  end.

(** [s.isnumeric()] on ASCII text: at least one character, and digits only. *)
Definition isnumeric (s : string) : bool :=
  match s with
  | EmptyString => false
  | String _ _ => all_digits s
  end.

End str.

(** ** Numbers from text

    [int(s)] for a string: blanks around, a sign, decimal digits, single
    underscores between digits.  (Digits and blanks beyond ASCII are left
    out.) *)

(** The value of digits that continue a number read so far. *)
Fixpoint digits (acc : Z) (s : string) : option Z :=
  match s with
  | EmptyString => Some acc
  | String c r =>
      match digit c with
      | Some d => digits (10 * acc + d) r
      | None =>
          if Ascii.eqb c "_"%char then
            match r with
            | String c' _ => if digit c' is Some _ then digits acc r else None
            | EmptyString => None
            end
          else None
      end
  end.

(** A number without sign starts with a digit. *)
Definition unsigned (s : string) : option Z :=
  match s with
  | String c _ => if digit c is Some _ then digits 0 s else None
  | EmptyString => None
  end.

Definition int (s : string) : Result Z :=
  let number r := match unsigned r with Some z => Ok z | None => Raise ValueError end in
  match str.strip s with
  | String "-"%char r => Z.opp <$> number r
  | String "+"%char r => number r
  | r => number r
  end.

(** [a // b] on integers *)
Definition floordiv (a b : Z) : Res Z :=
  if (b =? 0)%Z then Throw ZeroDivisionError else Return (a / b)%Z.

(** An exception of the class, among the exceptions of the utilities. *)
Definition builtin {A} (r : Result A) : Res A :=
  match r with Ok a => Return a | Raise e => Throw (Builtin e) end.

Module tools.

(** ** Parameters, models and the command line *)

(** A parameter: which object it is, and what the functions read of it. *)
Record Param := mkParam { obj : nat; requires_grad : bool; ndim : nat }.

(** A model, as [model.named_parameters()] lists it. *)
Definition Model := list (string * Param).

(** The fields of [args] that the functions below read. *)
Record Args := mkArgs {
  optimizer : string;
  lr : Qc;
  weight_decay : Qc;
  no_weight_decay_list : list string;
  scheduler : string;
  num_warmup_steps : Z;
  step_gamma : Qc;
  batch_size : Z;
  epochs : Z
}.

(** [for p in model.parameters(): p.requires_grad = required_grad] *)
Definition set_required_grad (model : Model) (required_grad : bool) : Model :=
  (fun np => (np.1, mkParam (obj np.2) required_grad (ndim np.2))) <$> model.

(** ** Groups of parameters *)

Record Group := mkGroup { params : list Param; group_weight_decay : Qc }.

(** The test that sends a parameter to the list [no_decay]. *)
Definition exempt (no_weight_decay_list : list string) (np : string * Param) : bool :=
  (ndim np.2 <=? 1)%nat || str.endswith np.1 ".bias"
  || bool_decide (np.1 ∈ no_weight_decay_list).

(** The body of the loop of [param_groups_weight_decay] on the lists
    [(decay, no_decay)]. *)
Definition sort_parameter (no_weight_decay_list : list string)
    (lists : list Param * list Param) (np : string * Param)
  : list Param * list Param :=
  let '(decay, no_decay) := lists in
  let '(name, param) := np in
  if negb (requires_grad param) then (decay, no_decay)
  else if (ndim param <=? 1)%nat || str.endswith name ".bias"
          || bool_decide (name ∈ no_weight_decay_list)
       then (decay, no_decay ++ [param])
       else (decay ++ [param], no_decay).

Definition param_groups_weight_decay (model : Model) (weight_decay : Qc)
    (no_weight_decay_list : list string) : list Group :=
  let '(decay, no_decay) := foldl (sort_parameter no_weight_decay_list) ([], []) model in
  [ mkGroup no_decay 0%Qc; mkGroup decay weight_decay ].

(** ** Optimizers *)

Inductive OptimizerClass := SGD | Adam | AdamW.

(** An optimizer of [torch.optim], as constructed: its class, its parameter
    groups with the weight decay in force for each (a group's own, or the
    one given to the constructor), the learning rate and the momentum. *)
Record Optimizer := mkOptimizer {
  cls : OptimizerClass;
  param_groups : list Group;
  optim_lr : Qc;
  momentum : option Qc
}.

Definition get_optimizer (args : Args) (model : Model) : Result Optimizer :=
  let param_groups :=
    param_groups_weight_decay model (weight_decay args) (no_weight_decay_list args) in
  if String.eqb (optimizer args) "SGD" then
    Ok (mkOptimizer SGD param_groups (lr args) (Some (Q2Qc (9 # 10))))
  else if String.eqb (optimizer args) "Adam" then
    Ok (mkOptimizer Adam param_groups (lr args) None)
  else if String.eqb (str.lower (optimizer args)) "adamw" then
    Ok (mkOptimizer AdamW param_groups (lr args) None)
  else Raise ValueError.


(** ** Schedulers *)

(** The schedulers that [get_scheduler] constructs, each with the arguments
    the function gives it beside the optimizer. *)
Inductive Scheduler :=
| ReduceLROnPlateau
| CosineAnnealingLR (T_max : Z)
| linear_schedule_with_warmup (num_training_steps num_warmup_steps : Z)
| cosine_schedule_with_warmup (num_training_steps num_warmup_steps : Z)
| StepLR (step_size : Z) (gamma : Qc).

(** The first [if] stands alone; the chain after it starts with a second
    [if] and ends in [else: scheduler = None].  The variable [scheduler]
    (here [scheduler'], beside the field of [args]) is [None] where Python
    has it unbound; it is bound on every path before it is read. *)
Definition get_scheduler (args : Args) (optimizer : Optimizer) (t_total : Z)
  : option Scheduler :=
  let scheduler' : option Scheduler :=
    if String.eqb (scheduler args) "ReduceLROnPlateau"
    then Some ReduceLROnPlateau else None in
  let scheduler' : option Scheduler :=
    if String.eqb (scheduler args) "CosineAnnealingLR" then
      Some (CosineAnnealingLR t_total)
    else if String.eqb (scheduler args) "linear_schedule_with_warmup" then
      Some (linear_schedule_with_warmup t_total (num_warmup_steps args))
    else if String.eqb (scheduler args) "cosine_schedule_with_warmup" then
      Some (cosine_schedule_with_warmup t_total (num_warmup_steps args))
    else if String.eqb (scheduler args) "StepLR" then
      Some (StepLR 1 (step_gamma args))
    else None in
  scheduler'.

(** ** The size of a batch and the weight decay *)

(** What the functions read outside their arguments: [os.environ] and
    [torch.cuda.device_count()]. *)
Record World := mkWorld { environ : list (string * string); device_count : nat }.

(** [key in os.environ] *)
Definition has (w : World) (key : string) : bool :=
  if get (environ w) key is Some _ then true else false.

Definition multi_gpu_check (w : World) : Result bool :=
  (* int(os.environ.get('RANK', -1)) != -1 *)
  rank ← match get (environ w) "RANK" with Some s => int s | None => Ok (-1)%Z end;
  let torchrun_active := negb (rank =? -1)%Z in
  let slurm_active := has w "SLURM_NODEID" in
  let slurm_active := if slurm_active then (1 <? device_count w)%nat else slurm_active in
  let use_ddp := torchrun_active || slurm_active in
  Ok use_ddp.

Definition calculate_effective_batch_size (w : World) (args : Args) : Result Z :=
  let batch_size := batch_size args in
  use_ddp ← multi_gpu_check w;
  let is_slurm_job := has w "SLURM_NODEID" in
  world_size ←
    (if is_slurm_job then getitem (environ w) "SLURM_NTASKS" ≫= int
     else if (use_ddp : bool) then getitem (environ w) "WORLD_SIZE" ≫= int
     else Ok 1%Z);
  let effective_batch_size := (batch_size * world_size)%Z in
  Ok effective_batch_size.

(** [math.sqrt(x)] is not computed: the function returns the factor and the
    number under the root, for the product [factor * sqrt(radicand)].  A
    negative number under the root is the ValueError of [math.sqrt]. *)
Record Rooted := mkRooted { factor : Qc; radicand : Qc }.

Definition calculate_weight_decay (w : World) (args : Args) (len_dataset_train : Z)
  : Res Rooted :=
  batch_size ← builtin (calculate_effective_batch_size w args);
  num_iterations ← floordiv len_dataset_train batch_size;
  let norm_weight_decay := weight_decay args in
  let product := (num_iterations * epochs args)%Z in
  if (product =? 0)%Z then Throw ZeroDivisionError
  else if (product <? 0)%Z then Throw (Builtin ValueError)
  else Return (mkRooted norm_weight_decay (1 / Q2Qc (inject_Z product))%Qc).

End tools.

(** A model with a frozen parameter, and a command line. *)
Definition ex_model : tools.Model :=
  [ ("conv.weight", tools.mkParam 0 true 4); ("conv.bias", tools.mkParam 1 true 1);
    ("fc.weight", tools.mkParam 2 true 2); ("fc.bias", tools.mkParam 3 true 1);
    ("pos_embed", tools.mkParam 4 true 3); ("head.weight", tools.mkParam 5 false 2) ].

Definition ex_args : tools.Args :=
  tools.mkArgs "AdamW" (Q2Qc (1 # 1000)) (Q2Qc (1 # 10))
    ["pos_embed"; "cls_token"; "reg_token"] "ReduceLROnPlateau" 100 (Q2Qc (1 # 2)) 32 10.

(** The rank as [multi_gpu_check] reads it: the number in [RANK], and -1
    when the variable is not set. *)
Definition rank_is (w : tools.World) (z : Z) : Prop :=
  match get (tools.environ w) "RANK" with
  | Some s => int s = Ok z
  | None => z = (-1)%Z
  end.

(** Two worlds: a plain run, and a SLURM job of four tasks on a node with
    one device. *)
Definition ex_plain : tools.World := tools.mkWorld [("HOME", "/root")] 8.

Definition ex_slurm : tools.World :=
  tools.mkWorld [("SLURM_NODEID", "0"); ("SLURM_NTASKS", "4"); ("WORLD_SIZE", "16")] 1.

(** ** ParseKwargs

    [[
    class ParseKwargs(argparse.Action):
        def __call__(self, parser, namespace, values, option_string=None):
            setattr(namespace, self.dest, dict())
            for value in values:
                key, value_str = value.split('=')
                if value_str.replace('-', '').isnumeric():
                    processed_val = int(value_str)
                elif value_str.replace('-', '').replace('.', '').isnumeric():
                    processed_val = float(value_str)
                elif value_str in ['True', 'true']:
                    processed_val = True
                elif value_str in ['False', 'false']:
                    processed_val = False
                else:
                    processed_val = value_str
                getattr(namespace, self.dest)[key] = processed_val
    ]] *)

(** The digits at the head of a string: their value after [acc], how many
    they are, and the rest of the string. *)
Fixpoint take_digits (acc : Z) (n : nat) (s : string) : Z * nat * string :=
  match s with
  | String c r =>
      match digit c with
      | Some d => take_digits (10 * acc + d) (S n) r
      | None => (acc, n, s)
      end
  | EmptyString => (acc, n, s)
  end.

(** Digits with at most one point among them, and a digit on one side of
    the point at least. *)
Definition decimal (s : string) : option Qc :=
  let '(i, ni, r) := take_digits 0 0 s in
  match r with
  | EmptyString => if (ni =? 0)%nat then None else Some (Q2Qc (inject_Z i))
  | String "."%char r' =>
      let '(f, nf, r'') := take_digits 0 0 r' in
      match r'' with
      | EmptyString =>
          if (ni + nf =? 0)%nat then None
          else Some (Q2Qc (inject_Z i) + Q2Qc (f # Z.to_pos (10 ^ Z.of_nat nf)))%Qc
      | String _ _ => None
      end
  | String _ _ => None
  end.

(** [float(s)] on text of digits, points and signs, which is all that
    [ParseKwargs] gives it: the number written, before it is rounded.
    (Blanks, exponents, underscores and the words inf and nan are left
    out.) *)
Definition float (s : string) : Result Qc :=
  let number r := match decimal r with Some q => Ok q | None => Raise ValueError end in
  match s with
  | String "-"%char r => Qcopp <$> number r
  | String "+"%char r => number r
  | r => number r
  end.

Module ParseKwargs.

Inductive Value :=
| VInt (z : Z)
| VFloat (q : Qc)
| VBool (b : bool)
| VStr (s : string).

(** The chain of tests on [value_str]. *)
Definition processed_val (value_str : string) : Result Value :=
  if str.isnumeric (str.remove "-" value_str) then VInt <$> int value_str
  else if str.isnumeric (str.remove "." (str.remove "-" value_str)) then VFloat <$> float value_str
  else if bool_decide (value_str ∈ ["True"; "true"]) then Ok (VBool true)
  else if bool_decide (value_str ∈ ["False"; "false"]) then Ok (VBool false)
  else Ok (VStr value_str).

(** The loop, on the dictionary [getattr(namespace, self.dest)]: what it
    holds when the loop ends, and how the loop ends. *)
Fixpoint loop (dest : list (string * Value)) (values : list string)
  : list (string * Value) * Result unit :=
  match values with
  | [] => (dest, Ok tt)
  | value :: values =>
      match str.split "=" value with
      | [key; value_str] =>
          match processed_val value_str with
          | Ok v => loop (setitem dest key v) values
          | Raise e => (dest, Raise e)
          end
      | _ => (dest, Raise ValueError)      (* the unpacking of the pieces *)
      end
  end.

(** [setattr(namespace, self.dest, dict())], then the loop. *)
Definition __call__ (values : list string) : list (string * Value) * Result unit :=
  loop [] values.

End ParseKwargs.

(** The characters of a string. *)
Fixpoint chars (s : string) : list ascii :=
  match s with
  | EmptyString => []
  | String c r => c :: chars r
  end.

Definition is_digit (c : ascii) : bool := if digit c is Some _ then true else false.

(** Every character of [s] passes the test [p]; some character does. *)
Definition only (p : ascii -> bool) (s : string) : bool := forallb p (chars s).
Definition some (p : ascii -> bool) (s : string) : bool := existsb p (chars s).

(** How many characters of [s] pass the test [p]. *)
Definition count (p : ascii -> bool) (s : string) : nat :=
  length (List.filter p (chars s)).

Definition is_minus (c : ascii) : bool := Ascii.eqb c "-".
Definition is_point (c : ascii) : bool := Ascii.eqb c ".".
Definition is_equals (c : ascii) : bool := Ascii.eqb c "=".

(** A character that no number is written with. *)
Definition is_other (c : ascii) : bool := negb (is_digit c || is_minus c || is_point c).

(** The text is ASCII: what the model of [isnumeric] covers. *)
Definition ascii_text (s : string) : bool :=
  only (fun c => (nat_of_ascii c <? 128)%nat) s.

(** One pass of the loop of [ParseKwargs]: the key and the value of an
    argument. *)
Definition parse_item (value : string) : Result (string * ParseKwargs.Value) :=
  match str.split "=" value with
  | [key; value_str] => v ← ParseKwargs.processed_val value_str; mret (key, v)
  | _ => Raise ValueError
  end.

(** ** The columns of the CSV loggers

    [[
    class CSVLogger:
        def __init__(self, args, csv_path, concept_names, mode='w'):
            self.concept_names = concept_names
            columns = ['epoch']
            for concept in concept_names:
                columns.append(concept)
            columns.append(f'average')
            ...
            self.writer = csv.DictWriter(self.file, fieldnames=columns)

    class CSVBatchLogger:
        def __init__(self, args, csv_path, n_groups, mode='w'):
            self.n_groups = n_groups
            columns = ['epoch', 'batch']
            for idx in range(n_groups):
                columns.append(f'avg_loss_group:{idx}')
                ...
            columns.append('avg_actual_loss')
            ...
            if args.dataset == 'MetaDataset':
                columns.append("F1-score")
            if args.dataset == 'ISIC':
                columns.append("roc_auc")
    ]]

    The list [columns] is what is modelled; the file and the writer are
    not. *)

Module CSVLogger.

Definition columns (concept_names : list string) : list string :=
  let columns := ["epoch"] in
  let columns := foldl (fun columns concept => columns ++ [concept]) columns concept_names in
  columns ++ ["average"].

End CSVLogger.

Module CSVBatchLogger.

(** The six appends of one pass of the loop; [pretty idx] is the decimal
    text that the f-string gives of the integer. *)
Definition group_columns (idx : Z) : list string :=
  ["avg_loss_group:" +:+ pretty.pretty idx;
   "exp_avg_loss_group:" +:+ pretty.pretty idx;
   "avg_acc_group:" +:+ pretty.pretty idx;
   "processed_data_count_group:" +:+ pretty.pretty idx;
   "update_data_count_group:" +:+ pretty.pretty idx;
   "update_batch_count_group:" +:+ pretty.pretty idx].

Definition columns (dataset : string) (n_groups : Z) : list string :=
  let columns := ["epoch"; "batch"] in
  let columns :=
    foldl (fun columns idx => columns ++ group_columns idx) columns (seqZ 0 n_groups) in
  let columns :=
    columns ++ ["avg_actual_loss"; "avg_per_sample_loss"; "avg_acc"; "model_norm_sq";
                "reg_loss"; "worst_group_acc"; "mean_differences"; "group_avg_acc"] in
  let columns := if String.eqb dataset "MetaDataset" then columns ++ ["F1-score"] else columns in
  let columns := if String.eqb dataset "ISIC" then columns ++ ["roc_auc"] else columns in
  columns.

End CSVBatchLogger.

Definition is_colon (c : ascii) : bool := Ascii.eqb c ":".

(** Two texts have different characters at some place that both have. *)
Fixpoint differ (a b : string) : bool :=
  match a, b with
  | String c a', String d b' => negb (Ascii.eqb c d) || differ a' b'
  | _, _ => false
  end.

(** * Properties of the value-level model *)

(** ** Dictionaries *)

Section assoc_lemmas.
Context {V : Type}.
Implicit Types (d acc l : list (string * V)) (k : string) (v : V).

Lemma keys_cons k v d : keys ((k, v) :: d) = k :: keys d.
Proof. reflexivity. Qed.

Lemma keys_app (d1 d2 : list (string * V)) : keys (d1 ++ d2) = keys d1 ++ keys d2.
Proof. unfold keys. apply fmap_app. Qed.

Lemma get_None d k : get d k = None <-> k ∉ keys d.
Proof.
  induction d as [|[k' v] d IH]; simpl.
  - split; [intros _; apply not_elem_of_nil | done].
  - rewrite not_elem_of_cons. destruct (String.eqb_spec k k') as [->|Hne].
    + split; [done | intros [? _]; done].
    + rewrite IH. tauto.
Qed.

Lemma get_is_Some d k : is_Some (get d k) <-> k ∈ keys d.
Proof.
  rewrite <- not_eq_None_Some, get_None.
  destruct (decide (k ∈ keys d)); tauto.
Qed.

Lemma get_elem_of d k v : wf d -> (k, v) ∈ d -> get d k = Some v.
Proof.
  unfold wf. induction d as [|[k' v'] d IH]; simpl; intros Hnd Hin.
  - by apply elem_of_nil in Hin.
  - apply NoDup_cons in Hnd as [Hk' Hnd].
    apply elem_of_cons in Hin as [Heq|Hin].
    + inversion Heq; subst. by rewrite String.eqb_refl.
    + destruct (String.eqb_spec k k') as [->|_]; [|by apply IH].
      exfalso. apply Hk'. apply (list_elem_of_fmap_2 fst) in Hin. exact Hin.
Qed.

Lemma setitem_new d k v : k ∉ keys d -> setitem d k v = d ++ [(k, v)].
Proof.
  induction d as [|[k' v'] d IH]; simpl; [done|].
  rewrite not_elem_of_cons. intros [Hne Hnin].
  destruct (String.eqb_spec k k'); [done|]. by rewrite IH.
Qed.

Lemma foldl_setitem_distinct acc l :
  wf (acc ++ l) -> update acc l = acc ++ l.
Proof.
  revert acc. induction l as [|[k v] l IH]; intros acc Hwf; simpl.
  - by rewrite app_nil_r.
  - assert (Hk : k ∉ keys acc).
    { unfold wf in Hwf. rewrite keys_app in Hwf.
      apply NoDup_app in Hwf as (_ & Hdisj & _).
      intros Hin. apply (Hdisj _ Hin). simpl. apply list_elem_of_here. }
    rewrite (setitem_new _ _ _ Hk), IH; rewrite <- app_assoc; done.
Qed.

(** Copying a dictionary item by item gives the dictionary back. *)
Lemma from_items_wf d : wf d -> from_items d = d.
Proof. intros Hwf. apply (foldl_setitem_distinct [] d Hwf). Qed.

Lemma keys_map_values f d : keys (map_values f d) = keys d.
Proof.
  unfold keys, map_values. rewrite <- list_fmap_compose.
  by apply list_fmap_ext.
Qed.

Lemma wf_map_values f d : wf d -> wf (map_values f d).
Proof. unfold wf. by rewrite keys_map_values. Qed.

Lemma get_map_values f d k : get (map_values f d) k = f k <$> get d k.
Proof.
  induction d as [|[k' v] d IH]; simpl; [done|].
  destruct (String.eqb_spec k k') as [->|_]; [done|apply IH].
Qed.

End assoc_lemmas.

Lemma new_Ok (d : dict) : ParamDict.new d = Ok (from_items d).
Proof. reflexivity. Qed.

Lemma new_wf (d : dict) : wf d -> ParamDict.new d = Ok d.
Proof.
  intros Hwf. unfold ParamDict.new, ParamDict.__init__. simpl.
  by rewrite from_items_wf.
Qed.

(** ** Comprehensions *)

Lemma mapM_Ok {A B} (f : A -> Result B) (g : A -> B) (xs : list A) :
  (forall x, x ∈ xs -> f x = Ok (g x)) -> mapM f xs = Ok (g <$> xs).
Proof.
  induction xs as [|x xs IH]; intros Hf; [done|].
  simpl. rewrite (Hf x) by apply list_elem_of_here. simpl.
  rewrite IH; [done|]. intros y Hy. apply Hf. by apply list_elem_of_further.
Qed.

Lemma mapM_Raise_inv {A B} (f : A -> Result B) (xs : list A) e :
  mapM f xs = Raise e -> exists x, x ∈ xs /\ f x = Raise e.
Proof.
  induction xs as [|x xs IH]; simpl; [done|].
  destruct (f x) as [y|e'] eqn:Hx; simpl.
  - destruct (mapM f xs) as [ys|e'']; simpl; [done|]. intros [= ->].
    destruct IH as (x' & Hin & Hx'); [done|].
    exists x'. split; [by apply list_elem_of_further|done].
  - intros [= ->]. exists x. split; [apply list_elem_of_here|done].
Qed.

Lemma mapM_keys {B V} (f : string -> Result B) (d : list (string * V)) :
  mapM f (keys d) = mapM (fun kv => f kv.1) d.
Proof.
  induction d as [|[k v] d IH]; [done|]. simpl. by rewrite IH.
Qed.

Lemma comprehension_items (f : string * Tensor -> Result (string * Tensor)) g (d : dict) :
  wf d -> (forall kv, kv ∈ d -> f kv = Ok (kv.1, g kv.1 kv.2)) ->
  comprehension f d ≫= ParamDict.new = Ok (map_values g d).
Proof.
  intros Hwf Hf. unfold comprehension.
  rewrite (mapM_Ok f (fun kv => (kv.1, g kv.1 kv.2)) d Hf). simpl.
  fold (map_values g d).
  rewrite from_items_wf by by apply wf_map_values.
  apply new_wf. by apply wf_map_values.
Qed.

(** ** The two branches of [_prototype] *)

Lemma getitem_elem_of {V} (d : list (string * V)) k v :
  wf d -> (k, v) ∈ d -> getitem d k = Ok v.
Proof. intros Hwf Hin. unfold getitem. by rewrite (get_elem_of d k v). Qed.

Lemma pair_step_Ok op self o k a :
  wf self -> (k, a) ∈ self -> k ∈ keys o ->
  pair_step op self o k = Ok (k, paired op o k a).
Proof.
  intros Hwf Hin Hk. unfold pair_step, paired.
  rewrite (getitem_elem_of self k a Hwf Hin). simpl.
  apply get_is_Some in Hk as [b Hb]. unfold getitem. by rewrite Hb.
Qed.

Lemma pair_step_Raise op self o k a :
  wf self -> (k, a) ∈ self -> k ∉ keys o ->
  pair_step op self o k = Raise (KeyError k).
Proof.
  intros Hwf Hin Hk. unfold pair_step.
  rewrite (getitem_elem_of self k a Hwf Hin). simpl.
  apply get_None in Hk. unfold getitem. by rewrite Hk.
Qed.

Lemma prototype_number (self : dict) s op :
  wf self ->
  ParamDict._prototype self (PNum s) op
  = Ok (map_values (fun _ v => Tensor_cpu (op_number op v s)) self).
Proof.
  intros Hwf. unfold ParamDict._prototype.
  by apply (comprehension_items _ (fun _ v => Tensor_cpu (op_number op v s))).
Qed.

Lemma prototype_dict_body (self o : dict) op :
  wf self -> keys self ⊆ keys o ->
  comprehension (pair_step op self o) (keys self) ≫= ParamDict.new
  = Ok (map_values (paired op o) self).
Proof.
  intros Hwf Hsub. unfold comprehension. rewrite mapM_keys.
  rewrite <- (comprehension_items (fun kv => pair_step op self o kv.1) (paired op o) self Hwf);
    [done|].
  intros [k a] Hin. simpl. apply pair_step_Ok; [done..|].
  apply Hsub. by apply (list_elem_of_fmap_2 fst) in Hin.
Qed.

Lemma prototype_paramdict (self o : dict) op :
  wf self -> keys self ⊆ keys o ->
  ParamDict._prototype self (PParamDict o) op = Ok (map_values (paired op o) self).
Proof. apply prototype_dict_body. Qed.

(** The first key of [self] that [o] lacks ends the comprehension. *)
Lemma mapM_pair_step_missing op (self o l : dict) :
  wf self -> l ⊆ self -> ¬ (keys l ⊆ keys o) ->
  exists k, k ∈ keys l /\ (k ∉ keys o) /\
    mapM (fun kv => pair_step op self o kv.1) l = Raise (KeyError k).
Proof.
  intros Hwf. induction l as [|[k a] l IH]; intros Hl Hmiss.
  - exfalso. apply Hmiss. intros k Hk. by apply elem_of_nil in Hk.
  - assert (Hin : (k, a) ∈ self) by (apply Hl, list_elem_of_here).
    destruct (decide (k ∈ keys o)) as [Hk|Hk].
    + destruct IH as (k' & Hk' & Hk'o & Hr).
      * intros x Hx. apply Hl. by apply list_elem_of_further.
      * intros Hsub. apply Hmiss. intros x Hx. rewrite keys_cons in Hx.
        apply elem_of_cons in Hx as [->|Hx]; [done|by apply Hsub].
      * exists k'. split; [rewrite keys_cons; by apply list_elem_of_further|].
        split; [done|]. simpl.
        rewrite (pair_step_Ok op self o k a Hwf Hin Hk). simpl. by rewrite Hr.
    + exists k. split; [rewrite keys_cons; apply list_elem_of_here|].
      split; [done|]. simpl.
      by rewrite (pair_step_Raise op self o k a Hwf Hin Hk).
Qed.

Lemma prototype_dict_missing (self o : dict) op :
  wf self -> ¬ (keys self ⊆ keys o) ->
  exists k, k ∈ keys self /\ (k ∉ keys o) /\
    ParamDict._prototype self (PDict o) op = Raise (KeyError k) /\
    ParamDict._prototype self (PParamDict o) op = Raise (KeyError k).
Proof.
  intros Hwf Hmiss.
  destruct (mapM_pair_step_missing op self o self Hwf) as (k & Hk & Hko & Hr); [done..|].
  exists k. repeat split; [done..| |];
    unfold ParamDict._prototype, comprehension;
    fold (pair_step op self o); rewrite mapM_keys, Hr; done.
Qed.

(** The only exception out of the comprehensions of [_prototype] is the
    [KeyError] of a failed lookup. *)
Lemma pair_step_Raise_inv op self o k e :
  pair_step op self o k = Raise e -> exists k', e = KeyError k'.
Proof.
  unfold pair_step, getitem.
  destruct (get self k); simpl; [|intros [= <-]; by eexists].
  destruct (get o k); simpl; [done|intros [= <-]; by eexists].
Qed.

Lemma prototype_Raise_inv (self : dict) other op e :
  ParamDict._prototype self other op = Raise e ->
  (e = NotImplementedError /\ is_number other = false /\ is_dict other = false) \/
  (exists k, e = KeyError k /\ is_dict other = true).
Proof.
  assert (Hd : forall o, comprehension (pair_step op self o) (keys self) ≫= ParamDict.new
                         = Raise e -> exists k, e = KeyError k).
  { intros o. unfold comprehension.
    destruct (mapM _ _) as [kvs|e'] eqn:Hm; simpl; [done|]. intros [= ->].
    apply mapM_Raise_inv in Hm as (k & _ & Hk). by apply pair_step_Raise_inv in Hk. }
  destruct other; simpl; try (intros [= <-]; by left).
  - unfold comprehension. rewrite (mapM_Ok _ (fun kv => (kv.1, Tensor_cpu (op_number op kv.2 s)))) by done.
    done.
  - intros H. right. apply Hd in H as [k ->]. by exists k.
  - intros H. right. apply Hd in H as [k ->]. by exists k.
Qed.

(** ** Rewriting the values of a dictionary *)

Lemma map_values_compose {V} (f g : string -> V -> V) (d : list (string * V)) :
  map_values g (map_values f d) = map_values (fun k v => g k (f k v)) d.
Proof. unfold map_values. rewrite <- list_fmap_compose. by apply list_fmap_ext. Qed.

Lemma map_values_ext {V} (f g : string -> V -> V) (d : list (string * V)) :
  (forall k v, (k, v) ∈ d -> f k v = g k v) -> map_values f d = map_values g d.
Proof.
  intros Hfg. unfold map_values. apply Forall_fmap_ext_1, Forall_forall.
  intros [k v] Hin. simpl. f_equal. by apply Hfg.
Qed.

Lemma map_values_id {V} (f : string -> V -> V) (d : list (string * V)) :
  (forall k v, (k, v) ∈ d -> f k v = v) -> map_values f d = d.
Proof.
  intros Hf. unfold map_values. rewrite <- (list_fmap_id d) at 2.
  apply Forall_fmap_ext_1, Forall_forall. intros [k v] Hin. simpl. f_equal. by apply Hf.
Qed.

Lemma contents_map_values (f : string -> Tensor -> Tensor) (d : dict) :
  (forall k v, (k, v) ∈ d -> data (f k v) = data v) ->
  contents (map_values f d) = contents d.
Proof.
  intros Hf. unfold contents, map_values. rewrite <- list_fmap_compose.
  apply Forall_fmap_ext_1, Forall_forall. intros [k v] Hin. simpl. f_equal. by apply Hf.
Qed.

Lemma Tensor_cpu_host (t : Tensor) : device t = CPU -> Tensor_cpu t = t.
Proof. destruct t as [dv q]. simpl. by intros ->. Qed.

Lemma to_host_on_host (d : dict) :
  on_host d -> map_values (fun _ v => Tensor_cpu v) d = d.
Proof.
  intros Hd. apply map_values_id. intros k v Hin.
  apply Tensor_cpu_host. unfold on_host in Hd. rewrite Forall_forall in Hd.
  apply (Hd (k, v) Hin).
Qed.

(** * Properties of the store-level model *)

Section frame.
Import Store.

Lemma frame_ret {A} (a : A) : frame (mret a).
Proof. intros h. reflexivity. Qed.

Lemma frame_raise {A} e : frame (@raise A e).
Proof. intros h. reflexivity. Qed.

Lemma frame_lift {A} (r : Result A) : frame (lift r).
Proof. intros h. reflexivity. Qed.

Lemma frame_load l : frame (load l).
Proof. intros h. reflexivity. Qed.

Lemma frame_alloc o : frame (alloc o).
Proof. intros h. simpl. by apply prefix_app_r. Qed.

Lemma frame_bind {A B} (m : M A) (f : A -> M B) :
  frame m -> (forall a, frame (f a)) -> frame (m ≫= f).
Proof.
  intros Hm Hf h. unfold mbind, M_bind. specialize (Hm h).
  destruct (m h) as [h1 [a|e]]; simpl in *; [|done].
  etrans; [exact Hm|apply Hf].
Qed.

Lemma frame_mapM {A B} (f : A -> M B) (xs : list A) :
  (forall x, frame (f x)) -> frame (mapM f xs).
Proof.
  intros Hf. induction xs as [|x xs IH]; simpl.
  - apply frame_ret.
  - apply frame_bind; [apply Hf|]. intros y.
    apply frame_bind; [apply IH|]. intros ys. apply frame_ret.
Qed.

End frame.

Create HintDb frame.
#[export] Hint Resolve frame_ret frame_raise frame_lift frame_load frame_alloc
  frame_mapM : frame.

(** Goes through a computation bind by bind and case by case. *)
Ltac frame_steps :=
  repeat first
    [ progress intros
    | apply frame_bind
    | apply frame_mapM
    | solve [auto with frame]
    | match goal with
      | |- Store.frame (match ?x with _ => _ end) => destruct x
      end ].

Section frame_methods.
Import Store.

Lemma frame_load_tensor e l : frame (load_tensor e l).
Proof. unfold load_tensor. frame_steps. Qed.

Lemma frame_cpu l : frame (cpu l).
Proof. unfold cpu. pose proof frame_load_tensor. frame_steps. Qed.

Lemma frame_apply_number op l s : frame (apply_number op l s).
Proof. unfold apply_number. pose proof frame_load_tensor. frame_steps. Qed.

Lemma frame_apply_tensor op la lb : frame (apply_tensor op la lb).
Proof. unfold apply_tensor. pose proof frame_load_tensor. frame_steps. Qed.

Lemma frame_negate l : frame (negate l).
Proof. unfold negate. pose proof frame_load_tensor. frame_steps. Qed.

Lemma frame_items l : frame (items l).
Proof. unfold items. frame_steps. Qed.

Lemma frame_getitem_at d k : frame (getitem_at d k).
Proof. unfold getitem_at. pose proof frame_items. frame_steps. Qed.

Lemma frame_comprehension {A} (f : A -> M (string * loc)) xs :
  (forall x, frame (f x)) -> frame (comprehension f xs).
Proof. intros Hf. unfold comprehension. frame_steps. Qed.

Lemma frame_comprehension_number op s its :
  frame (comprehension (fun kv : string * loc =>
           r ← apply_number op kv.2 s; c ← cpu r; mret (kv.1, c)) its).
Proof.
  pose proof frame_apply_number. pose proof frame_cpu.
  apply frame_comprehension. frame_steps.
Qed.

Lemma frame_comprehension_dict op self o ks :
  frame (comprehension (fun k : string =>
           a ← getitem_at self k; a' ← cpu a;
           b ← getitem_at o k; b' ← cpu b;
           r ← apply_tensor op a' b'; mret (k, r)) ks).
Proof.
  pose proof frame_apply_tensor. pose proof frame_cpu. pose proof frame_getitem_at.
  apply frame_comprehension. frame_steps.
Qed.

Lemma frame_comprehension_negate its :
  frame (comprehension (fun kv : string * loc => r ← negate kv.2; mret (kv.1, r)) its).
Proof. pose proof frame_negate. apply frame_comprehension. frame_steps. Qed.

Lemma frame_init args kwargs : frame (__init__ args kwargs).
Proof.
  unfold __init__, OrderedDict_init, OrderedDict_update. frame_steps.
Qed.

Lemma frame_new d : frame (new d).
Proof. apply frame_init. Qed.

End frame_methods.

#[export] Hint Resolve frame_load_tensor frame_cpu frame_apply_number
  frame_apply_tensor frame_negate frame_items frame_getitem_at
  frame_comprehension_number frame_comprehension_dict frame_comprehension_negate
  frame_init frame_new : frame.

Section store_methods.
Import Store.

Lemma frame_prototype self other op : frame (_prototype self other op).
Proof. unfold _prototype. frame_steps. Qed.

Lemma frame_neg_method self : frame (__neg__ self).
Proof. unfold __neg__. frame_steps. Qed.

Lemma frame_neg other : frame (neg other).
Proof. unfold neg. pose proof frame_neg_method. frame_steps. Qed.

Lemma frame_rsub self other : frame (__rsub__ self other).
Proof.
  unfold __rsub__, __add__. pose proof frame_neg. pose proof frame_prototype.
  frame_steps.
Qed.

Lemma frame_methods m mv self other : (m, mv) ∈ methods -> frame (m self other).
Proof.
  unfold methods. intros Hm.
  repeat (apply elem_of_cons in Hm as [[= -> ->]|Hm];
          [first [apply frame_prototype | apply frame_neg_method | apply frame_rsub]|]).
  by apply elem_of_nil in Hm.
Qed.

(** ** The result is a new instance *)

Lemma fresh_alloc_paramdict its : fresh (alloc (OParamDict its)).
Proof.
  intros h h' r [= <- <-]. split.
  - by apply lookup_ge_None_2.
  - exists its. by apply list_lookup_middle.
Qed.

Lemma fresh_bind {A} (m : M A) (f : A -> M loc) :
  frame m -> (forall a, fresh (f a)) -> fresh (m ≫= f).
Proof.
  intros Hm Hf h h' r. unfold mbind, M_bind. specialize (Hm h).
  destruct (m h) as [h1 [a|e]] eqn:Hmh; simpl in *; [|done].
  intros Hr. destruct (Hf a h1 h' r Hr) as [Hnone Hsome]. split; [|done].
  apply lookup_ge_None. apply lookup_ge_None in Hnone.
  apply prefix_length in Hm. lia.
Qed.

Lemma fresh_raise e : fresh (raise e).
Proof. intros h h' r. done. Qed.

Lemma fresh_init args kwargs : fresh (__init__ args kwargs).
Proof.
  unfold __init__. apply fresh_bind; [|intros its; apply fresh_alloc_paramdict].
  unfold OrderedDict_init, OrderedDict_update. frame_steps.
Qed.

Lemma fresh_new d : fresh (new d).
Proof. apply fresh_init. Qed.

End store_methods.

(** Like [frame_steps], for the reference a computation returns. *)
Ltac fresh_steps :=
  repeat first
    [ progress intros
    | apply fresh_new
    | apply fresh_raise
    | apply fresh_bind; [solve [frame_steps]|]
    | match goal with
      | |- Store.fresh (match ?x with _ => _ end) => destruct x
      end ].

Section fresh_methods.
Import Store.

Lemma fresh_prototype self other op : fresh (_prototype self other op).
Proof. unfold _prototype. fresh_steps. Qed.

Lemma fresh_neg_method self : fresh (__neg__ self).
Proof. unfold __neg__. fresh_steps. Qed.

Lemma fresh_rsub self other : fresh (__rsub__ self other).
Proof.
  unfold __rsub__, __add__. apply fresh_bind; [apply frame_neg|].
  intros n. apply fresh_prototype.
Qed.

Lemma fresh_methods m mv self other : (m, mv) ∈ methods -> fresh (m self other).
Proof.
  unfold methods. intros Hm.
  repeat (apply elem_of_cons in Hm as [[= -> ->]|Hm];
          [first [apply fresh_prototype | apply fresh_neg_method | apply fresh_rsub]|]).
  by apply elem_of_nil in Hm.
Qed.

(** ** Views are stable under extension of the store *)

Lemma view_tensor_mono (h h' : Heap) l t :
  h `prefix_of` h' -> view_tensor h l = Some t -> view_tensor h' l = Some t.
Proof.
  intros Hp. unfold view_tensor.
  destruct (h !! l) as [o|] eqn:Hl; [|done].
  by rewrite (prefix_lookup_Some _ _ _ _ Hl Hp).
Qed.

Lemma view_items_mono (h h' : Heap) its d :
  h `prefix_of` h' -> view_items h its = Some d -> view_items h' its = Some d.
Proof.
  intros Hp. unfold view_items. revert d.
  induction its as [|[k l] its IH]; intros d; simpl; [done|].
  destruct (view_tensor h l) as [t|] eqn:Ht; simpl; [|done].
  rewrite (view_tensor_mono h h' l t Hp Ht). simpl.
  destruct (mapM _ its) as [d'|]; simpl; [|done].
  by rewrite (IH d' eq_refl).
Qed.

Lemma view_mono (h h' : Heap) l d :
  h `prefix_of` h' -> view h l = Some d -> view h' l = Some d.
Proof.
  intros Hp. unfold view.
  destruct (h !! l) as [o|] eqn:Hl; [|done].
  rewrite (prefix_lookup_Some _ _ _ _ Hl Hp).
  destruct o; [done|by apply view_items_mono..].
Qed.

Lemma view_ref_mono (h h' : Heap) r v :
  h `prefix_of` h' -> view_ref h r = Some v -> view_ref h' r = Some v.
Proof.
  intros Hp. destruct r as [| | |l]; simpl; [done..|].
  destruct (h !! l) as [o|] eqn:Hl; [|done].
  rewrite (prefix_lookup_Some _ _ _ _ Hl Hp).
  destruct o as [t|its|its]; [done| |];
    (destruct (view_items h its) as [d|] eqn:Hd; [|done];
     by rewrite (view_items_mono h h' its d Hp Hd)).
Qed.

End fresh_methods.

(** * The store-level methods compute what the value-level methods say *)

Section simulation.
Import Store.

Lemma sim_ret {X Y} (rel : Heap -> X -> Y -> Prop) h x y :
  rel h x y -> sim rel (mret x) h (Ok y).
Proof. intros Hr. split; [reflexivity|exact Hr]. Qed.

Lemma sim_raise {X Y} (rel : Heap -> X -> Y -> Prop) h e :
  sim rel (raise e) h (Raise e).
Proof. split; reflexivity. Qed.

Lemma run_bind {X X'} (m : M X) (f : X -> M X') h :
  (m ≫= f) h
  = match m h with
    | (h', Ok a) => f a h'
    | (h', Raise e) => (h', Raise e)
    end.
Proof. reflexivity. Qed.

Lemma sim_bind {X Y X' Y'} (r1 : Heap -> X -> Y -> Prop)
    (r2 : Heap -> X' -> Y' -> Prop) (m : M X) (f : X -> M X') R F h :
  sim r1 m h R ->
  (forall h1 x y, h `prefix_of` h1 -> r1 h1 x y -> sim r2 (f x) h1 (F y)) ->
  sim r2 (m ≫= f) h (R ≫= F).
Proof.
  unfold sim. intros [Hp Hm] Hf. rewrite run_bind.
  destruct (m h) as [h1 [x|e]]; destruct R as [y|e']; simpl in *; try done.
  destruct (Hf h1 x y Hp Hm) as [Hp' Hr]. split; [by etrans|done].
Qed.

(** A computation that only reads: it returns [x] and leaves the store. *)
Lemma sim_read {X X' Y'} (r2 : Heap -> X' -> Y' -> Prop)
    (m : M X) (f : X -> M X') (R : Result Y') h x :
  m h = (h, Ok x) -> sim r2 (f x) h R -> sim r2 (m ≫= f) h R.
Proof. unfold sim. rewrite run_bind. by intros ->. Qed.

Lemma run_load_tensor e h l t :
  view_tensor h l = Some t -> load_tensor e l h = (h, Ok t).
Proof.
  unfold view_tensor, load_tensor, load. rewrite run_bind.
  destruct (h !! l) as [[t'| |]|]; try done. by intros [= ->].
Qed.

Lemma view_tensor_alloc h t : view_tensor (h ++ [OTensor t]) (length h) = Some t.
Proof. unfold view_tensor. by rewrite list_lookup_middle. Qed.

Lemma sim_alloc_tensor h t : sim is_tensor (alloc (OTensor t)) h (Ok t).
Proof. split; simpl; [by apply prefix_app_r|apply view_tensor_alloc]. Qed.

Lemma sim_cpu h l t :
  is_tensor h l t -> sim is_tensor (cpu l) h (Ok (Tensor_cpu t)).
Proof.
  intros Ht. unfold cpu.
  apply (sim_read _ _ _ _ _ t); [by apply run_load_tensor|].
  destruct (device t) eqn:Hd.
  - apply sim_ret. unfold is_tensor. by rewrite Tensor_cpu_host.
  - apply sim_alloc_tensor.
Qed.

Lemma sim_apply_number op h l t s :
  is_tensor h l t -> sim is_tensor (apply_number op l s) h (Ok (op_number op t s)).
Proof.
  intros Ht. unfold apply_number.
  apply (sim_read _ _ _ _ _ t); [by apply run_load_tensor|]. apply sim_alloc_tensor.
Qed.

Lemma sim_apply_tensor op h la lb a b :
  is_tensor h la a -> is_tensor h lb b ->
  sim is_tensor (apply_tensor op la lb) h (Ok (op_tensor op a b)).
Proof.
  intros Ha Hb. unfold apply_tensor.
  apply (sim_read _ _ _ _ _ a); [by apply run_load_tensor|].
  apply (sim_read _ _ _ _ _ b); [by apply run_load_tensor|]. apply sim_alloc_tensor.
Qed.

Lemma sim_negate h l t :
  is_tensor h l t -> sim is_tensor (negate l) h (Ok (Tensor_neg t)).
Proof.
  intros Ht. unfold negate.
  apply (sim_read _ _ _ _ _ t); [by apply run_load_tensor|]. apply sim_alloc_tensor.
Qed.

End simulation.

Section items.
Import Store.

Lemma are_items_Forall2 h its d : are_items h its d <-> Forall2 (is_item h) its d.
Proof.
  unfold are_items, view_items. etrans; [apply mapM_Some|].
  assert (Hst : forall (kl : string * loc) (kt : string * Tensor),
             (view_tensor h kl.2 ≫= fun t => Some (kl.1, t)) = Some kt <-> is_item h kl kt).
  { intros [k l] [k' t]. unfold is_item. simpl.
    destruct (view_tensor h l) as [t'|]; simpl; [|split; [done|intros [_ ?]; done]].
    split; [by intros [= -> ->]|by intros [-> [= ->]]]. }
  split; intros H; eapply Forall2_impl; try exact H; intros kl kt; apply Hst.
Qed.

Lemma is_item_mono h h' kl kt :
  h `prefix_of` h' -> is_item h kl kt -> is_item h' kl kt.
Proof. intros Hp [Hk Ht]. split; [done|by apply (view_tensor_mono h)]. Qed.

Lemma are_items_nil h : are_items h [] [].
Proof. reflexivity. Qed.

Lemma are_items_cons h kl kt its d :
  is_item h kl kt -> are_items h its d -> are_items h (kl :: its) (kt :: d).
Proof. rewrite !are_items_Forall2. by constructor. Qed.

Lemma are_items_keys h its d : are_items h its d -> keys its = keys d.
Proof.
  rewrite are_items_Forall2.
  induction 1 as [|[k l] [k' t] its d [Hk _] _ IH]; [done|].
  simpl in Hk. subst k'. rewrite !keys_cons. by f_equal.
Qed.

Lemma are_items_get h its d k :
  are_items h its d ->
  match get its k, get d k with
  | Some l, Some t => view_tensor h l = Some t
  | None, None => True
  | _, _ => False
  end.
Proof.
  rewrite are_items_Forall2.
  induction 1 as [|[k1 l] [k2 t] its d [Hk Ht] _ IH]; simpl in *; [done|].
  subst k2. by destruct (String.eqb k k1).
Qed.

Lemma are_items_setitem h its d k l t :
  are_items h its d -> view_tensor h l = Some t ->
  are_items h (setitem its k l) (setitem d k t).
Proof.
  rewrite !are_items_Forall2. intros Hd Ht.
  induction Hd as [|[k1 l1] [k2 t1] its d [Hk Ht1] Hd IH]; simpl in *.
  - by repeat constructor.
  - subst k2. destruct (String.eqb k k1); constructor; done.
Qed.

Lemma are_items_update h acc accd its d :
  are_items h acc accd -> are_items h its d ->
  are_items h (update acc its) (update accd d).
Proof.
  intros Hacc Hd. apply are_items_Forall2 in Hd. revert acc accd Hacc.
  induction Hd as [|[k1 l] [k2 t] its d [Hk Ht] _ IH]; intros acc accd Hacc; [done|].
  simpl in *. subst k2. apply IH. by apply are_items_setitem.
Qed.

Lemma are_items_from_items h its d :
  are_items h its d -> are_items h (from_items its) (from_items d).
Proof. apply are_items_update, are_items_nil. Qed.

(** Reading the items of a dictionary that has a view. *)
Lemma run_items h l d :
  is_dict_at h l d -> exists its, items l h = (h, Ok its) /\ are_items h its d.
Proof.
  unfold is_dict_at, view, items, load. rewrite run_bind.
  destruct (h !! l) as [[t|its|its]|]; try done; intros Hv; by exists its.
Qed.

Lemma sim_getitem_at h l d k :
  is_dict_at h l d -> sim is_tensor (getitem_at l k) h (getitem d k).
Proof.
  intros Hd. destruct (run_items h l d Hd) as (its & Hrun & Hits).
  unfold getitem_at. apply (sim_read _ _ _ _ _ its Hrun).
  pose proof (are_items_get h its d k Hits) as Hg. unfold getitem, lift.
  destruct (get its k), (get d k); try done; split; done.
Qed.

(** A loop whose steps agree pairwise agrees as a whole. *)
Lemma sim_mapM {X Y} (f : X -> M (string * loc)) (F : Y -> Result (string * Tensor))
    (h : Heap) xs ys :
  Forall2 (fun x y => forall h1, h `prefix_of` h1 -> sim is_item (f x) h1 (F y)) xs ys ->
  forall h1, h `prefix_of` h1 -> sim are_items (mapM f xs) h1 (mapM F ys).
Proof.
  induction 1 as [|x y xs ys Hxy _ IH]; intros h1 Hp; simpl.
  - apply sim_ret, are_items_nil.
  - apply (sim_bind is_item); [by apply Hxy|].
    intros h2 kl kt Hp2 Hkl.
    apply (sim_bind are_items); [apply IH; by etrans|].
    intros h3 its d Hp3 Hits. apply sim_ret.
    apply are_items_cons; [by apply (is_item_mono h2)|done].
Qed.

Lemma sim_alloc_dict h its d :
  are_items h its d -> sim is_dict_at (alloc (ODict its)) h (Ok d).
Proof.
  intros Hits. split; simpl; [by apply prefix_app_r|].
  unfold is_dict_at, view. rewrite list_lookup_middle by done.
  apply (view_items_mono h); [by apply prefix_app_r|done].
Qed.

End items.

Lemma sim_comprehension {X Y} (f : X -> Store.M (string * Store.loc))
    (F : Y -> Result (string * Tensor)) (h : Store.Heap) xs ys :
  Forall2 (fun x y => forall h1, h `prefix_of` h1 ->
             Store.sim Store.is_item (f x) h1 (F y)) xs ys ->
  Store.sim Store.is_dict_at (Store.comprehension f xs) h (comprehension F ys).
Proof.
  intros Hxy. unfold Store.comprehension, comprehension.
  apply (sim_bind Store.are_items); [by apply (sim_mapM f F h)|].
  intros h1 its d _ Hits. apply sim_alloc_dict. by apply are_items_from_items.
Qed.

Lemma sim_new h l d :
  Store.is_dict_at h l d ->
  Store.sim Store.is_instance (Store.new l) h (ParamDict.new d).
Proof.
  intros Hd. rewrite new_Ok.
  unfold Store.new, Store.__init__, Store.OrderedDict_init. simpl.
  unfold Store.is_dict_at, Store.view in Hd.
  destruct (h !! l) as [[t|its|its]|] eqn:Hl; try done;
  ( unfold Store.sim; rewrite !run_bind; unfold Store.load; rewrite Hl; simpl;
    split; [by apply prefix_app_r|];
    eexists; split; [by apply list_lookup_middle|];
    apply (view_items_mono h); [by apply prefix_app_r|];
    by apply are_items_from_items ).
Qed.


Section refinement.
Import Store.

Lemma sim_bind_Ok {X Y X' Y'} (r1 : Heap -> X -> Y -> Prop)
    (r2 : Heap -> X' -> Y' -> Prop) (m : M X) (f : X -> M X') y R h :
  sim r1 m h (Ok y) ->
  (forall h1 x, h `prefix_of` h1 -> r1 h1 x y -> sim r2 (f x) h1 R) ->
  sim r2 (m ≫= f) h R.
Proof.
  unfold sim. intros [Hp Hm] Hf. rewrite run_bind.
  destruct (m h) as [h1 [x|e]]; simpl in *; try done.
  destruct (Hf h1 x Hp Hm) as [Hp' Hr]. split; [by etrans|done].
Qed.

Lemma is_instance_dict h l d : is_instance h l d -> is_dict_at h l d.
Proof. intros (its & Hl & Hits). unfold is_dict_at, view. by rewrite Hl. Qed.

Lemma is_instance_value h l d : is_instance h l d -> is_value h (RObj l) (PParamDict d).
Proof. intros (its & Hl & Hits). unfold is_value. simpl. by rewrite Hl, Hits. Qed.

Lemma is_tensor_value h l t : is_tensor h l t -> is_value h (RObj l) (PTensor t).
Proof.
  unfold is_tensor, view_tensor, is_value. simpl.
  destruct (h !! l) as [[t'| |]|]; try done. by intros [= ->].
Qed.

(** The step of the number branch of [_prototype]. *)
Lemma sim_step_number op s h (kl : string * loc) (kt : string * Tensor) :
  is_item h kl kt ->
  sim is_item (r ← apply_number op kl.2 s; c ← cpu r; mret (kl.1, c)) h
    (Ok (kt.1, Tensor_cpu (op_number op kt.2 s))).
Proof.
  intros [Hk Ht].
  apply (sim_bind_Ok is_tensor _ _ _ (op_number op kt.2 s)); [by apply sim_apply_number|].
  intros h1 r _ Hr.
  apply (sim_bind_Ok is_tensor _ _ _ (Tensor_cpu (op_number op kt.2 s))); [by apply sim_cpu|].
  intros h2 c _ Hc. by apply sim_ret.
Qed.

(** The step of the dictionary branch. *)
Lemma sim_step_dict op h self o (a b : dict) k :
  is_dict_at h self a -> is_dict_at h o b ->
  sim is_item
    (x ← getitem_at self k; x' ← cpu x;
     y ← getitem_at o k; y' ← cpu y;
     r ← apply_tensor op x' y'; mret (k, r)) h
    (pair_step op a b k).
Proof.
  intros Ha Hb. unfold pair_step.
  apply (sim_bind is_tensor); [by apply sim_getitem_at|].
  intros h1 x tx Hp1 Hx.
  apply (sim_bind_Ok is_tensor _ _ _ (Tensor_cpu tx)); [by apply sim_cpu|].
  intros h2 x' Hp2 Hx'.
  apply (sim_bind is_tensor).
  { apply sim_getitem_at. apply (view_mono h); [|done]. by etrans. }
  intros h3 y ty Hp3 Hy.
  apply (sim_bind_Ok is_tensor _ _ _ (Tensor_cpu ty)); [by apply sim_cpu|].
  intros h4 y' Hp4 Hy'.
  apply (sim_bind_Ok is_tensor _ _ _ (op_tensor op (Tensor_cpu tx) (Tensor_cpu ty))).
  { apply sim_apply_tensor; [|done]. apply (view_tensor_mono h2); [by etrans|done]. }
  intros h5 r _ Hr. by apply sim_ret.
Qed.

(** The step of [__neg__]. *)
Lemma sim_step_negate h (kl : string * loc) (kt : string * Tensor) :
  is_item h kl kt ->
  sim is_item (r ← negate kl.2; mret (kl.1, r)) h (Ok (kt.1, Tensor_neg kt.2)).
Proof.
  intros [Hk Ht].
  apply (sim_bind_Ok is_tensor _ _ _ (Tensor_neg kt.2)); [by apply sim_negate|].
  intros h1 r _ Hr. by apply sim_ret.
Qed.

Lemma Forall2_items_mono h its d (P : Heap -> string * loc -> string * Tensor -> Prop) :
  are_items h its d ->
  (forall h1 kl kt, h `prefix_of` h1 -> is_item h1 kl kt -> P h1 kl kt) ->
  Forall2 (fun kl kt => forall h1, h `prefix_of` h1 -> P h1 kl kt) its d.
Proof.
  intros Hits HP. apply are_items_Forall2 in Hits.
  eapply Forall2_impl; [exact Hits|]. intros kl kt Hi h1 Hp. simpl.
  apply HP; [done|]. by apply (is_item_mono h).
Qed.

End refinement.

Section refinement_methods.
Import Store.

Lemma prototype_refines h self other op (a : dict) v :
  is_dict_at h self a -> is_value h other v ->
  sim is_instance (_prototype self other op) h (ParamDict._prototype a v op).
Proof.
  intros Ha Hv. destruct (run_items h self a Ha) as (its & Hrun & Hits).
  destruct other as [| s | s | o]; simpl in Hv; unfold is_value in Hv; simpl in Hv.
  - injection Hv as <-. apply sim_raise.
  - injection Hv as <-. unfold _prototype, ParamDict._prototype.
    apply (sim_read _ _ _ _ _ its Hrun).
    apply (sim_bind is_dict_at).
    + apply sim_comprehension, (Forall2_items_mono h its a
        (fun h1 kl kt => sim is_item _ h1 _)); [done|].
      intros h1 kl kt _. apply sim_step_number.
    + intros h1 d D _. apply sim_new.
  - injection Hv as <-. apply sim_raise.
  - unfold _prototype. destruct (h !! o) as [ob|] eqn:Ho; [|done].
    apply (sim_read _ _ _ _ _ ob); [unfold load; by rewrite Ho|].
    assert (Hd : forall itso b, ob = ODict itso \/ ob = OParamDict itso ->
              view_items h itso = Some b ->
              sim is_instance
                (its0 ← items self;
                 d ← Store.comprehension (fun k =>
                        x ← getitem_at self k; x' ← cpu x;
                        y ← getitem_at o k; y' ← cpu y;
                        r ← apply_tensor op x' y'; mret (k, r)) (keys its0);
                 new d) h
                (ParamDict._prototype a (PDict b) op)).
    { intros itso b Hob Hb. unfold ParamDict._prototype. fold (pair_step op a b).
      assert (Hbo : is_dict_at h o b).
      { unfold is_dict_at, view. rewrite Ho. by destruct Hob as [-> | ->]. }
      apply (sim_read _ _ _ _ _ its Hrun).
      apply (sim_bind is_dict_at).
      - apply sim_comprehension. rewrite (are_items_keys h its a Hits).
        apply Forall_Forall2_diag, Forall_forall. intros k _ h1 Hp.
        apply sim_step_dict; by apply (view_mono h).
      - intros h1 d D _. apply sim_new. }
    destruct ob as [t|itso|itso].
    + injection Hv as <-. apply sim_raise.
    + destruct (view_items h itso) as [b|] eqn:Hb; [|done]. injection Hv as <-.
      apply (Hd itso b); [by left|done].
    + destruct (view_items h itso) as [b|] eqn:Hb; [|done]. injection Hv as <-.
      apply (Hd itso b); [by right|done].
Qed.

Lemma neg_method_refines h self (a : dict) :
  is_dict_at h self a -> sim is_instance (__neg__ self) h (ParamDict.__neg__ a).
Proof.
  intros Ha. destruct (run_items h self a Ha) as (its & Hrun & Hits).
  unfold __neg__, ParamDict.__neg__.
  apply (sim_read _ _ _ _ _ its Hrun).
  apply (sim_bind is_dict_at).
  - apply sim_comprehension, (Forall2_items_mono h its a
      (fun h1 kl kt => sim is_item _ h1 _)); [done|].
    intros h1 kl kt _. apply sim_step_negate.
  - intros h1 d D _. apply sim_new.
Qed.

Lemma neg_refines h other v :
  is_value h other v -> sim is_value (neg other) h (ParamDict.neg v).
Proof.
  intros Hv. unfold is_value in Hv.
  destruct other as [| s | s | o]; simpl in Hv.
  - injection Hv as <-. apply sim_raise.
  - injection Hv as <-. by apply sim_ret.
  - injection Hv as <-. apply sim_raise.
  - unfold neg. destruct (h !! o) as [ob|] eqn:Ho; [|done].
    apply (sim_read _ _ _ _ _ ob); [unfold load; by rewrite Ho|].
    destruct ob as [t|itso|itso].
    + injection Hv as <-.
      apply (sim_bind_Ok is_tensor _ _ _ (Tensor_neg t)).
      { apply sim_negate. unfold is_tensor, view_tensor. by rewrite Ho. }
      intros h1 r _ Hr. apply sim_ret. by apply is_tensor_value.
    + destruct (view_items h itso) as [b|] eqn:Hb; [|done]. injection Hv as <-.
      apply sim_raise.
    + destruct (view_items h itso) as [b|] eqn:Hb; [|done]. injection Hv as <-.
      simpl.
      replace (PParamDict <$> ParamDict.__neg__ b)
        with (ParamDict.__neg__ b ≫= fun d => Ok (PParamDict d))
        by (by destruct (ParamDict.__neg__ b)).
      apply (sim_bind is_instance).
      { apply neg_method_refines. unfold is_dict_at, view. by rewrite Ho. }
      intros h1 r D _ Hr. apply sim_ret. by apply is_instance_value.
Qed.

Lemma rsub_refines h self other (a : dict) v :
  is_dict_at h self a -> is_value h other v ->
  sim is_instance (__rsub__ self other) h (ParamDict.__rsub__ a v).
Proof.
  intros Ha Hv. unfold __rsub__, ParamDict.__rsub__.
  apply (sim_bind is_value); [by apply neg_refines|].
  intros h1 n nv Hp Hn. apply prototype_refines; [|done]. by apply (view_mono h).
Qed.

(** Every arithmetic method over the store computes what the method on
    values computes from the views of its operands: it returns an instance
    whose view is the returned dictionary, or raises the same exception. *)
Lemma Store_refines m mv h self other (a : dict) v :
  (m, mv) ∈ methods ->
  is_dict_at h self a -> is_value h other v ->
  sim is_instance (m self other) h (mv a v).
Proof.
  unfold methods. intros Hm Ha Hv.
  repeat (apply elem_of_cons in Hm as [[= -> ->]|Hm];
          [first [by apply prototype_refines | by apply neg_method_refines
                 | by apply rsub_refines]|]).
  by apply elem_of_nil in Hm.
Qed.

End refinement_methods.

(** * The arithmetic methods on values *)

(** Decidable side conditions on concrete dictionaries, by evaluation. *)
Ltac evaluated := apply (bool_decide_unpack _); vm_compute; exact I.

(** Membership in a list that is written out. *)
Ltac listed := repeat first [apply list_elem_of_here | apply list_elem_of_further].

Lemma wf_ex_A : wf ex_A.
Proof. unfold wf. evaluated. Qed.

Lemma neg_value (a : dict) :
  wf a -> ParamDict.__neg__ a = Ok (map_values (fun _ v => Tensor_neg v) a).
Proof.
  intros Hwf. unfold ParamDict.__neg__.
  by apply (comprehension_items _ (fun _ v => Tensor_neg v)).
Qed.

Lemma wf_ex_B : wf ex_B.
Proof. unfold wf. evaluated. Qed.

Lemma wf_ex_G : wf ex_G.
Proof. unfold wf. evaluated. Qed.

Lemma same_keys_sub (a b : dict) : same_keys a b -> keys a ⊆ keys b.
Proof. intros H k. apply H. Qed.

Lemma same_keys_ex : same_keys ex_A ex_B.
Proof. intros k. reflexivity. Qed.

Lemma get_paired op (a o : dict) k x y :
  get a k = Some x -> get o k = Some y ->
  get (map_values (paired op o) a) k
  = Some (op_tensor op (Tensor_cpu x) (Tensor_cpu y)).
Proof.
  intros Hx Hy. rewrite get_map_values, Hx. simpl. unfold paired. by rewrite Hy.
Qed.

Lemma add_number (a : dict) s :
  wf a ->
  ParamDict.__add__ a (PNum s)
  = Ok (map_values (fun _ v => Tensor_cpu (op_number operator.add v s)) a).
Proof. apply prototype_number. Qed.

Lemma add_paramdict (a b : dict) :
  wf a -> keys a ⊆ keys b ->
  ParamDict.__add__ a (PParamDict b) = Ok (map_values (paired operator.add b) a).
Proof. apply prototype_paramdict. Qed.

Lemma sub_number (a : dict) s :
  wf a ->
  ParamDict.__sub__ a (PNum s)
  = Ok (map_values (fun _ v => Tensor_cpu (op_number operator.add v (- s)%Qc)) a).
Proof. intros Hwf. unfold ParamDict.__sub__, ParamDict.__rsub__. simpl. by apply add_number. Qed.

Lemma sub_paramdict (a b : dict) :
  wf a -> wf b -> keys a ⊆ keys b ->
  ParamDict.__sub__ a (PParamDict b)
  = Ok (map_values (paired operator.add (map_values (fun _ v => Tensor_neg v) b)) a).
Proof.
  intros Ha Hb Hsub. unfold ParamDict.__sub__, ParamDict.__rsub__. simpl.
  rewrite (neg_value b Hb). simpl. apply add_paramdict; [done|].
  by rewrite keys_map_values.
Qed.

(** Equality of tensors with closed payloads, by evaluation of the
    underlying fractions. *)
Lemma Tensor_eq (a b : Tensor) :
  device a = device b -> this (data a) = this (data b) -> a = b.
Proof.
  destruct a as [da qa], b as [db qb]; simpl. intros -> Hq.
  f_equal. by apply Qc_is_canon; rewrite Hq.
Qed.

(** C1.  Subtraction is addition of the negated operand:
    [a.__sub__(other)] is [a.__add__(other.__neg__())] for every operand.
    For an instance [b] with the keys of [a] the result has the keys of [a]
    and holds at each key the sum of [a[k]] and [-b[k]] (both moved to the
    host), whose payload is [a[k] + (-b[k])]; for a number [s] it holds
    [a[k] + (-s)].  On [{w1: 2, w2: 4}] and [{w1: 1, w2: 1}] the result is
    [{w1: 1, w2: 3}]. *)
Theorem subtract_is_add_negate :
  (forall (a : dict) (other : PyVal),
      ParamDict.__sub__ a other = ParamDict.neg other ≫= ParamDict.__add__ a) /\
  (forall (a b : dict), wf a -> wf b -> same_keys a b ->
      exists nb r,
        ParamDict.__neg__ b = Ok nb /\
        ParamDict.__sub__ a (PParamDict b) = ParamDict.__add__ a (PParamDict nb) /\
        ParamDict.__sub__ a (PParamDict b) = Ok r /\
        keys r = keys a /\
        forall k x y, get a k = Some x -> get b k = Some y ->
          exists z, get r k = Some z /\
            z = op_tensor operator.add (Tensor_cpu x) (Tensor_cpu (Tensor_neg y)) /\
            data z = (data x + - data y)%Qc) /\
  (forall (a : dict) (s : Qc), wf a ->
      exists r,
        ParamDict.__sub__ a (PNum s) = ParamDict.__add__ a (PNum (- s)%Qc) /\
        ParamDict.__sub__ a (PNum s) = Ok r /\
        keys r = keys a /\
        forall k x, get a k = Some x ->
          exists z, get r k = Some z /\ data z = (data x + - s)%Qc) /\
  ParamDict.__sub__ ex_A (PParamDict ex_B)
  = Ok [("w1", host (Q2Qc 1)); ("w2", host (Q2Qc 3))].
Proof.
  split; [reflexivity|]. split; [|split].
  - intros a b Ha Hb Hk. apply same_keys_sub in Hk.
    exists (map_values (fun _ v => Tensor_neg v) b), 
           (map_values (paired operator.add (map_values (fun _ v => Tensor_neg v) b)) a).
    split; [by apply neg_value|].
    split. { unfold ParamDict.__sub__, ParamDict.__rsub__. simpl. by rewrite neg_value. }
    split; [by apply sub_paramdict|].
    split; [apply keys_map_values|].
    intros k x y Hx Hy. eexists. split.
    + apply get_paired; [done|]. rewrite get_map_values, Hy. reflexivity.
    + done.
  - intros a s Ha. eexists. split; [reflexivity|].
    split; [by apply sub_number|].
    split; [apply keys_map_values|].
    intros k x Hx. eexists. split; [rewrite get_map_values, Hx; reflexivity|done].
  - rewrite (sub_paramdict _ _ wf_ex_A wf_ex_B (same_keys_sub _ _ same_keys_ex)).
    unfold map_values, ex_A. simpl. 
    repeat f_equal; by apply Tensor_eq.
Qed.

(** The general statement at the dictionaries of the example. *)
Lemma subtract_is_add_negate_witness :
  exists nb r,
    ParamDict.__neg__ ex_B = Ok nb /\
    ParamDict.__sub__ ex_A (PParamDict ex_B) = ParamDict.__add__ ex_A (PParamDict nb) /\
    ParamDict.__sub__ ex_A (PParamDict ex_B) = Ok r /\
    keys r = keys ex_A /\
    forall k x y, get ex_A k = Some x -> get ex_B k = Some y ->
      exists z, get r k = Some z /\
        z = op_tensor operator.add (Tensor_cpu x) (Tensor_cpu (Tensor_neg y)) /\
        data z = (data x + - data y)%Qc.
Proof.
  apply (proj1 (proj2 subtract_is_add_negate) ex_A ex_B wf_ex_A wf_ex_B same_keys_ex).
Defined.

Lemma on_host_map_values (f : string -> Tensor -> Tensor) (d : dict) :
  (forall k v, device (f k v) = CPU) -> on_host (map_values f d).
Proof.
  intros Hf. unfold on_host, map_values. apply Forall_fmap, Forall_forall.
  intros [k v] _. apply Hf.
Qed.

Lemma prototype_as_dict (a b : dict) other op :
  as_dict other = Some b -> wf a -> keys a ⊆ keys b ->
  ParamDict._prototype a other op = Ok (map_values (paired op b) a).
Proof.
  destruct other; simpl; try done; intros [= ->]; by apply prototype_dict_body.
Qed.

(** C2, the claim refuted: dividing [{w1: 2, w2: 4}] by the number 2 does not
    fail; it returns [{w1: 1, w2: 2}]. *)
Lemma divide_by_number_counterexample :
  raises (ParamDict.__truediv__ ex_A (PNum (Q2Qc 2))) = false /\
  ParamDict.__truediv__ ex_A (PNum (Q2Qc 2))
  = Ok [("w1", host (Q2Qc 1)); ("w2", host (Q2Qc 2))].
Proof.
  unfold ParamDict.__truediv__. rewrite (prototype_number _ _ _ wf_ex_A).
  split; [reflexivity|].
  unfold map_values, ex_A. simpl. repeat f_equal; by apply Tensor_eq.
Qed.

(** C2, amended.  Division goes through [_prototype] like addition and so
    takes both kinds of operand.  For a number [s] it returns a dictionary
    with the keys of [a] whose values are [a[k] / s], moved to the host; for
    a dictionary with the same keys it returns one whose values are
    [a[k] / other[k]], computed on the host. *)
Theorem divide_numbers_and_dicts :
  (forall (a : dict) (s : Qc), wf a ->
      exists r,
        ParamDict.__truediv__ a (PNum s) = Ok r /\
        keys r = keys a /\ on_host r /\
        forall k x, get a k = Some x ->
          exists z, get r k = Some z /\ data z = (data x / s)%Qc) /\
  (forall (a b : dict) (other : PyVal),
      as_dict other = Some b -> wf a -> same_keys a b ->
      exists r,
        ParamDict.__truediv__ a other = Ok r /\
        keys r = keys a /\ on_host r /\
        forall k x y, get a k = Some x -> get b k = Some y ->
          exists z, get r k = Some z /\ data z = (data x / data y)%Qc).
Proof.
  split.
  - intros a s Ha. eexists. split; [by apply prototype_number|].
    split; [apply keys_map_values|]. split; [by apply on_host_map_values|].
    intros k x Hx. eexists. split; [rewrite get_map_values, Hx; reflexivity|done].
  - intros a b other Hb Ha Hk. apply same_keys_sub in Hk. eexists.
    split; [by apply (prototype_as_dict a b)|].
    split; [apply keys_map_values|]. split; [by apply on_host_map_values|].
    intros k x y Hx Hy. eexists. split; [by apply get_paired|done].
Qed.

Lemma divide_numbers_and_dicts_witness :
  (exists r,
      ParamDict.__truediv__ ex_G (PNum (Q2Qc 2)) = Ok r /\
      keys r = keys ex_G /\ on_host r /\
      forall k x, get ex_G k = Some x ->
        exists z, get r k = Some z /\ data z = (data x / Q2Qc 2)%Qc) /\
  (exists r,
      ParamDict.__truediv__ ex_A (PParamDict ex_B) = Ok r /\
      keys r = keys ex_A /\ on_host r /\
      forall k x y, get ex_A k = Some x -> get ex_B k = Some y ->
        exists z, get r k = Some z /\ data z = (data x / data y)%Qc).
Proof.
  split.
  - apply (proj1 divide_numbers_and_dicts ex_G (Q2Qc 2) wf_ex_G).
  - apply (proj2 divide_numbers_and_dicts ex_A ex_B (PParamDict ex_B)
             eq_refl wf_ex_A same_keys_ex).
Defined.

(** C3.  When the other dictionary lacks a key of [a], addition raises
    [KeyError] at a key of [a] that the other lacks, and so returns no
    dictionary, partial or other. *)
Theorem add_missing_key (a b : dict) (other : PyVal) (k : string) :
  wf a -> as_dict other = Some b -> k ∈ keys a -> k ∉ keys b ->
  exists k', k' ∈ keys a /\ (k' ∉ keys b) /\
    ParamDict.__add__ a other = Raise (KeyError k').
Proof.
  intros Ha Hb Hk Hkb.
  destruct (prototype_dict_missing a b operator.add Ha) as (k' & Hk' & Hk'b & H1 & H2).
  { intros Hsub. by apply Hkb, Hsub. }
  exists k'. split; [done|]. split; [done|].
  destruct other; simpl in Hb; try done; injection Hb as ->; done.
Qed.

Lemma add_missing_key_witness :
  exists k', k' ∈ keys ex_A /\ (k' ∉ keys ex_w2) /\
    ParamDict.__add__ ex_A (PParamDict ex_w2) = Raise (KeyError k').
Proof.
  apply (add_missing_key ex_A ex_w2 (PParamDict ex_w2) "w1" wf_ex_A eq_refl);
    evaluated.
Defined.

Example add_missing_key_w1 :
  ParamDict.__add__ ex_A (PParamDict ex_w2) = Raise (KeyError "w1").
Proof. reflexivity. Qed.

(** C4.  With an operand that is neither a number nor a dictionary, add,
    scale and divide raise [NotImplementedError], which is their result (no
    handler in the class).  With a number, or with a dictionary that has the
    keys of [a], they raise nothing; with any number or dictionary they do
    not raise [NotImplementedError]. *)
Theorem unsupported_operand (a : dict) (other : PyVal) m op :
  (m, op) ∈ arithmetic ->
  (is_number other = false -> is_dict other = false ->
     m a other = Raise NotImplementedError) /\
  (is_number other = true \/ is_dict other = true ->
     m a other <> Raise NotImplementedError) /\
  (wf a ->
     is_number other = true \/ (exists b, as_dict other = Some b /\ same_keys a b) ->
     raises (m a other) = false).
Proof.
  intros Hm.
  assert (Hp : m a other = ParamDict._prototype a other op).
  { unfold arithmetic in Hm. repeat (apply elem_of_cons in Hm as [[= -> ->]|Hm]; [reflexivity|]).
    by apply elem_of_nil in Hm. }
  rewrite Hp. clear Hm Hp. split; [|split].
  - destruct other; simpl; done.
  - intros Hnd Hr. apply prototype_Raise_inv in Hr as [(_ & Hn & Hd)|(k & Hk & _)]; [|done].
    destruct Hnd; congruence.
  - intros Ha [Hn|(b & Hb & Hk)].
    + destruct other; simpl in Hn; try done. by rewrite prototype_number.
    + rewrite (prototype_as_dict a b other op Hb Ha); [done|by apply same_keys_sub].
Qed.

Lemma unsupported_operand_witness :
  ParamDict.__truediv__ ex_A (PTensor (host (Q2Qc 1))) = Raise NotImplementedError /\
  ParamDict.__add__ ex_A (PNum (Q2Qc 42)) <> Raise NotImplementedError /\
  raises (ParamDict.__mul__ ex_A (PParamDict ex_B)) = false.
Proof.
  split; [|split].
  - apply (unsupported_operand ex_A (PTensor (host (Q2Qc 1)))
             ParamDict.__truediv__ operator.truediv); [listed|reflexivity..].
  - apply (unsupported_operand ex_A (PNum (Q2Qc 42))
             ParamDict.__add__ operator.add); [listed|].
    left. reflexivity.
  - apply (unsupported_operand ex_A (PParamDict ex_B)
             ParamDict.__mul__ operator.mul); [listed|apply wf_ex_A|].
    right. exists ex_B. split; [reflexivity|apply same_keys_ex].
Defined.

(** C6.  Adding a number and then its opposite gives a dictionary with the
    keys of [a] and the payloads of [a]: it is [a] with every value on the
    host, and [a] itself when [a] is on the host. *)
Theorem add_number_round_trip (a : dict) (s : Qc) :
  wf a ->
  exists r1 r2,
    ParamDict.__add__ a (PNum s) = Ok r1 /\
    ParamDict.__add__ r1 (PNum (- s)%Qc) = Ok r2 /\
    contents r2 = contents a /\
    r2 = map_values (fun _ v => Tensor_cpu v) a /\
    (on_host a -> r2 = a).
Proof.
  intros Ha. 
  assert (Hr : map_values (fun _ v => Tensor_cpu (op_number operator.add v (- s)%Qc))
                 (map_values (fun _ v => Tensor_cpu (op_number operator.add v s)) a)
               = map_values (fun _ v => Tensor_cpu v) a).
  { rewrite map_values_compose. apply map_values_ext. intros k [dv q] _.
    unfold Tensor_cpu, op_number, operator.add. simpl. f_equal. ring. }
  eexists _, _. split; [by apply add_number|].
  split; [apply add_number; by apply wf_map_values|].
  rewrite Hr. split; [by apply contents_map_values|]. split; [done|].
  apply to_host_on_host.
Qed.

Lemma add_number_round_trip_witness :
  exists r1 r2,
    ParamDict.__add__ ex_G (PNum (Q2Qc 3)) = Ok r1 /\
    ParamDict.__add__ r1 (PNum (- Q2Qc 3)%Qc) = Ok r2 /\
    contents r2 = contents ex_G /\
    r2 = map_values (fun _ v => Tensor_cpu v) ex_G /\
    (on_host ex_G -> r2 = ex_G).
Proof. apply (add_number_round_trip ex_G (Q2Qc 3) wf_ex_G). Defined.

(** C7.  For two dictionaries with the same keys, adding [b] and then
    subtracting [b] gives a dictionary with the keys of [a] and the payloads
    of [a]: it is [a] with every value on the host, and [a] itself when [a]
    is on the host. *)
Theorem add_then_subtract (a b : dict) :
  wf a -> wf b -> same_keys a b ->
  exists r1 r2,
    ParamDict.__add__ a (PParamDict b) = Ok r1 /\
    ParamDict.__sub__ r1 (PParamDict b) = Ok r2 /\
    contents r2 = contents a /\
    r2 = map_values (fun _ v => Tensor_cpu v) a /\
    (on_host a -> r2 = a).
Proof.
  intros Ha Hb Hk. apply same_keys_sub in Hk.
  set (nb := map_values (fun _ v => Tensor_neg v) b).
  assert (Hr : map_values (paired operator.add nb) (map_values (paired operator.add b) a)
               = map_values (fun _ v => Tensor_cpu v) a).
  { rewrite map_values_compose. apply map_values_ext. intros k x Hin.
    assert (Hkb : k ∈ keys b) by (apply Hk; by apply (list_elem_of_fmap_2 fst) in Hin).
    apply get_is_Some in Hkb as [y Hy].
    unfold paired, nb. rewrite get_map_values, Hy. simpl.
    unfold op_tensor, Tensor_cpu, Tensor_neg, operator.add. simpl. f_equal. ring. }
  eexists _, _. split; [by apply add_paramdict|].
  split. { apply sub_paramdict; [by apply wf_map_values|done|by rewrite keys_map_values]. }
  fold nb. rewrite Hr. split; [by apply contents_map_values|]. split; [done|].
  apply to_host_on_host.
Qed.

Lemma add_then_subtract_witness :
  exists r1 r2,
    ParamDict.__add__ ex_A (PParamDict ex_B) = Ok r1 /\
    ParamDict.__sub__ r1 (PParamDict ex_B) = Ok r2 /\
    contents r2 = contents ex_A /\
    r2 = map_values (fun _ v => Tensor_cpu v) ex_A /\
    (on_host ex_A -> r2 = ex_A).
Proof. apply (add_then_subtract ex_A ex_B wf_ex_A wf_ex_B same_keys_ex). Defined.

Lemma arithmetic_prototype m op (a : dict) (other : PyVal) :
  (m, op) ∈ arithmetic -> m a other = ParamDict._prototype a other op.
Proof.
  unfold arithmetic. intros Hm.
  repeat (apply elem_of_cons in Hm as [[= -> ->]|Hm]; [reflexivity|]).
  by apply elem_of_nil in Hm.
Qed.

Lemma prototype_on_host (a : dict) other op r :
  wf a -> ParamDict._prototype a other op = Ok r -> on_host r.
Proof.
  intros Ha Hr.
  destruct (is_number other) eqn:Hn.
  { destruct other; simpl in Hn; try done.
    rewrite prototype_number in Hr by done. injection Hr as <-.
    by apply on_host_map_values. }
  destruct (as_dict other) as [b|] eqn:Hb; [|destruct other; done].
  destruct (decide (keys a ⊆ keys b)) as [Hsub|Hsub].
  - rewrite (prototype_as_dict a b other op Hb Ha Hsub) in Hr. injection Hr as <-.
    by apply on_host_map_values.
  - destruct (prototype_dict_missing a b op Ha Hsub) as (k & _ & _ & H1 & H2).
    destruct other; simpl in Hb; try done; injection Hb as ->; congruence.
Qed.

(** C8.  Negation returns, at every key, the negated tensor on the device the
    tensor was on.  Add, scale and divide return values on the host: with a
    number, each value is the result of the operator moved to the host; with
    a dictionary, each value is the operator applied to the two operands'
    values after both were moved to the host. *)
Theorem negate_in_place_others_on_host (a : dict) :
  wf a ->
  (exists r, ParamDict.__neg__ a = Ok r /\ keys r = keys a /\
     forall k x, get a k = Some x ->
       exists z, get r k = Some z /\ z = Tensor_neg x /\
         data z = (- data x)%Qc /\ device z = device x) /\
  (forall m op, (m, op) ∈ arithmetic ->
     (forall s, m a (PNum s)
                = Ok (map_values (fun _ x => Tensor_cpu (op_number op x s)) a)) /\
     (forall other b, as_dict other = Some b -> keys a ⊆ keys b ->
        exists r, m a other = Ok r /\ keys r = keys a /\
          forall k x y, get a k = Some x -> get b k = Some y ->
            get r k = Some (op_tensor op (Tensor_cpu x) (Tensor_cpu y))) /\
     (forall other r, m a other = Ok r -> on_host r)).
Proof.
  intros Ha. split.
  - eexists. split; [by apply neg_value|]. split; [apply keys_map_values|].
    intros k x Hx. eexists. split; [rewrite get_map_values, Hx; reflexivity|done].
  - intros m op Hm. split; [|split].
    + intros s. rewrite (arithmetic_prototype m op a _ Hm). by apply prototype_number.
    + intros other b Hb Hsub. eexists.
      split. { rewrite (arithmetic_prototype m op a _ Hm). by apply (prototype_as_dict a b). }
      split; [apply keys_map_values|]. intros k x y Hx Hy. by apply get_paired.
    + intros other r. rewrite (arithmetic_prototype m op a _ Hm).
      by apply prototype_on_host.
Qed.

Lemma negate_in_place_others_on_host_witness :
  (exists r, ParamDict.__neg__ ex_G = Ok r /\ keys r = keys ex_G /\
     forall k x, get ex_G k = Some x ->
       exists z, get r k = Some z /\ z = Tensor_neg x /\
         data z = (- data x)%Qc /\ device z = device x) /\
  (forall m op, (m, op) ∈ arithmetic ->
     (forall s, m ex_G (PNum s)
                = Ok (map_values (fun _ x => Tensor_cpu (op_number op x s)) ex_G)) /\
     (forall other b, as_dict other = Some b -> keys ex_G ⊆ keys b ->
        exists r, m ex_G other = Ok r /\ keys r = keys ex_G /\
          forall k x y, get ex_G k = Some x -> get b k = Some y ->
            get r k = Some (op_tensor op (Tensor_cpu x) (Tensor_cpu y))) /\
     (forall other r, m ex_G other = Ok r -> on_host r)).
Proof. apply (negate_in_place_others_on_host ex_G wf_ex_G). Defined.

(** On a dictionary with a value on the accelerator: negation leaves it
    there, adding zero brings it to the host. *)
Example negate_keeps_cuda :
  device <$> (ParamDict.__neg__ ex_G ≫= fun r => getitem r "w1") = Ok CUDA /\
  device <$> (ParamDict.__add__ ex_G (PNum 0%Qc) ≫= fun r => getitem r "w1") = Ok CPU.
Proof. split; reflexivity. Qed.

(** ** The constructor *)

Lemma init_keywords (args : list PyVal) (kwargs : dict) :
  kwargs <> [] ->
  ParamDict.__init__ args kwargs = Ok [] \/
  ParamDict.__init__ args kwargs = Raise ValueError \/
  ParamDict.__init__ args kwargs = Raise TypeError.
Proof.
  intros Hne. destruct kwargs as [|[k v] kwargs]; [done|].
  unfold ParamDict.__init__. rewrite keys_cons, fmap_cons.
  destruct args as [|a [|b args]]; simpl.
  - destruct kwargs as [|[k' v'] kwargs]; simpl; [|by right; right].
    destruct k; simpl; [by left|by right; left].
  - by right; right.
  - by right; right.
Qed.

(** C9.  The constructor passes the keys of the keyword dictionary to the
    parent as further positional arguments and no keyword at all.  So with
    any keyword the construction raises or returns the empty dictionary, and
    a dictionary it returns never holds a given key; a keyword [w1] makes it
    raise, the keyword with the empty name makes it return the empty
    dictionary.  From one positional dictionary and no keyword it returns a
    copy of that dictionary. *)
Theorem init_keywords_not_stored :
  (forall args kwargs,
      ParamDict.__init__ args kwargs
      = OrderedDict_init (args ++ (PStr <$> keys kwargs)) []) /\
  (forall args (kwargs : dict), kwargs <> [] ->
      ParamDict.__init__ args kwargs = Ok [] \/
      raises (ParamDict.__init__ args kwargs) = true) /\
  (forall args (kwargs : dict) k v d,
      (k, v) ∈ kwargs -> ParamDict.__init__ args kwargs = Ok d -> get d k = None) /\
  ParamDict.__init__ [] [("w1", host (Q2Qc 1))] = Raise ValueError /\
  ParamDict.__init__ [] [(EmptyString, host (Q2Qc 1))] = Ok [] /\
  ParamDict.__init__ [PDict ex_A] [("w3", host (Q2Qc 1))] = Raise TypeError /\
  (forall m : dict, wf m ->
      ParamDict.__init__ [PDict m] [] = Ok m /\
      ParamDict.__init__ [PParamDict m] [] = Ok m).
Proof.
  split; [reflexivity|]. split; [|split].
  - intros args kwargs Hne.
    destruct (init_keywords args kwargs Hne) as [->|[->| ->]]; [by left|by right..].
  - intros args kwargs k v d Hin Hd.
    destruct (init_keywords args kwargs) as [H|[H|H]].
    + intros ->. by apply elem_of_nil in Hin.
    + rewrite H in Hd. by injection Hd as <-.
    + congruence.
    + congruence.
  - do 3 (split; [reflexivity|]).
    intros m Hm. unfold ParamDict.__init__. simpl. by rewrite from_items_wf.
Qed.

Lemma init_keywords_not_stored_witness :
  (ParamDict.__init__ [] ex_w2 = Ok [] \/ raises (ParamDict.__init__ [] ex_w2) = true) /\
  (forall d, ParamDict.__init__ [] ex_w2 = Ok d -> get d "w2" = None) /\
  ParamDict.__init__ [PDict ex_A] [] = Ok ex_A.
Proof.
  split; [|split].
  - apply (proj1 (proj2 init_keywords_not_stored) [] ex_w2). discriminate.
  - intros d. apply (proj1 (proj2 (proj2 init_keywords_not_stored))
                         [] ex_w2 "w2" (host (Q2Qc 1)) d). listed.
  - apply (proj2 (proj2 (proj2 (proj2 (proj2 (proj2 init_keywords_not_stored)))))
             ex_A wf_ex_A).
Defined.

(** ** Reflected subtraction *)

(** C10.  [__rsub__] and [__sub__] are one function.  With an instance [a] on
    the right of a subtraction and a left operand [x] that is no dictionary,
    the result is [a.__add__(x.__neg__())]; for a number [s] both [s - a] and
    [a - s] are the dictionary with the keys of [a] and the payloads
    [a[k] - s]. *)
Theorem reflected_subtraction :
  (forall (a : dict) (x : PyVal), ParamDict.__rsub__ a x = ParamDict.__sub__ a x) /\
  (forall (a : dict) (x : PyVal), is_dict x = false ->
      minus x a = ParamDict.neg x ≫= ParamDict.__add__ a) /\
  (forall (a : dict) (s : Qc), wf a ->
      exists r,
        minus (PNum s) a = Ok r /\
        ParamDict.__sub__ a (PNum s) = Ok r /\
        keys r = keys a /\
        forall k y, get a k = Some y ->
          exists z, get r k = Some z /\ data z = (data y - s)%Qc).
Proof.
  split; [reflexivity|]. split.
  - intros a x Hx. destruct x; simpl in *; done.
  - intros a s Ha. eexists. split; [by apply sub_number|].
    split; [by apply sub_number|]. split; [apply keys_map_values|].
    intros k y Hy. eexists. split; [rewrite get_map_values, Hy; reflexivity|done].
Qed.

Lemma reflected_subtraction_witness :
  minus (PNum (Q2Qc 1)) ex_A = ParamDict.neg (PNum (Q2Qc 1)) ≫= ParamDict.__add__ ex_A /\
  exists r,
    minus (PNum (Q2Qc 1)) ex_A = Ok r /\
    ParamDict.__sub__ ex_A (PNum (Q2Qc 1)) = Ok r /\
    keys r = keys ex_A /\
    forall k y, get ex_A k = Some y ->
      exists z, get r k = Some z /\ data z = (data y - Q2Qc 1)%Qc.
Proof.
  split.
  - apply (proj1 (proj2 reflected_subtraction) ex_A (PNum (Q2Qc 1))). reflexivity.
  - apply (proj2 (proj2 reflected_subtraction) ex_A (Q2Qc 1) wf_ex_A).
Defined.

(** [1 - {w1: 2, w2: 4}] is [{w1: 1, w2: 3}], not [{w1: -1, w2: -3}]. *)
Example one_minus_ex_A :
  minus (PNum (Q2Qc 1)) ex_A = Ok [("w1", host (Q2Qc 1)); ("w2", host (Q2Qc 3))].
Proof.
  unfold minus. change (ParamDict.__rsub__ ex_A ?x) with (ParamDict.__sub__ ex_A x).
  rewrite (sub_number _ _ wf_ex_A). unfold map_values, ex_A. simpl.
  repeat f_equal; by apply Tensor_eq.
Qed.

(** * The operands in the store *)

(** C5.  Whatever the operands, and whether the call returns or raises, each
    arithmetic method (add, scale, negate, subtract, divide) leaves every
    object of the store as it was, so the keys and values of both operands
    read after the call as they did before.  A reference it returns is to an
    instance of the class that the store did not hold before.  On operands
    that read as a dictionary [a] and a value [v], it returns exactly when
    the method on values returns on [a] and [v], the new instance then reads
    as the returned dictionary, and otherwise both raise the same exception. *)
Theorem operands_unmodified (m : Store.loc -> Store.Ref -> Store.M Store.loc)
    (mv : dict -> PyVal -> Result dict)
    (h : Store.Heap) (self : Store.loc) (other : Store.Ref) :
  (m, mv) ∈ Store.methods ->
  (forall l o, h !! l = Some o -> (m self other h).1 !! l = Some o) /\
  (forall d, Store.view h self = Some d -> Store.view (m self other h).1 self = Some d) /\
  (forall v, Store.view_ref h other = Some v ->
             Store.view_ref (m self other h).1 other = Some v) /\
  (forall r, (m self other h).2 = Ok r ->
     h !! r = None /\
     exists its, (m self other h).1 !! r = Some (Store.OParamDict its)) /\
  (forall a v, Store.view h self = Some a -> Store.view_ref h other = Some v ->
     match (m self other h).2, mv a v with
     | Ok r, Ok d => Store.view (m self other h).1 r = Some d
     | Raise e, Raise e' => e = e'
     | _, _ => False
     end).
Proof.
  intros Hm. pose proof (frame_methods m mv self other Hm h) as Hp.
  split; [|split; [|split; [|split]]].
  - intros l o Hl. by apply (prefix_lookup_Some h).
  - intros d. by apply view_mono.
  - intros v. by apply view_ref_mono.
  - intros r Hr. apply (fresh_methods m mv self other Hm h).
    destruct (m self other h) as [h' res]. simpl in Hr. by rewrite Hr.
  - intros a v Ha Hv.
    destruct (Store_refines m mv h self other a v Hm Ha Hv) as [_ Hs].
    destruct ((m self other h).2) as [r|e], (mv a v) as [d|e']; try done.
    by apply is_instance_dict.
Qed.

(** [ex_G - ex_B] in the store of the examples. *)
Lemma operands_unmodified_witness :
  (forall l o, Store.ex_heap !! l = Some o ->
     (Store.__sub__ 2 (Store.RObj 5) Store.ex_heap).1 !! l = Some o) /\
  (forall d, Store.view Store.ex_heap 2 = Some d ->
     Store.view (Store.__sub__ 2 (Store.RObj 5) Store.ex_heap).1 2 = Some d) /\
  (forall v, Store.view_ref Store.ex_heap (Store.RObj 5) = Some v ->
     Store.view_ref (Store.__sub__ 2 (Store.RObj 5) Store.ex_heap).1 (Store.RObj 5) = Some v) /\
  (forall r, (Store.__sub__ 2 (Store.RObj 5) Store.ex_heap).2 = Ok r ->
     Store.ex_heap !! r = None /\
     exists its, (Store.__sub__ 2 (Store.RObj 5) Store.ex_heap).1 !! r
                 = Some (Store.OParamDict its)) /\
  (forall a v, Store.view Store.ex_heap 2 = Some a ->
     Store.view_ref Store.ex_heap (Store.RObj 5) = Some v ->
     match (Store.__sub__ 2 (Store.RObj 5) Store.ex_heap).2, ParamDict.__sub__ a v with
     | Ok r, Ok d => Store.view (Store.__sub__ 2 (Store.RObj 5) Store.ex_heap).1 r = Some d
     | Raise e, Raise e' => e = e'
     | _, _ => False
     end).
Proof.
  apply (operands_unmodified Store.__sub__ ParamDict.__sub__
           Store.ex_heap 2 (Store.RObj 5)).
  unfold Store.methods. listed.
Defined.

(** The same call, evaluated: the store grows from 6 to 15 objects, the
    result is the new object 14 and reads [{w1: 1, w2: 3}], and the operands
    at 2 and 5 read as before. *)
Example sub_in_store :
  let h' := (Store.__sub__ 2 (Store.RObj 5) Store.ex_heap).1 in
  (Store.__sub__ 2 (Store.RObj 5) Store.ex_heap).2 = Ok 14 /\
  length h' = 15 /\
  Store.view h' 14 = Some [("w1", host (Q2Qc 1)); ("w2", host (Q2Qc 3))] /\
  Store.view Store.ex_heap 2 = Some ex_G /\ Store.view h' 2 = Some ex_G /\
  Store.view Store.ex_heap 5 = Some ex_B /\ Store.view h' 5 = Some ex_B.
Proof. vm_compute. repeat split; reflexivity. Qed.

(** * More of the arithmetic of the class *)

Lemma prototype_keys (a : dict) other op r :
  wf a -> ParamDict._prototype a other op = Ok r -> keys r = keys a.
Proof.
  intros Ha Hr.
  destruct (is_number other) eqn:Hn.
  { destruct other; simpl in Hn; try done.
    rewrite prototype_number in Hr by done. injection Hr as <-.
    apply keys_map_values. }
  destruct (as_dict other) as [b|] eqn:Hb; [|destruct other; done].
  destruct (decide (keys a ⊆ keys b)) as [Hsub|Hsub].
  - rewrite (prototype_as_dict a b other op Hb Ha Hsub) in Hr. injection Hr as <-.
    apply keys_map_values.
  - destruct (prototype_dict_missing a b op Ha Hsub) as (k & _ & _ & H1 & H2).
    destruct other; simpl in Hb; try done; injection Hb as ->; congruence.
Qed.

Lemma mul_number (a : dict) s :
  wf a ->
  ParamDict.__mul__ a (PNum s)
  = Ok (map_values (fun _ v => Tensor_cpu (op_number operator.mul v s)) a).
Proof. apply prototype_number. Qed.

Lemma truediv_number (a : dict) s :
  wf a ->
  ParamDict.__truediv__ a (PNum s)
  = Ok (map_values (fun _ v => Tensor_cpu (op_number operator.truediv v s)) a).
Proof. apply prototype_number. Qed.

Lemma bind_Ok {A B} (x : A) (f : A -> Result B) : Ok x ≫= f = f x.
Proof. reflexivity. Qed.

Lemma same_keys_sym (a b : dict) : same_keys a b -> same_keys b a.
Proof. intros H k. symmetry. apply H. Qed.

Lemma elem_of_keys (a : dict) k x : (k, x) ∈ a -> k ∈ keys a.
Proof. intros Hin. by apply (list_elem_of_fmap_2 fst) in Hin. Qed.

(** X1.  Negating twice gives the dictionary back, the same keys in the same
    order with the same tensors on the same devices. *)
Theorem negate_twice (a : dict) :
  wf a ->
  exists r, ParamDict.__neg__ a = Ok r /\ ParamDict.__neg__ r = Ok a.
Proof.
  intros Ha. eexists. split; [by apply neg_value|].
  rewrite neg_value by by apply wf_map_values.
  rewrite map_values_compose. f_equal. apply map_values_id.
  intros k [dv q] _. unfold Tensor_neg. simpl. f_equal. ring.
Qed.

Lemma negate_twice_witness :
  exists r, ParamDict.__neg__ ex_G = Ok r /\ ParamDict.__neg__ r = Ok ex_G.
Proof. apply (negate_twice ex_G wf_ex_G). Defined.

(** X2.  Scaling by the number one, from either side, changes no key and no
    payload: the result is the dictionary with every value on the host, and
    the dictionary itself when it is on the host. *)
Theorem scale_by_one (a : dict) :
  wf a ->
  exists r,
    ParamDict.__mul__ a (PNum 1%Qc) = Ok r /\
    ParamDict.__rmul__ a (PNum 1%Qc) = Ok r /\
    r = map_values (fun _ v => Tensor_cpu v) a /\
    contents r = contents a /\
    (on_host a -> r = a).
Proof.
  intros Ha.
  assert (Hr : map_values (fun _ v => Tensor_cpu (op_number operator.mul v 1%Qc)) a
               = map_values (fun _ v => Tensor_cpu v) a).
  { apply map_values_ext. intros k [dv q] _.
    unfold Tensor_cpu, op_number, operator.mul. simpl. f_equal. ring. }
  eexists. split; [by apply mul_number|]. split; [by apply mul_number|].
  rewrite Hr. split; [done|]. split; [by apply contents_map_values|].
  apply to_host_on_host.
Qed.

Lemma scale_by_one_witness :
  exists r,
    ParamDict.__mul__ ex_G (PNum 1%Qc) = Ok r /\
    ParamDict.__rmul__ ex_G (PNum 1%Qc) = Ok r /\
    r = map_values (fun _ v => Tensor_cpu v) ex_G /\
    contents r = contents ex_G /\
    (on_host ex_G -> r = ex_G).
Proof. apply (scale_by_one ex_G wf_ex_G). Defined.

(** X3.  Addition and elementwise multiplication of two dictionaries with
    the same keys commute key by key: [a op b] and [b op a] both return, and
    hold the same tensor at every key.  (The order of the keys is that of the
    left operand.) *)
Theorem add_mul_commute (a b : dict) :
  wf a -> wf b -> same_keys a b ->
  (exists r1 r2,
     ParamDict.__add__ a (PParamDict b) = Ok r1 /\
     ParamDict.__add__ b (PParamDict a) = Ok r2 /\
     keys r1 = keys a /\ keys r2 = keys b /\
     forall k, get r1 k = get r2 k) /\
  (exists r1 r2,
     ParamDict.__mul__ a (PParamDict b) = Ok r1 /\
     ParamDict.__mul__ b (PParamDict a) = Ok r2 /\
     keys r1 = keys a /\ keys r2 = keys b /\
     forall k, get r1 k = get r2 k).
Proof.
  intros Ha Hb Hk.
  assert (Hgen : forall op : binop, (forall x y, op x y = op y x) ->
            exists r1 r2,
              ParamDict._prototype a (PParamDict b) op = Ok r1 /\
              ParamDict._prototype b (PParamDict a) op = Ok r2 /\
              keys r1 = keys a /\ keys r2 = keys b /\
              forall k, get r1 k = get r2 k).
  { intros op Hop. eexists _, _.
    split; [apply prototype_paramdict; [done|by apply same_keys_sub]|].
    split; [apply prototype_paramdict; [done|by apply same_keys_sub, same_keys_sym]|].
    split; [apply keys_map_values|]. split; [apply keys_map_values|].
    intros k. rewrite !get_map_values. unfold paired.
    destruct (get a k) as [x|] eqn:Hx, (get b k) as [y|] eqn:Hy; simpl; try done.
    - unfold op_tensor. simpl. by rewrite Hop.
    - exfalso. apply get_None in Hy. apply Hy, Hk, get_is_Some. by eexists.
    - exfalso. apply get_None in Hx. apply Hx, Hk, get_is_Some. by eexists. }
  split.
  - apply (Hgen operator.add). intros x y. unfold operator.add. ring.
  - apply (Hgen operator.mul). intros x y. unfold operator.mul. ring.
Qed.

Lemma add_mul_commute_witness :
  (exists r1 r2,
     ParamDict.__add__ ex_G (PParamDict ex_B) = Ok r1 /\
     ParamDict.__add__ ex_B (PParamDict ex_G) = Ok r2 /\
     keys r1 = keys ex_G /\ keys r2 = keys ex_B /\
     forall k, get r1 k = get r2 k) /\
  (exists r1 r2,
     ParamDict.__mul__ ex_G (PParamDict ex_B) = Ok r1 /\
     ParamDict.__mul__ ex_B (PParamDict ex_G) = Ok r2 /\
     keys r1 = keys ex_G /\ keys r2 = keys ex_B /\
     forall k, get r1 k = get r2 k).
Proof.
  apply (add_mul_commute ex_G ex_B wf_ex_G wf_ex_B). intros k. reflexivity.
Defined.

(** X4.  A binary operation asks that the other dictionary have the keys of
    [self], not the same keys.  When [b] has every key of [a] and one more,
    [a op b] returns a dictionary with the keys of [a] (the further key of
    [b] is left out without notice), and [b op a] raises [KeyError]. *)
Theorem other_may_have_more_keys (a b : dict) (k : string) m op :
  (m, op) ∈ arithmetic ->
  wf a -> wf b -> keys a ⊆ keys b -> k ∈ keys b -> k ∉ keys a ->
  (exists r, m a (PParamDict b) = Ok r /\ keys r = keys a /\ get r k = None) /\
  (exists k', k' ∈ keys b /\ (k' ∉ keys a) /\
     m b (PParamDict a) = Raise (KeyError k')).
Proof.
  intros Hm Ha Hb Hsub Hkb Hka. rewrite !(arithmetic_prototype m op _ _ Hm). split.
  - eexists. split; [by apply prototype_paramdict|].
    split; [apply keys_map_values|].
    apply get_None. by rewrite keys_map_values.
  - destruct (prototype_dict_missing b a op Hb) as (k' & Hk' & Hk'a & _ & Hr).
    { intros Hba. by apply Hka, Hba. }
    by exists k'.
Qed.

Lemma other_may_have_more_keys_witness :
  (exists r, ParamDict.__add__ ex_w2 (PParamDict ex_A) = Ok r /\
     keys r = keys ex_w2 /\ get r "w1" = None) /\
  (exists k', k' ∈ keys ex_A /\ (k' ∉ keys ex_w2) /\
     ParamDict.__add__ ex_A (PParamDict ex_w2) = Raise (KeyError k')).
Proof.
  apply (other_may_have_more_keys ex_w2 ex_A "w1" ParamDict.__add__ operator.add);
    [listed|unfold wf; evaluated|apply wf_ex_A|evaluated..].
Defined.

(** X5.  Subtraction calls [__neg__] on its operand before it adds, so it is
    narrower than addition: a plain dictionary with the keys of [a], which
    addition accepts, makes subtraction raise [AttributeError], as do None
    and strings; a tensor is negated and then refused by the addition with
    [NotImplementedError]. *)
Theorem subtract_needs_negation (a d : dict) :
  wf a -> keys a ⊆ keys d ->
  raises (ParamDict.__add__ a (PDict d)) = false /\
  ParamDict.__sub__ a (PDict d) = Raise AttributeError /\
  ParamDict.__sub__ a PNone = Raise AttributeError /\
  (forall s, ParamDict.__sub__ a (PStr s) = Raise AttributeError) /\
  (forall t, ParamDict.__sub__ a (PTensor t) = Raise NotImplementedError).
Proof.
  intros Ha Hsub. split; [|done].
  unfold ParamDict.__add__. by rewrite (prototype_as_dict a d (PDict d)).
Qed.

Lemma subtract_needs_negation_witness :
  raises (ParamDict.__add__ ex_A (PDict ex_B)) = false /\
  ParamDict.__sub__ ex_A (PDict ex_B) = Raise AttributeError /\
  ParamDict.__sub__ ex_A PNone = Raise AttributeError /\
  (forall s, ParamDict.__sub__ ex_A (PStr s) = Raise AttributeError) /\
  (forall t, ParamDict.__sub__ ex_A (PTensor t) = Raise NotImplementedError).
Proof.
  apply (subtract_needs_negation ex_A ex_B wf_ex_A).
  apply same_keys_sub, same_keys_ex.
Defined.

(** X6.  Scaling distributes over addition: for two dictionaries with the
    same keys and a number [s], scaling the sum and adding the scaled
    dictionaries return the same dictionary. *)
Theorem scale_distributes (a b : dict) (s : Qc) :
  wf a -> wf b -> same_keys a b ->
  exists r,
    (ab ← ParamDict.__add__ a (PParamDict b); ParamDict.__mul__ ab (PNum s)) = Ok r /\
    (sa ← ParamDict.__mul__ a (PNum s); sb ← ParamDict.__mul__ b (PNum s);
     ParamDict.__add__ sa (PParamDict sb)) = Ok r.
Proof.
  intros Ha Hb Hk. apply same_keys_sub in Hk.
  set (f := fun (_ : string) v => Tensor_cpu (op_number operator.mul v s)).
  exists (map_values f (map_values (paired operator.add b) a)). split.
  - rewrite add_paramdict, bind_Ok by done. apply mul_number. by apply wf_map_values.
  - rewrite !mul_number, !bind_Ok by done. fold f.
    rewrite add_paramdict; [|by apply wf_map_values|by rewrite !keys_map_values].
    f_equal. rewrite !map_values_compose. apply map_values_ext. intros k x Hin.
    assert (Hkb : k ∈ keys b) by (by apply Hk, (elem_of_keys a k x)).
    apply get_is_Some in Hkb as [y Hy].
    unfold paired. rewrite get_map_values, Hy. simpl.
    unfold f, op_tensor, op_number, Tensor_cpu, operator.add, operator.mul. simpl.
    f_equal. ring.
Qed.

Lemma scale_distributes_witness :
  exists r,
    (ab ← ParamDict.__add__ ex_G (PParamDict ex_B);
     ParamDict.__mul__ ab (PNum (Q2Qc 3))) = Ok r /\
    (sa ← ParamDict.__mul__ ex_G (PNum (Q2Qc 3));
     sb ← ParamDict.__mul__ ex_B (PNum (Q2Qc 3));
     ParamDict.__add__ sa (PParamDict sb)) = Ok r.
Proof.
  apply (scale_distributes ex_G ex_B (Q2Qc 3) wf_ex_G wf_ex_B). intros k. reflexivity.
Defined.

(** X7.  Dividing by a number other than zero undoes scaling by it: the
    result has the keys and payloads of [a], with every value on the host. *)
Theorem divide_undoes_scale (a : dict) (s : Qc) :
  wf a -> s <> 0%Qc ->
  exists r1 r2,
    ParamDict.__mul__ a (PNum s) = Ok r1 /\
    ParamDict.__truediv__ r1 (PNum s) = Ok r2 /\
    r2 = map_values (fun _ v => Tensor_cpu v) a /\
    contents r2 = contents a.
Proof.
  intros Ha Hs. eexists _, _. split; [by apply mul_number|].
  split; [apply truediv_number; by apply wf_map_values|].
  assert (Hr : map_values (fun _ v => Tensor_cpu (op_number operator.truediv v s))
                 (map_values (fun _ v => Tensor_cpu (op_number operator.mul v s)) a)
               = map_values (fun _ v => Tensor_cpu v) a).
  { rewrite map_values_compose. apply map_values_ext. intros k [dv q] _.
    unfold Tensor_cpu, op_number, operator.mul, operator.truediv. simpl. f_equal.
    by field. }
  rewrite Hr. split; [done|]. by apply contents_map_values.
Qed.

Lemma divide_undoes_scale_witness :
  exists r1 r2,
    ParamDict.__mul__ ex_G (PNum (Q2Qc 3)) = Ok r1 /\
    ParamDict.__truediv__ r1 (PNum (Q2Qc 3)) = Ok r2 /\
    r2 = map_values (fun _ v => Tensor_cpu v) ex_G /\
    contents r2 = contents ex_G.
Proof. apply (divide_undoes_scale ex_G (Q2Qc 3) wf_ex_G). discriminate. Defined.

(** X8.  Whatever the operand, a dictionary that an arithmetic method
    returns has the keys of [self], in the order of [self], each once. *)
Theorem result_keeps_keys (a : dict) (v : PyVal) (r : dict) m mv :
  (m, mv) ∈ Store.methods -> wf a -> mv a v = Ok r ->
  keys r = keys a /\ wf r.
Proof.
  intros Hm Ha Hr.
  assert (Hsub : forall x, ParamDict.__rsub__ a x = Ok r -> keys r = keys a).
  { unfold ParamDict.__rsub__. intros x. destruct (ParamDict.neg x) as [n|e]; [|done].
    simpl. by apply prototype_keys. }
  assert (keys r = keys a) as Hk; [|split; [done|unfold wf; by rewrite Hk]].
  unfold Store.methods in Hm.
  repeat (apply elem_of_cons in Hm as [[= -> ->]|Hm];
          [first [by apply (prototype_keys a v _ r Ha Hr) | by apply (Hsub v)
                 | rewrite neg_value in Hr by done; injection Hr as <-;
                   by apply keys_map_values]|]).
  by apply elem_of_nil in Hm.
Qed.

Lemma result_keeps_keys_witness :
  keys (map_values (paired operator.add (map_values (fun _ v => Tensor_neg v) ex_B)) ex_G)
  = keys ex_G /\
  wf (map_values (paired operator.add (map_values (fun _ v => Tensor_neg v) ex_B)) ex_G).
Proof.
  apply (result_keeps_keys ex_G (PParamDict ex_B) _ Store.__sub__ ParamDict.__sub__);
    [unfold Store.methods; listed|apply wf_ex_G|].
  apply sub_paramdict; [apply wf_ex_G|apply wf_ex_B|]. intros k Hk. exact Hk.
Defined.

(** * The tensors of a result *)

Section allocated.
Import Store.

Lemma run_Ok_inv {X X'} (m : M X) (f : X -> M X') h h' y :
  (m ≫= f) h = (h', Ok y) ->
  exists h1 x, m h = (h1, Ok x) /\ f x h1 = (h', Ok y).
Proof.
  rewrite run_bind. destruct (m h) as [h1 [x|e]]; [|done]. intros Hf. by exists h1, x.
Qed.

Lemma frame_length {X} (m : M X) h h' r :
  frame m -> m h = (h', r) -> length h <= length h'.
Proof. intros Hm Hr. specialize (Hm h). rewrite Hr in Hm. by apply prefix_length. Qed.

Lemma allocated_bind {X X'} (refs : X' -> list loc) (m : M X) (f : X -> M X') :
  frame m -> (forall x, allocated refs (f x)) -> allocated refs (m ≫= f).
Proof.
  intros Hm Hf h h' y Hr. apply run_Ok_inv in Hr as (h1 & x & Hx & Hy).
  apply (Forall_impl _ _ _ (Hf x h1 h' y Hy)). intros l Hl.
  pose proof (frame_length m h h1 _ Hm Hx). lia.
Qed.

Lemma allocated_alloc_tensor t : allocated (fun l => [l]) (alloc (OTensor t)).
Proof. intros h h' l [= <- <-]. by constructor. Qed.

Lemma allocated_apply_number op l s : allocated (fun l => [l]) (apply_number op l s).
Proof.
  unfold apply_number. apply allocated_bind; [apply frame_load_tensor|].
  intros t. apply allocated_alloc_tensor.
Qed.

Lemma allocated_apply_tensor op la lb : allocated (fun l => [l]) (apply_tensor op la lb).
Proof.
  unfold apply_tensor. apply allocated_bind; [apply frame_load_tensor|]. intros a.
  apply allocated_bind; [apply frame_load_tensor|]. intros b.
  apply allocated_alloc_tensor.
Qed.

Lemma allocated_negate l : allocated (fun l => [l]) (negate l).
Proof.
  unfold negate. apply allocated_bind; [apply frame_load_tensor|].
  intros t. apply allocated_alloc_tensor.
Qed.

(** [cpu] returns its argument or a new tensor. *)
Lemma cpu_result l h h' c :
  cpu l h = (h', Ok c) -> c = l \/ length h <= c.
Proof.
  unfold cpu. intros Hr. apply run_Ok_inv in Hr as (h1 & t & Ht & Hc).
  pose proof (frame_length _ h h1 _ (frame_load_tensor _ _) Ht).
  destruct (device t).
  - injection Hc as _ ->. by left.
  - injection Hc as _ <-. right. done.
Qed.

Lemma allocated_step_number op s (kv : string * loc) :
  allocated (fun kl : string * loc => [kl.2])
    (r ← apply_number op kv.2 s; c ← cpu r; mret (kv.1, c)).
Proof.
  intros h h' kl Hr.
  apply run_Ok_inv in Hr as (h1 & r & Hr & Hc).
  apply run_Ok_inv in Hc as (h2 & c & Hc & Hret). injection Hret as _ <-. simpl.
  pose proof (allocated_apply_number op kv.2 s h h1 r Hr) as Hlr.
  rewrite Forall_singleton in Hlr.
  pose proof (frame_length _ h h1 _ (frame_apply_number _ _ _) Hr).
  constructor; [|constructor].
  destruct (cpu_result r h1 h2 c Hc) as [->|Hge]; lia.
Qed.

Lemma allocated_step_dict op self o k :
  allocated (fun kl : string * loc => [kl.2])
    (x ← getitem_at self k; x' ← cpu x;
     y ← getitem_at o k; y' ← cpu y;
     r ← apply_tensor op x' y'; mret (k, r)).
Proof.
  apply allocated_bind; [apply frame_getitem_at|]. intros x.
  apply allocated_bind; [apply frame_cpu|]. intros x'.
  apply allocated_bind; [apply frame_getitem_at|]. intros y.
  apply allocated_bind; [apply frame_cpu|]. intros y'.
  intros h h' kl Hr. apply run_Ok_inv in Hr as (h1 & r & Hr & Hret).
  injection Hret as _ <-. simpl.
  apply (allocated_apply_tensor op x' y' h h1 r Hr).
Qed.

Lemma allocated_step_negate (kv : string * loc) :
  allocated (fun kl : string * loc => [kl.2]) (r ← negate kv.2; mret (kv.1, r)).
Proof.
  intros h h' kl Hr. apply run_Ok_inv in Hr as (h1 & r & Hr & Hret).
  injection Hret as _ <-. simpl. apply (allocated_negate kv.2 h h1 r Hr).
Qed.

Lemma allocated_mapM {X} (f : X -> M (string * loc)) (xs : list X) :
  (forall x, frame (f x)) ->
  (forall x, allocated (fun kl : string * loc => [kl.2]) (f x)) ->
  allocated (fun kvs : list (string * loc) => kvs.*2) (mapM f xs).
Proof.
  intros Hfr Hf. induction xs as [|x xs IH]; intros h h' kvs Hr; simpl in Hr.
  - injection Hr as _ <-. constructor.
  - apply run_Ok_inv in Hr as (h1 & kl & Hkl & Hr).
    apply run_Ok_inv in Hr as (h2 & kls & Hkls & Hret). injection Hret as _ <-.
    rewrite fmap_cons. constructor.
    + pose proof (Hf x h h1 kl Hkl) as Hl. by rewrite Forall_singleton in Hl.
    + apply (Forall_impl _ _ _ (IH h1 h2 kls Hkls)). intros l Hl.
      pose proof (frame_length _ h h1 _ (Hfr x) Hkl). lia.
Qed.

Lemma Forall_setitem (P : loc -> Prop) (d : list (string * loc)) k l :
  Forall P d.*2 -> P l -> Forall P (setitem d k l).*2.
Proof.
  intros Hd Hl. induction d as [|[k' l'] d IH]; simpl.
  - by repeat constructor.
  - rewrite fmap_cons in Hd. apply Forall_cons in Hd as [Hl' Hd].
    destruct (String.eqb k k'); rewrite fmap_cons; constructor; auto.
Qed.

Lemma Forall_update (P : loc -> Prop) (acc kvs : list (string * loc)) :
  Forall P acc.*2 -> Forall P kvs.*2 -> Forall P (update acc kvs).*2.
Proof.
  revert acc. induction kvs as [|[k l] kvs IH]; intros acc Hacc Hkvs; [done|].
  rewrite fmap_cons in Hkvs. apply Forall_cons in Hkvs as [Hl Hkvs].
  simpl. apply IH; [|done]. by apply Forall_setitem.
Qed.

Lemma Forall_from_items (P : loc -> Prop) (kvs : list (string * loc)) :
  Forall P kvs.*2 -> Forall P (from_items kvs).*2.
Proof. apply Forall_update. constructor. Qed.

End allocated.

Section new_values.
Import Store.

Lemma new_values_bind {X} (m : M X) (f : X -> M loc) :
  frame m -> (forall x, new_values (f x)) -> new_values (m ≫= f).
Proof.
  intros Hm Hf h h' r its Hr Hl. apply run_Ok_inv in Hr as (h1 & x & Hx & Hy).
  apply (Forall_impl _ _ _ (Hf x h1 h' r its Hy Hl)). intros l Hle.
  pose proof (frame_length m h h1 _ Hm Hx). lia.
Qed.

Lemma new_values_raise e : new_values (raise e).
Proof. intros h h' r its Hr. done. Qed.

Lemma new_values_comprehension {X} (f : X -> M (string * loc)) (xs : list X) :
  (forall x, frame (f x)) ->
  (forall x, allocated (fun kl : string * loc => [kl.2]) (f x)) ->
  new_values (d ← Store.comprehension f xs; new d).
Proof.
  intros Hfr Hf h h' r its Hr Hl.
  apply run_Ok_inv in Hr as (h1 & d & Hd & Hr).
  unfold Store.comprehension in Hd.
  apply run_Ok_inv in Hd as (h0 & kvs & Hkvs & Hd). injection Hd as <- <-.
  pose proof (allocated_mapM f xs Hfr Hf h h0 kvs Hkvs) as Hall.
  unfold new, __init__, Store.OrderedDict_init in Hr. simpl in Hr.
  rewrite !run_bind in Hr. unfold load in Hr.
  rewrite list_lookup_middle in Hr by done. simpl in Hr.
  injection Hr as <- <-.
  rewrite list_lookup_middle in Hl by done. injection Hl as <-.
  by do 2 apply Forall_from_items.
Qed.

Lemma new_values_prototype self other op : new_values (_prototype self other op).
Proof.
  unfold _prototype. destruct other as [| s | s | o]; try apply new_values_raise.
  - apply new_values_bind; [apply frame_items|]. intros its.
    apply new_values_comprehension.
    + intros kv. pose proof frame_apply_number. pose proof frame_cpu. frame_steps.
    + apply allocated_step_number.
  - apply new_values_bind; [apply frame_load|]. intros ob.
    destruct ob; try apply new_values_raise;
      ( apply new_values_bind; [apply frame_items|]; intros its0;
        apply new_values_comprehension;
        [ intros k; pose proof frame_apply_tensor; pose proof frame_cpu;
          pose proof frame_getitem_at; frame_steps
        | intros k; apply allocated_step_dict ] ).
Qed.

Lemma new_values_neg_method self : new_values (__neg__ self).
Proof.
  unfold __neg__. apply new_values_bind; [apply frame_items|]. intros its.
  apply new_values_comprehension.
  - intros kv. pose proof frame_negate. frame_steps.
  - apply allocated_step_negate.
Qed.

Lemma new_values_rsub self other : new_values (__rsub__ self other).
Proof.
  unfold __rsub__. apply new_values_bind; [apply frame_neg|].
  intros n. apply new_values_prototype.
Qed.

Lemma new_values_methods m mv self other :
  (m, mv) ∈ methods -> new_values (m self other).
Proof.
  unfold methods. intros Hm.
  repeat (apply elem_of_cons in Hm as [[= -> ->]|Hm];
          [first [apply new_values_prototype | apply new_values_neg_method
                 | apply new_values_rsub]|]).
  by apply elem_of_nil in Hm.
Qed.

End new_values.

(** X9.  The instance that an arithmetic method returns shares no tensor
    with the store before the call: every value it holds is an object
    allocated by the call, so no operand (and nothing else) holds it too. *)
Theorem result_tensors_are_new (m : Store.loc -> Store.Ref -> Store.M Store.loc)
    (mv : dict -> PyVal -> Result dict)
    (h : Store.Heap) (self : Store.loc) (other : Store.Ref) r its :
  (m, mv) ∈ Store.methods ->
  (m self other h).2 = Ok r ->
  (m self other h).1 !! r = Some (Store.OParamDict its) ->
  Forall (fun kl => h !! kl.2 = None) its.
Proof.
  intros Hm Hr Hl.
  destruct (m self other h) as [h' res] eqn:Hrun. simpl in *. subst res.
  pose proof (new_values_methods m mv self other Hm h h' r its Hrun Hl) as Hall.
  rewrite Forall_fmap in Hall. apply (Forall_impl _ _ _ Hall).
  intros [k l] Hle. simpl in *. by apply lookup_ge_None_2.
Qed.

(** [ex_G + ex_B] in the store of the examples: the sum is the object 10,
    and its two values are the objects 7 and 8, allocated by the call. *)
Lemma result_tensors_are_new_witness :
  Forall (fun kl => Store.ex_heap !! kl.2 = None) [("w1", 7); ("w2", 8)].
Proof.
  apply (result_tensors_are_new Store.__add__ ParamDict.__add__
           Store.ex_heap 2 (Store.RObj 5) 10);
    [unfold Store.methods; listed|reflexivity..].
Defined.

(** * AverageMeter *)

Lemma truediv_nonzero (a b : Qc) : b <> 0%Qc -> truediv a b = Return (a / b)%Qc.
Proof.
  intros Hb. unfold truediv. destruct (Qc_eq_bool b 0) eqn:E; [|done].
  by apply Qc_eq_bool_correct in E.
Qed.

Lemma truediv_zero (a : Qc) : truediv a 0%Qc = Throw ZeroDivisionError.
Proof. reflexivity. Qed.

Lemma update_nonzero (m : AverageMeter.t) (v n : Qc) :
  (AverageMeter.count m + n)%Qc <> 0%Qc ->
  AverageMeter.update m v n
  = (AverageMeter.mk v ((AverageMeter.sum m + v * n) / (AverageMeter.count m + n))%Qc
       (AverageMeter.sum m + v * n)%Qc (AverageMeter.count m + n)%Qc, Return tt).
Proof. intros Hc. unfold AverageMeter.update. simpl. by rewrite truediv_nonzero. Qed.

Lemma Qc_pos_plus (x y : Qc) : (0 <= x)%Qc -> (0 < y)%Qc -> (0 < x + y)%Qc.
Proof.
  intros Hx Hy. apply Qcle_lt_trans with (0 + 0)%Qc; [by rewrite Qcplus_0_l; apply Qcle_refl|].
  apply Qcle_lt_trans with (x + 0)%Qc.
  - apply Qcplus_le_compat; [done|apply Qcle_refl].
  - rewrite !(Qcplus_comm x). apply Qclt_minus_iff.
    replace (y + x + - (0 + x))%Qc with y by ring. done.
Qed.

Lemma samples_nonneg (l : list (Qc * Qc)) :
  Forall (fun vn => (0 < vn.2)%Qc) l -> (0 <= samples l)%Qc.
Proof.
  induction 1 as [|[v n] l Hn _ IH]; simpl; [apply Qcle_refl|].
  apply Qclt_le_weak. rewrite Qcplus_comm. by apply Qc_pos_plus.
Qed.

Lemma samples_pos (l : list (Qc * Qc)) :
  Forall (fun vn => (0 < vn.2)%Qc) l -> l <> [] -> (0 < samples l)%Qc.
Proof.
  intros Hl Hne. destruct Hl as [|[v n] l Hn Hl]; [done|]. simpl.
  rewrite Qcplus_comm. apply Qc_pos_plus; [by apply samples_nonneg|done].
Qed.

(** The fields after a run of updates with positive sample counts, from a
    meter whose count is not negative. *)
Lemma updates_from (m : AverageMeter.t) (l : list (Qc * Qc)) :
  Forall (fun vn => (0 < vn.2)%Qc) l -> (0 <= AverageMeter.count m)%Qc ->
  exists m',
    AverageMeter.updates m l = (m', Return tt) /\
    AverageMeter.count m' = (AverageMeter.count m + samples l)%Qc /\
    AverageMeter.sum m' = (AverageMeter.sum m + weighted_total l)%Qc /\
    (l <> [] ->
       AverageMeter.avg m' = (AverageMeter.sum m' / AverageMeter.count m')%Qc /\
       AverageMeter.val m' = (default (0%Qc, 0%Qc) (last l)).1).
Proof.
  intros Hl. revert m. induction Hl as [|[v n] l Hn Hl IH]; intros m Hm.
  - exists m. simpl. rewrite !Qcplus_0_r. done.
  - simpl in Hn. pose proof (Qc_pos_plus _ _ Hm Hn) as Hpos.
    assert (Hne : (AverageMeter.count m + n)%Qc <> 0%Qc)
      by (apply not_eq_sym, Qclt_not_eq, Hpos).
    simpl. rewrite (update_nonzero m v n Hne).
    destruct (IH (AverageMeter.mk v
                    ((AverageMeter.sum m + v * n) / (AverageMeter.count m + n))%Qc
                    (AverageMeter.sum m + v * n)%Qc (AverageMeter.count m + n)%Qc))
      as (m' & Hrun & Hc & Hs & Hlast); [by apply Qclt_le_weak|].
    simpl in *. exists m'. split; [done|].
    split; [rewrite Hc; ring|]. split; [rewrite Hs; ring|].
    intros _. destruct l as [|vn l].
    + simpl in Hrun. injection Hrun as <-. done.
    + destruct Hlast as [Ha Hv]; [done|]. split; [done|].
      rewrite Hv. by rewrite last_cons_cons.
Qed.

Lemma reset_fields (m : AverageMeter.t) :
  AverageMeter.reset m = AverageMeter.mk 0%Qc 0%Qc 0%Qc 0%Qc.
Proof. reflexivity. Qed.

Lemma meter_weighted_mean_aux (m0 : AverageMeter.t) (l : list (Qc * Qc)) :
  Forall (fun vn => (0 < vn.2)%Qc) l -> l <> [] ->
  exists m,
    AverageMeter.updates (AverageMeter.__init__ m0) l = (m, Return tt) /\
    AverageMeter.avg m = (weighted_total l / samples l)%Qc /\
    AverageMeter.sum m = weighted_total l /\
    AverageMeter.count m = samples l.
Proof.
  intros Hl Hne. unfold AverageMeter.__init__. rewrite reset_fields.
  destruct (updates_from (AverageMeter.mk 0%Qc 0%Qc 0%Qc 0%Qc) l Hl)
    as (m & Hrun & Hc & Hs & Hlast); [apply Qcle_refl|].
  simpl in Hc, Hs. rewrite Qcplus_0_l in Hc, Hs.
  destruct (Hlast Hne) as [Ha Hv].
  exists m. split; [done|]. split; [by rewrite Ha, Hc, Hs|done].
Qed.

(** Comparisons of closed rationals, by evaluation. *)
Ltac compared := vm_compute; first [reflexivity | discriminate].

(** X10.  After a new meter has taken batches [(v, n)] with positive sample
    counts, no call having raised, [count] is the number of samples, [sum]
    the total of [v * n], [avg] their quotient (the mean of the values
    weighted by the sample counts) and [val] the last value. *)
Theorem meter_weighted_mean (m0 : AverageMeter.t) (l : list (Qc * Qc)) :
  Forall (fun vn => (0 < vn.2)%Qc) l -> l <> [] ->
  exists m,
    AverageMeter.updates (AverageMeter.__init__ m0) l = (m, Return tt) /\
    AverageMeter.count m = samples l /\
    AverageMeter.sum m = weighted_total l /\
    AverageMeter.avg m = (weighted_total l / samples l)%Qc /\
    AverageMeter.val m = (default (0%Qc, 0%Qc) (last l)).1.
Proof.
  intros Hl Hne. unfold AverageMeter.__init__. rewrite reset_fields.
  destruct (updates_from (AverageMeter.mk 0%Qc 0%Qc 0%Qc 0%Qc) l Hl)
    as (m & Hrun & Hc & Hs & Hlast); [apply Qcle_refl|].
  simpl in Hc, Hs. rewrite Qcplus_0_l in Hc, Hs.
  destruct (Hlast Hne) as [Ha Hv].
  exists m. repeat split; try done. by rewrite Ha, Hc, Hs.
Qed.

Lemma meter_weighted_mean_witness :
  exists m,
    AverageMeter.updates (AverageMeter.__init__ ex_meter) ex_batches = (m, Return tt) /\
    AverageMeter.count m = samples ex_batches /\
    AverageMeter.sum m = weighted_total ex_batches /\
    AverageMeter.avg m = (weighted_total ex_batches / samples ex_batches)%Qc /\
    AverageMeter.val m = (default (0%Qc, 0%Qc) (last ex_batches)).1.
Proof.
  apply (meter_weighted_mean ex_meter ex_batches); [|discriminate].
  unfold ex_batches. repeat constructor.
Defined.

Lemma weighted_total_bounds (lo hi : Qc) (l : list (Qc * Qc)) :
  Forall (fun vn => (lo <= vn.1)%Qc /\ (vn.1 <= hi)%Qc /\ (0 < vn.2)%Qc) l ->
  (lo * samples l <= weighted_total l)%Qc /\ (weighted_total l <= hi * samples l)%Qc.
Proof.
  induction 1 as [|[v n] l (Hlo & Hhi & Hn) _ [IHlo IHhi]]; simpl in *.
  - rewrite !Qcmult_0_r. split; apply Qcle_refl.
  - rewrite !Qcmult_plus_distr_r. apply Qclt_le_weak in Hn.
    split; (apply Qcplus_le_compat; [by apply Qcmult_le_compat_r|done]).
Qed.

(** X11.  When every batch has a positive sample count and a value between
    [lo] and [hi], the average that the meter holds after the last update
    lies between [lo] and [hi]. *)
Theorem meter_average_bounds (m0 : AverageMeter.t) (lo hi : Qc) (l : list (Qc * Qc)) :
  Forall (fun vn => (lo <= vn.1)%Qc /\ (vn.1 <= hi)%Qc /\ (0 < vn.2)%Qc) l ->
  l <> [] ->
  (lo <= AverageMeter.avg (AverageMeter.updates (AverageMeter.__init__ m0) l).1)%Qc /\
  (AverageMeter.avg (AverageMeter.updates (AverageMeter.__init__ m0) l).1 <= hi)%Qc.
Proof.
  intros Hl Hne.
  assert (Hpos : Forall (fun vn : Qc * Qc => (0 < vn.2)%Qc) l).
  { apply (Forall_impl _ _ _ Hl). tauto. }
  destruct (meter_weighted_mean_aux m0 l Hpos Hne) as (m & Hrun & Ha & _).
  rewrite Hrun. simpl. rewrite Ha.
  destruct (weighted_total_bounds lo hi l Hl) as [Hlo Hhi].
  pose proof (samples_pos l Hpos Hne) as Hs.
  assert (Hne0 : samples l <> 0%Qc) by (apply not_eq_sym, Qclt_not_eq, Hs).
  assert (Hq : (weighted_total l / samples l * samples l)%Qc = weighted_total l)
    by (by field).
  split; apply (Qcmult_lt_0_le_reg_r _ _ (samples l) Hs); by rewrite Hq.
Qed.

Lemma meter_average_bounds_witness :
  (Q2Qc 1 <= AverageMeter.avg
               (AverageMeter.updates (AverageMeter.__init__ ex_meter) ex_batches).1)%Qc /\
  (AverageMeter.avg
     (AverageMeter.updates (AverageMeter.__init__ ex_meter) ex_batches).1 <= Q2Qc 4)%Qc.
Proof.
  apply (meter_average_bounds ex_meter (Q2Qc 1) (Q2Qc 4) ex_batches); [|discriminate].
  unfold ex_batches. repeat constructor; simpl; compared.
Defined.

(** X12.  [update] raises [ZeroDivisionError] exactly when the count it has
    just computed is zero (so for [update(v, 0)] on a new meter).  The meter
    then keeps the assignments made before the division: the new [val],
    [sum] and [count], and the average of before the call. *)
Theorem update_zero_count (m : AverageMeter.t) (v n : Qc) :
  ((AverageMeter.update m v n).2 = Throw ZeroDivisionError <->
   (AverageMeter.count m + n)%Qc = 0%Qc) /\
  ((AverageMeter.count m + n)%Qc = 0%Qc ->
   AverageMeter.update m v n
   = (AverageMeter.mk v (AverageMeter.avg m) (AverageMeter.sum m + v * n)%Qc 0%Qc,
       Throw ZeroDivisionError)) /\
  AverageMeter.update (AverageMeter.__init__ m) v 0%Qc
  = (AverageMeter.mk v 0%Qc 0%Qc 0%Qc, Throw ZeroDivisionError).
Proof.
  assert (Hz : (AverageMeter.count m + n)%Qc = 0%Qc ->
               AverageMeter.update m v n
               = (AverageMeter.mk v (AverageMeter.avg m)
                    (AverageMeter.sum m + v * n)%Qc 0%Qc, Throw ZeroDivisionError)).
  { intros Hc. unfold AverageMeter.update. simpl. rewrite Hc. reflexivity. }
  split; [split|split; [done|]].
  - intros Hr. destruct (Qc_eq_dec (AverageMeter.count m + n)%Qc 0%Qc) as [|Hne]; [done|].
    by rewrite update_nonzero in Hr.
  - intros Hc. by rewrite Hz.
  - unfold AverageMeter.__init__. rewrite reset_fields.
    unfold AverageMeter.update. simpl.
    replace (0 + v * 0)%Qc with 0%Qc by ring.
    replace (0 + 0)%Qc with 0%Qc by ring. reflexivity.
Qed.

Lemma samples_perm (l l' : list (Qc * Qc)) : l ≡ₚ l' -> samples l = samples l'.
Proof.
  induction 1 as [|x l l' _ IH|x y l|l l' l'' _ IH1 _ IH2]; simpl.
  - done.
  - by rewrite IH.
  - ring.
  - by rewrite IH1.
Qed.

Lemma weighted_total_perm (l l' : list (Qc * Qc)) :
  l ≡ₚ l' -> weighted_total l = weighted_total l'.
Proof.
  induction 1 as [|x l l' _ IH|x y l|l l' l'' _ IH1 _ IH2]; simpl.
  - done.
  - by rewrite IH.
  - ring.
  - by rewrite IH1.
Qed.

(** X13.  The order of the batches does not matter to what the meter
    reports: two runs over the same batches with positive sample counts, in
    any two orders, end with the same [sum], [count] and [avg] (only [val],
    the last value, depends on the order). *)
Theorem meter_order_irrelevant (m0 : AverageMeter.t) (l l' : list (Qc * Qc)) :
  l ≡ₚ l' -> Forall (fun vn => (0 < vn.2)%Qc) l -> l <> [] ->
  exists m m',
    AverageMeter.updates (AverageMeter.__init__ m0) l = (m, Return tt) /\
    AverageMeter.updates (AverageMeter.__init__ m0) l' = (m', Return tt) /\
    AverageMeter.sum m = AverageMeter.sum m' /\
    AverageMeter.count m = AverageMeter.count m' /\
    AverageMeter.avg m = AverageMeter.avg m'.
Proof.
  intros Hp Hl Hne.
  assert (Hl' : Forall (fun vn : Qc * Qc => (0 < vn.2)%Qc) l') by by rewrite <- Hp.
  assert (Hne' : l' <> []).
  { intros ->. by apply Permutation_nil_r in Hp. }
  destruct (meter_weighted_mean_aux m0 l Hl Hne) as (m & Hrun & Ha & Hs & Hc).
  destruct (meter_weighted_mean_aux m0 l' Hl' Hne') as (m' & Hrun' & Ha' & Hs' & Hc').
  exists m, m'. split; [done|]. split; [done|].
  rewrite Ha, Ha', Hs, Hs', Hc, Hc'.
  by rewrite (samples_perm l l' Hp), (weighted_total_perm l l' Hp).
Qed.

Lemma meter_order_irrelevant_witness :
  exists m m',
    AverageMeter.updates (AverageMeter.__init__ ex_meter) ex_batches = (m, Return tt) /\
    AverageMeter.updates (AverageMeter.__init__ ex_meter) (reverse ex_batches)
    = (m', Return tt) /\
    AverageMeter.sum m = AverageMeter.sum m' /\
    AverageMeter.count m = AverageMeter.count m' /\
    AverageMeter.avg m = AverageMeter.avg m'.
Proof.
  apply (meter_order_irrelevant ex_meter ex_batches (reverse ex_batches));
    [symmetry; apply reverse_Permutation| |discriminate].
  unfold ex_batches. repeat constructor; simpl; compared.
Defined.

(** * Parameter groups, optimizers and schedulers *)

Section groups.
Import tools.

Lemma sort_parameter_exempt nwd lists np :
  sort_parameter nwd lists np
  = if negb (requires_grad np.2) then lists
    else if exempt nwd np then (lists.1, lists.2 ++ [np.2])
         else (lists.1 ++ [np.2], lists.2).
Proof. destruct lists as [d nd], np as [name p]. reflexivity. Qed.

(** The loop, as two filters of the model. *)
Lemma foldl_sort_parameter nwd (model : Model) decay no_decay :
  foldl (sort_parameter nwd) (decay, no_decay) model
  = (decay ++ (List.filter (fun np => requires_grad np.2 && negb (exempt nwd np)) model).*2,
     no_decay ++ (List.filter (fun np => requires_grad np.2 && exempt nwd np) model).*2).
Proof.
  revert decay no_decay. induction model as [|np model IH]; intros decay no_decay.
  - simpl. by rewrite !app_nil_r.
  - cbn [foldl List.filter]. rewrite sort_parameter_exempt.
    destruct (requires_grad np.2); simpl; [|by rewrite IH].
    destruct (exempt nwd np); simpl; rewrite IH; simpl; by rewrite <- ?app_assoc.
Qed.

Lemma param_groups_filters (model : Model) wd nwd :
  param_groups_weight_decay model wd nwd
  = [ mkGroup (List.filter (fun np => requires_grad np.2 && exempt nwd np) model).*2 0%Qc;
      mkGroup (List.filter (fun np => requires_grad np.2 && negb (exempt nwd np)) model).*2
        wd ].
Proof. unfold param_groups_weight_decay. by rewrite foldl_sort_parameter. Qed.

Lemma filter_split {A} (p q : A -> bool) (l : list A) :
  List.filter (fun x => p x && q x) l ++ List.filter (fun x => p x && negb (q x)) l
  ≡ₚ List.filter p l.
Proof.
  induction l as [|x l IH]; [done|]. simpl.
  destruct (p x), (q x); simpl; try done.
  - by rewrite IH.
  - rewrite <- Permutation_middle. by rewrite IH.
Qed.

Lemma filter_sublist {A} (p : A -> bool) (l : list A) : List.filter p l `sublist_of` l.
Proof.
  induction l as [|x l IH]; [done|]. simpl.
  destruct (p x); by constructor.
Qed.

Lemma filter_all_false {A} (p : A -> bool) (l : list A) :
  (forall x, x ∈ l -> p x = false) -> List.filter p l = [].
Proof.
  induction l as [|x l IH]; intros Hp; [done|]. simpl.
  rewrite (Hp x) by apply list_elem_of_here.
  apply IH. intros y Hy. apply Hp. by apply list_elem_of_further.
Qed.

Lemma filter_all_true {A} (p : A -> bool) (l : list A) :
  (forall x, x ∈ l -> p x = true) -> List.filter p l = l.
Proof.
  induction l as [|x l IH]; intros Hp; [done|]. simpl.
  rewrite (Hp x) by apply list_elem_of_here.
  f_equal. apply IH. intros y Hy. apply Hp. by apply list_elem_of_further.
Qed.

Lemma requires_grad_set (model : Model) b np :
  np ∈ set_required_grad model b -> requires_grad np.2 = b.
Proof.
  unfold set_required_grad. intros Hin.
  apply list_elem_of_fmap in Hin as (np0 & -> & _). reflexivity.
Qed.

End groups.

(** X14.  [param_groups_weight_decay] returns two groups, the first with
    weight decay 0 and the second with the given one.  Together they hold
    the parameters that require a gradient, each once, and no other: the
    first group those with at most one dimension, a name ending in [.bias]
    or a listed name, the second group the rest, both in the order of the
    model.  When the parameters of the model are distinct objects, none is
    in both groups. *)
Theorem param_groups_partition (model : tools.Model) (wd : Qc) (nwd : list string) :
  exists no_decay decay,
    tools.param_groups_weight_decay model wd nwd
    = [tools.mkGroup no_decay 0%Qc; tools.mkGroup decay wd] /\
    no_decay
    = (List.filter (fun np => tools.requires_grad np.2 && tools.exempt nwd np) model).*2 /\
    decay
    = (List.filter (fun np => tools.requires_grad np.2 && negb (tools.exempt nwd np))
         model).*2 /\
    no_decay ++ decay ≡ₚ (List.filter (fun np => tools.requires_grad np.2) model).*2 /\
    (NoDup (tools.obj <$> model.*2) -> forall p, p ∈ no_decay -> p ∉ decay).
Proof.
  eexists _, _. split; [apply param_groups_filters|]. split; [done|]. split; [done|].
  assert (Hperm :
    (List.filter (fun np => tools.requires_grad np.2 && tools.exempt nwd np) model).*2 ++
    (List.filter (fun np => tools.requires_grad np.2 && negb (tools.exempt nwd np))
       model).*2
    ≡ₚ (List.filter (fun np => tools.requires_grad np.2) model).*2).
  { rewrite <- fmap_app. apply fmap_Permutation.
    apply (filter_split (fun np => tools.requires_grad np.2) (tools.exempt nwd)). }
  split; [done|].
  intros Hnd p Hp Hq.
  assert (Hall : NoDup (List.filter (fun np => tools.requires_grad np.2) model).*2).
  { apply NoDup_fmap_1 in Hnd.
    apply (sublist_NoDup _ model.*2); [exact Hnd|apply fmap_sublist, filter_sublist]. }
  rewrite <- Hperm in Hall. apply NoDup_app in Hall as (_ & Hdis & _).
  by apply (Hdis p).
Qed.

(** The groups of the example model: the biases and [pos_embed] in the
    first, the two weight matrices in the second, the frozen head in none. *)
Example param_groups_ex_model :
  tools.param_groups_weight_decay ex_model (tools.weight_decay ex_args)
    (tools.no_weight_decay_list ex_args)
  = [ tools.mkGroup [tools.mkParam 1 true 1; tools.mkParam 3 true 1; tools.mkParam 4 true 3]
        0%Qc;
      tools.mkGroup [tools.mkParam 0 true 4; tools.mkParam 2 true 2]
        (tools.weight_decay ex_args) ].
Proof. reflexivity. Qed.

(** X15.  Freezing a model with [set_required_grad(model, False)] leaves
    both groups empty; after [set_required_grad(model, True)] the two groups
    hold every parameter of the model.  The flag given last is the one that
    counts. *)
Theorem frozen_model_has_no_groups (model : tools.Model) (wd : Qc) (nwd : list string) :
  tools.param_groups_weight_decay (tools.set_required_grad model false) wd nwd
  = [tools.mkGroup [] 0%Qc; tools.mkGroup [] wd] /\
  (exists no_decay decay,
     tools.param_groups_weight_decay (tools.set_required_grad model true) wd nwd
     = [tools.mkGroup no_decay 0%Qc; tools.mkGroup decay wd] /\
     no_decay ++ decay ≡ₚ (tools.set_required_grad model true).*2 /\
     length no_decay + length decay = length model) /\
  (forall b b', tools.set_required_grad (tools.set_required_grad model b) b'
                = tools.set_required_grad model b').
Proof.
  split; [|split].
  - rewrite param_groups_filters.
    rewrite !filter_all_false; [done|..];
      intros np Hin; by rewrite (requires_grad_set model false np Hin).
  - eexists _, _. split; [apply param_groups_filters|].
    pose proof (fmap_Permutation snd _ _
      (filter_split (fun np => tools.requires_grad np.2) (tools.exempt nwd)
         (tools.set_required_grad model true))) as Hperm.
    rewrite fmap_app in Hperm.
    rewrite (filter_all_true (fun np => tools.requires_grad np.2)) in Hperm
      by apply requires_grad_set.
    split; [done|].
    rewrite <- length_app, Hperm. unfold tools.set_required_grad.
    by rewrite !length_fmap.
  - intros b b'. unfold tools.set_required_grad. rewrite <- list_fmap_compose.
    by apply list_fmap_ext.
Qed.


(** [sgd] in small letters is refused, [ADAMW] in capitals is taken. *)
Example optimizer_casing :
  tools.get_optimizer
    (tools.mkArgs "sgd" 1%Qc 0%Qc [] EmptyString 0 1%Qc 1 1) ex_model
  = Raise ValueError /\
  tools.cls <$> tools.get_optimizer
    (tools.mkArgs "ADAMW" 1%Qc 0%Qc [] EmptyString 0 1%Qc 1 1) ex_model
  = Ok tools.AdamW.
Proof. split; reflexivity. Qed.

(** X17.  [get_scheduler] returns a scheduler exactly for the names
    [CosineAnnealingLR], [linear_schedule_with_warmup],
    [cosine_schedule_with_warmup] and [StepLR], and None for every other
    name.  [ReduceLROnPlateau] is among the others: the scheduler that the
    first [if] builds for it is replaced by None in the [else] of the chain
    that follows, so the function never returns one. *)
Theorem scheduler_names (args : tools.Args) (optimizer : tools.Optimizer) (t_total : Z) :
  (is_Some (tools.get_scheduler args optimizer t_total) <->
   tools.scheduler args ∈ ["CosineAnnealingLR"; "linear_schedule_with_warmup";
                           "cosine_schedule_with_warmup"; "StepLR"]) /\
  tools.get_scheduler args optimizer t_total <> Some tools.ReduceLROnPlateau /\
  (tools.scheduler args = "ReduceLROnPlateau" ->
   tools.get_scheduler args optimizer t_total = None).
Proof.
  unfold tools.get_scheduler.
  destruct (String.eqb_spec (tools.scheduler args) "CosineAnnealingLR") as [->|H1].
  { split; [split; [intros _; listed|by eexists]|done]. }
  destruct (String.eqb_spec (tools.scheduler args) "linear_schedule_with_warmup")
    as [->|H2].
  { split; [split; [intros _; listed|by eexists]|done]. }
  destruct (String.eqb_spec (tools.scheduler args) "cosine_schedule_with_warmup")
    as [->|H3].
  { split; [split; [intros _; listed|by eexists]|done]. }
  destruct (String.eqb_spec (tools.scheduler args) "StepLR") as [->|H4].
  { split; [split; [intros _; listed|by eexists]|done]. }
  split; [|done]. split; [by intros [? ?]|].
  intros Hin. repeat (apply elem_of_cons in Hin as [?|Hin]; [done|]).
  by apply elem_of_nil in Hin.
Qed.

Lemma scheduler_names_witness :
  tools.get_scheduler ex_args
    (tools.mkOptimizer tools.AdamW [] 1%Qc None) 1000 = None.
Proof.
  apply (proj2 (proj2 (scheduler_names ex_args
           (tools.mkOptimizer tools.AdamW [] 1%Qc None) 1000))).
  reflexivity.
Defined.

(** * The effective batch size and the weight decay *)

Section batch.
Import tools.

Lemma int_Raise s e : int s = Raise e -> e = ValueError.
Proof.
  assert (H : forall r0, match unsigned r0 with Some z => Ok z | None => Raise ValueError end
                         = Raise e -> e = ValueError).
  { intros r0. destruct (unsigned r0); [done|by intros [= <-]]. }
  unfold int. cbv zeta. destruct (str.strip s) as [|c r]; [apply H|].
  destruct c as [[] [] [] [] [] [] [] []]; cbv beta iota;
    first [ apply H | destruct (unsigned r); [done|by intros [= <-]] ].
Qed.

Lemma has_get w key : has w key = true <-> is_Some (get (environ w) key).
Proof. unfold has. destruct (get (environ w) key); split; try done; by intros [? ?]. Qed.

Lemma has_None w key : has w key = false <-> get (environ w) key = None.
Proof. unfold has. by destruct (get (environ w) key). Qed.

Lemma multi_gpu_check_rank w z :
  rank_is w z ->
  multi_gpu_check w
  = Ok (negb (z =? -1)%Z
        || (if has w "SLURM_NODEID" then (1 <? device_count w)%nat else false)).
Proof.
  unfold rank_is, multi_gpu_check. intros Hr.
  destruct (get (environ w) "RANK") as [s|]; [rewrite Hr|subst z]; simpl;
    by destruct (has w "SLURM_NODEID").
Qed.

End batch.

Lemma rank_is_ex_plain : rank_is ex_plain (-1).
Proof. reflexivity. Qed.

Lemma rank_is_ex_slurm : rank_is ex_slurm (-1).
Proof. reflexivity. Qed.

(** X18.  Outside a SLURM job the world size comes from [RANK]: when [RANK]
    is not set or holds -1, the effective batch size is the batch size,
    whatever [WORLD_SIZE] and the number of devices; when it holds another
    number, the effective batch size is the batch size times the number in
    [WORLD_SIZE], and a [WORLD_SIZE] that is not set is a [KeyError]. *)
Theorem batch_size_by_rank (w : tools.World) (args : tools.Args) (z : Z) :
  tools.has w "SLURM_NODEID" = false -> rank_is w z ->
  tools.multi_gpu_check w = Ok (negb (z =? -1)%Z) /\
  (z = (-1)%Z ->
   tools.calculate_effective_batch_size w args = Ok (tools.batch_size args)) /\
  (z <> (-1)%Z ->
   tools.calculate_effective_batch_size w args
   = (getitem (tools.environ w) "WORLD_SIZE" ≫= int) ≫=
       fun n => Ok (tools.batch_size args * n)%Z) /\
  (z <> (-1)%Z -> get (tools.environ w) "WORLD_SIZE" = None ->
   tools.calculate_effective_batch_size w args = Raise (KeyError "WORLD_SIZE")).
Proof.
  intros Hs Hr. unfold tools.calculate_effective_batch_size.
  rewrite (multi_gpu_check_rank w z Hr), Hs. rewrite orb_false_r.
  split; [done|]. split; [|split].
  - intros ->. simpl. by rewrite Z.mul_1_r.
  - intros Hz. apply Z.eqb_neq in Hz. rewrite Hz. reflexivity.
  - intros Hz Hw. apply Z.eqb_neq in Hz. rewrite Hz. simpl.
    unfold getitem. by rewrite Hw.
Qed.

Lemma batch_size_by_rank_witness :
  tools.multi_gpu_check ex_plain = Ok false /\
  tools.calculate_effective_batch_size ex_plain ex_args = Ok (tools.batch_size ex_args).
Proof.
  destruct (batch_size_by_rank ex_plain ex_args (-1) eq_refl rank_is_ex_plain)
    as (H1 & H2 & _).
  split; [exact H1|by apply H2].
Defined.

(** X19.  In a SLURM job the effective batch size is the batch size times
    the number in [SLURM_NTASKS], whatever [RANK] holds (when it holds a
    number), whatever [WORLD_SIZE] holds and however many devices there
    are; without [SLURM_NTASKS] the call raises [KeyError]. *)
Theorem batch_size_in_slurm (w : tools.World) (args : tools.Args) (z : Z) :
  tools.has w "SLURM_NODEID" = true -> rank_is w z ->
  tools.calculate_effective_batch_size w args
  = (getitem (tools.environ w) "SLURM_NTASKS" ≫= int) ≫=
      (fun n => Ok (tools.batch_size args * n)%Z) /\
  (forall s n, get (tools.environ w) "SLURM_NTASKS" = Some s -> int s = Ok n ->
     tools.calculate_effective_batch_size w args = Ok (tools.batch_size args * n)%Z) /\
  (get (tools.environ w) "SLURM_NTASKS" = None ->
   tools.calculate_effective_batch_size w args = Raise (KeyError "SLURM_NTASKS")).
Proof.
  intros Hs Hr.
  assert (H : tools.calculate_effective_batch_size w args
              = (getitem (tools.environ w) "SLURM_NTASKS" ≫= int) ≫=
                  (fun n => Ok (tools.batch_size args * n)%Z)).
  { unfold tools.calculate_effective_batch_size.
    rewrite (multi_gpu_check_rank w z Hr), Hs. reflexivity. }
  split; [done|]. rewrite H. unfold getitem. split.
  - intros s n -> Hn. simpl. by rewrite Hn.
  - by intros ->.
Qed.

Lemma batch_size_in_slurm_witness :
  tools.calculate_effective_batch_size ex_slurm ex_args
  = Ok (tools.batch_size ex_args * 4)%Z.
Proof.
  apply (proj1 (proj2 (batch_size_in_slurm ex_slurm ex_args (-1) eq_refl
                         rank_is_ex_slurm)) "4" 4%Z); reflexivity.
Defined.

(** X20.  [RANK] is read first and in every case: when it holds no number,
    [multi_gpu_check] and [calculate_effective_batch_size] raise
    [ValueError], also in a SLURM job, where its value decides nothing. *)
Theorem rank_must_be_a_number (w : tools.World) (args : tools.Args) (s : string) :
  get (tools.environ w) "RANK" = Some s -> raises (int s) = true ->
  tools.multi_gpu_check w = Raise ValueError /\
  tools.calculate_effective_batch_size w args = Raise ValueError.
Proof.
  intros Hs Hr. destruct (int s) as [z|e] eqn:Hi; [done|].
  apply int_Raise in Hi as Hv. subst e.
  assert (H : tools.multi_gpu_check w = Raise ValueError).
  { unfold tools.multi_gpu_check. by rewrite Hs, Hi. }
  split; [done|]. unfold tools.calculate_effective_batch_size. by rewrite H.
Qed.

Lemma rank_must_be_a_number_witness :
  tools.multi_gpu_check
    (tools.mkWorld (("RANK", "zero") :: tools.environ ex_slurm) 1) = Raise ValueError /\
  tools.calculate_effective_batch_size
    (tools.mkWorld (("RANK", "zero") :: tools.environ ex_slurm) 1) ex_args
  = Raise ValueError.
Proof.
  apply (rank_must_be_a_number
           (tools.mkWorld (("RANK", "zero") :: tools.environ ex_slurm) 1) ex_args "zero");
    reflexivity.
Defined.

Lemma floordiv_nonzero (a b : Z) : b <> 0%Z -> floordiv a b = Return (a / b)%Z.
Proof. intros Hb. unfold floordiv. apply Z.eqb_neq in Hb. by rewrite Hb. Qed.

(** X21.  [calculate_weight_decay], for an effective batch size [b], takes
    [len // b] iterations an epoch and divides by the iterations of the
    whole run.  It raises [ZeroDivisionError] when [b] is zero and when the
    run has no iteration, so when the training set is smaller than one
    effective batch or the number of epochs is zero; it raises [ValueError]
    when the product is negative; else it returns the weight decay of
    [args] times the root of one over the number of iterations. *)
Theorem weight_decay_of_run (w : tools.World) (args : tools.Args) (len b : Z) :
  tools.calculate_effective_batch_size w args = Ok b ->
  (b = 0%Z -> tools.calculate_weight_decay w args len = Throw ZeroDivisionError) /\
  (b <> 0%Z -> (len / b * tools.epochs args = 0)%Z ->
   tools.calculate_weight_decay w args len = Throw ZeroDivisionError) /\
  ((0 <= len < b)%Z ->
   tools.calculate_weight_decay w args len = Throw ZeroDivisionError) /\
  (b <> 0%Z -> (len / b * tools.epochs args < 0)%Z ->
   tools.calculate_weight_decay w args len = Throw (Builtin ValueError)) /\
  (b <> 0%Z -> (0 < len / b * tools.epochs args)%Z ->
   tools.calculate_weight_decay w args len
   = Return (tools.mkRooted (tools.weight_decay args)
               (1 / Q2Qc (inject_Z (len / b * tools.epochs args)))%Qc)).
Proof.
  intros Hb. unfold tools.calculate_weight_decay. rewrite Hb. simpl.
  assert (Hz : forall p : Z, (len / b * tools.epochs args)%Z = p -> b <> 0%Z ->
    (floordiv len b ≫= fun num_iterations =>
       if (num_iterations * tools.epochs args =? 0)%Z then Throw ZeroDivisionError
       else if (num_iterations * tools.epochs args <? 0)%Z then Throw (Builtin ValueError)
       else Return (tools.mkRooted (tools.weight_decay args)
                      (1 / Q2Qc (inject_Z (num_iterations * tools.epochs args)))%Qc))
    = if (p =? 0)%Z then Throw ZeroDivisionError
      else if (p <? 0)%Z then Throw (Builtin ValueError)
      else Return (tools.mkRooted (tools.weight_decay args) (1 / Q2Qc (inject_Z p))%Qc)).
  { intros p <- Hne. by rewrite floordiv_nonzero. }
  split; [by intros ->|]. split; [|split; [|split]].
  - intros Hne H0. rewrite (Hz 0%Z H0 Hne). reflexivity.
  - intros Hlen. assert (Hne : b <> 0%Z) by lia.
    assert (H0 : (len / b * tools.epochs args)%Z = 0%Z).
    { rewrite Z.div_small by lia. reflexivity. }
    rewrite (Hz 0%Z H0 Hne). reflexivity.
  - intros Hne Hneg. rewrite (Hz _ eq_refl Hne).
    destruct (Z.eqb_spec (len / b * tools.epochs args) 0); [lia|].
    destruct (Z.ltb_spec (len / b * tools.epochs args) 0); [done|lia].
  - intros Hne Hpos. rewrite (Hz _ eq_refl Hne).
    destruct (Z.eqb_spec (len / b * tools.epochs args) 0); [lia|].
    destruct (Z.ltb_spec (len / b * tools.epochs args) 0); [lia|done].
Qed.

(** A training set of 100 items with batches of 32 in a SLURM job of four
    tasks: the effective batch is 128 and the run has no iteration. *)
Lemma weight_decay_of_run_witness :
  tools.calculate_weight_decay ex_slurm ex_args 100 = Throw ZeroDivisionError.
Proof.
  apply (proj1 (proj2 (proj2 (weight_decay_of_run ex_slurm ex_args 100 128 eq_refl)))).
  lia.
Defined.

(** * ParseKwargs *)









Lemma is_digit_Some c : is_digit c = true <-> is_Some (digit c).
Proof. unfold is_digit. destruct (digit c); split; try done; by intros [? ?]. Qed.


(** The int gate: what is left when the minus signs are gone is a number. *)
Lemma all_digits_remove m (s : string) :
  is_digit m = false ->
  str.all_digits (str.remove m s)
  = only (fun c => is_digit c || Ascii.eqb c m) s.
Proof.
  intros Hm. unfold only. induction s as [|c s IH]; [done|]. simpl.
  destruct (Ascii.eqb_spec c m) as [->|Hne]; simpl.
  - by rewrite IH, orb_true_r.
  - rewrite IH, orb_false_r. reflexivity.
Qed.

Lemma isnumeric_all_digits (s : string) :
  str.isnumeric s = str.all_digits s && negb (String.eqb s EmptyString).
Proof. destruct s; simpl; [done|]. by rewrite andb_true_r. Qed.

Lemma remove_empty m (s : string) :
  String.eqb (str.remove m s) EmptyString = only (fun c => Ascii.eqb c m) s.
Proof.
  unfold only. induction s as [|c s IH]; [done|]. simpl.
  destruct (Ascii.eqb_spec c m); simpl; [exact IH|done].
Qed.









Lemma is_digit_not_sign c : is_digit c = true -> c <> "-"%char /\ c <> "+"%char.
Proof. intros Hc. split; intros ->; done. Qed.




(** *** Decimal numbers *)

Lemma only_ext (p q : ascii -> bool) (s : string) :
  (forall c, p c = q c) -> only p s = only q s.
Proof. intros Hpq. unfold only. induction (chars s); simpl; [done|]. by rewrite Hpq, IHl. Qed.

Lemma only_remove (p : ascii -> bool) m (s : string) :
  only p (str.remove m s) = only (fun c => p c || Ascii.eqb c m) s.
Proof.
  unfold only. induction s as [|c s IH]; [done|]. simpl.
  destruct (Ascii.eqb_spec c m) as [->|Hne]; simpl.
  - by rewrite IH, orb_true_r.
  - by rewrite IH, orb_false_r.
Qed.

Lemma some_not_only (p q : ascii -> bool) (s : string) :
  (forall c, p c = true -> q c = false) -> some p s = true -> only q s = false.
Proof.
  intros Hpq. unfold some, only. induction (chars s) as [|c l IH]; [done|]. simpl.
  intros [Hc|Hl]%orb_true_iff.
  - by rewrite (Hpq c Hc).
  - rewrite (IH Hl). apply andb_false_r.
Qed.

Lemma none_only (p q : ascii -> bool) (s : string) :
  some p s = false -> only (fun c => p c || q c) s = only q s.
Proof.
  unfold some, only. induction (chars s) as [|c l IH]; [done|]. simpl.
  intros [Hc Hl]%orb_false_iff. by rewrite Hc, (IH Hl).
Qed.

Lemma chars_app (a b : string) : chars (a +:+ b) = chars a ++ chars b.
Proof. induction a as [|c a IH]; simpl; [done|]. by rewrite IH. Qed.

Lemma only_app p (a b : string) : only p (a +:+ b) = only p a && only p b.
Proof. unfold only. by rewrite chars_app, forallb_app. Qed.

Lemma some_app p (a b : string) : some p (a +:+ b) = some p a || some p b.
Proof. unfold some. by rewrite chars_app, existsb_app. Qed.

Lemma count_app p (a b : string) : count p (a +:+ b) = (count p a + count p b)%nat.
Proof. unfold count. by rewrite chars_app, List.filter_app, length_app. Qed.

Lemma count_cons p c (r : string) :
  count p (String c r) = ((if p c then 1 else 0) + count p r)%nat.
Proof. unfold count. simpl. by destruct (p c). Qed.

Lemma some_cons p c (r : string) : some p (String c r) = p c || some p r.
Proof. done. Qed.

Lemma only_cons p c (r : string) : only p (String c r) = p c && only p r.
Proof. done. Qed.

Lemma only_count p q (s : string) :
  (forall c, p c = true -> q c = false) -> only p s = true -> count q s = 0%nat.
Proof.
  intros Hpq. unfold only, count. induction (chars s) as [|c l IH]; [done|]. simpl.
  intros [Hc Hl]%andb_true_iff. rewrite (Hpq c Hc). by apply IH.
Qed.

Lemma only_some p q (s : string) :
  (forall c, p c = true -> q c = false) -> only p s = true -> some q s = false.
Proof.
  intros Hpq. unfold only, some. induction (chars s) as [|c l IH]; [done|]. simpl.
  intros [Hc Hl]%andb_true_iff. rewrite (Hpq c Hc). by apply IH.
Qed.

Lemma some_In p (s : string) c : In c (chars s) -> p c = true -> some p s = true.
Proof. intros Hin Hc. unfold some. apply existsb_exists. by exists c. Qed.

Lemma is_point_not_digit c : is_point c = true -> is_digit c = false.
Proof. intros ->%Ascii.eqb_eq. reflexivity. Qed.

Lemma is_other_not_digit c : is_other c = true -> is_digit c = false.
Proof. unfold is_other. by destruct (is_digit c). Qed.

Lemma is_digit_not_point c : is_digit c = true -> is_point c = false.
Proof. destruct (is_point c) eqn:Hp; [|done]. by rewrite (is_point_not_digit c Hp). Qed.

Lemma is_digit_not_other c : is_digit c = true -> is_other c = false.
Proof. unfold is_other. by intros ->. Qed.

(** The two tests of the chain, by the characters of the value. *)
Lemma numeric_without_minus (v : string) :
  str.isnumeric (str.remove "-" v)
  = only (fun c => is_digit c || is_minus c) v && negb (only is_minus v).
Proof.
  by rewrite isnumeric_all_digits, remove_empty, (all_digits_remove "-" v eq_refl).
Qed.

Lemma numeric_without_minus_point (v : string) :
  str.isnumeric (str.remove "." (str.remove "-" v))
  = only (fun c => is_digit c || is_minus c || is_point c) v
    && negb (only (fun c => is_minus c || is_point c) v).
Proof.
  rewrite isnumeric_all_digits, remove_empty, (all_digits_remove "." _ eq_refl).
  rewrite !only_remove. f_equal; [|f_equal]; apply only_ext; intros c;
    unfold is_minus, is_point; destruct (is_digit c), (Ascii.eqb c "-"), (Ascii.eqb c "."); done.
Qed.

Lemma gate_float (v : string) :
  only (fun c => is_digit c || is_minus c || is_point c) v = true ->
  some is_digit v = true -> some is_point v = true ->
  ParseKwargs.processed_val v = ParseKwargs.VFloat <$> float v.
Proof.
  intros Ho Hd Hp. unfold ParseKwargs.processed_val.
  rewrite numeric_without_minus, numeric_without_minus_point, Ho.
  rewrite (some_not_only is_point _ v); [|
    by intros c ->%Ascii.eqb_eq|done].
  rewrite (some_not_only is_digit (fun c => is_minus c || is_point c) v); [done| |done].
  intros c Hc. unfold is_minus, is_point.
  destruct (Ascii.eqb_spec c "-") as [->|]; [done|].
  destruct (Ascii.eqb_spec c ".") as [->|]; done.
Qed.

Lemma decimal_unfold (s : string) :
  decimal s
  = let '(i, ni, r) := take_digits 0 0 s in
    match r with
    | EmptyString => if (ni =? 0)%nat then None else Some (Q2Qc (inject_Z i))
    | String c r' =>
        if is_point c then
          let '(f, nf, r'') := take_digits 0 0 r' in
          match r'' with
          | EmptyString =>
              if (ni + nf =? 0)%nat then None
              else Some (Q2Qc (inject_Z i) + Q2Qc (f # Z.to_pos (10 ^ Z.of_nat nf)))%Qc
          | String _ _ => None
          end
        else None
    end.
Proof.
  unfold decimal. destruct (take_digits 0 0 s) as [[i ni] r].
  destruct r as [|c r']; [done|]. by destruct c as [[] [] [] [] [] [] [] []].
Qed.

Lemma float_unfold (c : ascii) (r : string) :
  float (String c r)
  = let number r := match decimal r with Some q => Ok q | None => Raise ValueError end in
    if is_minus c then Qcopp <$> number r
    else if Ascii.eqb c "+" then number r
    else number (String c r).
Proof. by destruct c as [[] [] [] [] [] [] [] []]. Qed.

Lemma take_digits_spec (s : string) acc n z m r :
  take_digits acc n s = (z, m, r) ->
  exists pre, s = pre +:+ r /\ only is_digit pre = true /\
    match r with String c _ => is_digit c = false | EmptyString => True end.
Proof.
  revert acc n. induction s as [|c s IH]; intros acc n; simpl.
  - intros [= <- <- <-]. by exists EmptyString.
  - destruct (digit c) as [d|] eqn:Hd.
    + intros (pre & -> & Hpre & Hr)%IH. exists (String c pre). split; [done|]. split; [|done].
      unfold only in *. simpl. rewrite Hpre. unfold is_digit. by rewrite Hd.
    + intros [= <- <- <-]. exists EmptyString. split; [done|]. split; [done|].
      unfold is_digit. by rewrite Hd.
Qed.

Lemma take_digits_all (pre r : string) acc n :
  only is_digit pre = true ->
  match r with String c _ => is_digit c = false | EmptyString => True end ->
  exists z, digits acc pre = Some z /\
    take_digits acc n (pre +:+ r) = (z, (n + String.length pre)%nat, r).
Proof.
  intros Hpre Hr. revert acc n. induction pre as [|c pre IH]; intros acc n; simpl.
  - exists acc. split; [done|]. rewrite Nat.add_0_r. destruct r as [|c r]; [done|]. simpl.
    unfold is_digit in Hr. by destruct (digit c).
  - unfold only in Hpre. simpl in Hpre. apply andb_true_iff in Hpre as [Hc Hpre].
    apply is_digit_Some in Hc as [d Hd]. rewrite Hd.
    destruct (IH Hpre (10 * acc + d)%Z (S n)) as (z & Hz & Ht). exists z. split; [done|].
    rewrite Ht. do 2 f_equal. lia.
Qed.

Lemma append_empty (s : string) : s +:+ EmptyString = s.
Proof.
  induction s as [|c s IH]; [done|].
  change (String c (s +:+ EmptyString) = String c s). by rewrite IH.
Qed.

(** What [float] refuses: a second point, or a character that is neither a
    digit nor a point. *)
Lemma decimal_bad (s : string) :
  (2 <= count is_point s)%nat \/ some is_other s = true \/ some is_minus s = true ->
  decimal s = None.
Proof.
  intros Hbad.
  assert (Hnd : forall c, is_point c = true \/ is_other c = true \/ is_minus c = true ->
                          is_digit c = false).
  { intros c [Hc|[Hc|Hc]].
    - by apply is_point_not_digit.
    - by apply is_other_not_digit.
    - apply Ascii.eqb_eq in Hc as ->. reflexivity. }
  assert (Hpre : forall pre r, only is_digit pre = true ->
            ((2 <= count is_point (pre +:+ r))%nat \/ some is_other (pre +:+ r) = true
             \/ some is_minus (pre +:+ r) = true) ->
            (2 <= count is_point r)%nat \/ some is_other r = true \/ some is_minus r = true).
  { intros pre r Hp. rewrite count_app, !some_app.
    rewrite (only_count is_digit is_point pre), (only_some is_digit is_other pre),
      (only_some is_digit is_minus pre); try done.
    - intros c Hc. destruct (is_minus c) eqn:Hm; [|done]. rewrite Hnd in Hc; auto.
    - apply is_digit_not_other.
    - apply is_digit_not_point. }
  rewrite decimal_unfold. destruct (take_digits 0 0 s) as [[i ni] r] eqn:Hi.
  apply take_digits_spec in Hi as (pre & -> & Hp & Hr). apply Hpre in Hbad; [|done].
  destruct r as [|c r]; [by destruct Hbad as [Hb|[Hb|Hb]]; [unfold count in Hb; simpl in Hb; lia|..]|].
  destruct (is_point c) eqn:Hc; [|done].
  destruct (take_digits 0 0 r) as [[f nf] r'] eqn:Hf.
  apply take_digits_spec in Hf as (pre' & -> & Hp' & Hr').
  destruct r' as [|c' r']; [|done]. exfalso.
  apply Ascii.eqb_eq in Hc as ->. rewrite count_cons, !some_cons, append_empty in Hbad.
  change (is_point ".") with true in Hbad. change (is_other ".") with false in Hbad.
  change (is_minus ".") with false in Hbad. simpl in Hbad.
  rewrite (only_count is_digit is_point pre'), (only_some is_digit is_other pre'),
    (only_some is_digit is_minus pre') in Hbad; try done.
  - destruct Hbad as [Hb|[Hb|Hb]]; [lia|done|done].
  - intros c Hc. destruct (is_minus c) eqn:Hm; [|done]. rewrite Hnd in Hc; auto.
  - apply is_digit_not_other.
  - apply is_digit_not_point.
Qed.

Lemma decimal_written (i f : string) :
  only is_digit i = true -> only is_digit f = true -> some is_digit (i +:+ f) = true ->
  exists zi zf, digits 0 i = Some zi /\ digits 0 f = Some zf /\
    decimal (i +:+ String "." f)
    = Some (Q2Qc (inject_Z zi)
            + Q2Qc (zf # Z.to_pos (10 ^ Z.of_nat (String.length f))))%Qc.
Proof.
  intros Hi Hf Hne.
  destruct (take_digits_all i (String "." f) 0 0 Hi eq_refl) as (zi & Hzi & Hti).
  destruct (take_digits_all f EmptyString 0 0 Hf I) as (zf & Hzf & Htf).
  rewrite append_empty in Htf.
  exists zi, zf. split; [done|]. split; [done|].
  rewrite decimal_unfold, Hti. change (is_point ".") with true. cbv iota beta.
  rewrite Htf. simpl.
  destruct (String.length i + String.length f =? 0)%nat eqn:Hl; [|done].
  apply Nat.eqb_eq in Hl. destruct i, f; simpl in Hl; try lia. done.
Qed.

(** X23.  A value of digits, minus signs and points, with a digit and a
    point at least, fails the first test, passes the second and goes to
    [float], and no further.  Digits around one point, with or without a
    minus sign in front, give the number written.  A second point, or a
    minus sign after the first character, makes [float], and so the call,
    raise [ValueError]: values such as [1.2.3] (a version) and [0.1-0.2] (a
    range) end the parsing where a string would have been kept. *)
Theorem decimal_values (v : string) :
  only (fun c => is_digit c || is_minus c || is_point c) v = true ->
  some is_digit v = true -> some is_point v = true ->
  ParseKwargs.processed_val v = ParseKwargs.VFloat <$> float v /\
  ((2 <= count is_point v)%nat -> ParseKwargs.processed_val v = Raise ValueError) /\
  (forall c r, v = String c r -> In "-"%char (chars r) ->
   ParseKwargs.processed_val v = Raise ValueError) /\
  (forall i f, v = i +:+ String "." f -> only is_digit i = true -> only is_digit f = true ->
   exists zi zf, digits 0 i = Some zi /\ digits 0 f = Some zf /\
     let q := (Q2Qc (inject_Z zi)
               + Q2Qc (zf # Z.to_pos (10 ^ Z.of_nat (String.length f))))%Qc in
     ParseKwargs.processed_val v = Ok (ParseKwargs.VFloat q) /\
     ParseKwargs.processed_val (String "-" v) = Ok (ParseKwargs.VFloat (- q))).
Proof.
  intros Ho Hd Hp. rewrite (gate_float v Ho Hd Hp).
  split; [done|]. split; [|split].
  - intros Hc. destruct v as [|c r]; [done|]. rewrite float_unfold. cbv beta zeta.
    destruct (is_minus c) eqn:Hm.
    + rewrite decimal_bad; [done|]. left. unfold count in *. simpl in Hc.
      apply Ascii.eqb_eq in Hm as ->. exact Hc.
    + destruct (Ascii.eqb_spec c "+") as [->|_]; [done|]. by rewrite decimal_bad; [|left].
  - intros c r -> Hin. rewrite float_unfold. cbv beta zeta.
    assert (Hr : some is_minus r = true) by (by apply (some_In _ r "-")).
    destruct (is_minus c) eqn:Hm.
    + by rewrite decimal_bad; [|right; right].
    + destruct (Ascii.eqb_spec c "+") as [->|_]; [done|].
      rewrite decimal_bad; [done|]. right; right. unfold some in *. simpl.
      by rewrite Hr, orb_true_r.
  - intros i f -> Hi Hf.
    assert (Hne : some is_digit (i +:+ f) = true).
    { rewrite some_app in *. unfold some in *. simpl in Hd. exact Hd. }
    destruct (decimal_written i f Hi Hf Hne) as (zi & zf & Hzi & Hzf & Hq).
    exists zi, zf. split; [done|]. split; [done|]. cbv zeta. split.
    + destruct i as [|c i].
      * simpl in *. change (float (String "." f)) with
          (match decimal (String "." f) with Some q => Ok q | None => Raise ValueError end).
        by rewrite Hq.
      * change (String c i +:+ String "." f) with (String c (i +:+ String "." f)) in *.
        rewrite float_unfold. cbv beta zeta.
        assert (Hc : is_digit c = true).
        { unfold only in Hi. simpl in Hi. by apply andb_true_iff in Hi as [? _]. }
        destruct (is_digit_not_sign c Hc) as [Hm Hpl].
        unfold is_minus. destruct (Ascii.eqb_spec c "-"); [done|].
        destruct (Ascii.eqb_spec c "+"); [done|]. by rewrite Hq.
    + rewrite gate_float; [|done..]. rewrite float_unfold. cbv beta zeta.
      change (is_minus "-") with true. cbv iota. by rewrite Hq.
Qed.

Lemma decimal_values_witness :
  ParseKwargs.processed_val "1.2.3" = Raise ValueError.
Proof.
  apply (decimal_values "1.2.3" eq_refl eq_refl eq_refl). unfold count. simpl. lia.
Defined.

(** X24.  Every other value, in ASCII, is kept: a value with a character
    that is neither a digit, a minus sign nor a point, or with no digit at
    all, fails both numeric tests, so it is never given to [int] or [float]
    and the call cannot raise on it.  It becomes a boolean if it is one of
    the four spellings, and stays the string otherwise: the empty string, a
    lone minus sign, [1e5], [1_000] and [TRUE] are strings. *)
Theorem text_values (v : string) :
  ascii_text v = true ->
  some is_other v = true \/ some is_digit v = false ->
  ParseKwargs.processed_val v
  = Ok (if bool_decide (v ∈ ["True"; "true"]) then ParseKwargs.VBool true
        else if bool_decide (v ∈ ["False"; "false"]) then ParseKwargs.VBool false
        else ParseKwargs.VStr v).
Proof.
  intros _ Hv. unfold ParseKwargs.processed_val.
  rewrite numeric_without_minus, numeric_without_minus_point.
  assert (H1 : only (fun c => is_digit c || is_minus c) v && negb (only is_minus v) = false).
  { destruct Hv as [Hv|Hv].
    - rewrite (some_not_only is_other _ v); [done| |done].
      intros c. unfold is_other. by destruct (is_digit c), (is_minus c).
    - rewrite (none_only is_digit is_minus v Hv). apply andb_negb_r. }
  assert (H2 : only (fun c => is_digit c || is_minus c || is_point c) v
               && negb (only (fun c => is_minus c || is_point c) v) = false).
  { destruct Hv as [Hv|Hv].
    - rewrite (some_not_only is_other _ v); [done| |done].
      intros c. unfold is_other. by destruct (is_digit c), (is_minus c), (is_point c).
    - rewrite (only_ext _ (fun c => is_digit c || (is_minus c || is_point c))).
      + rewrite (none_only is_digit _ v Hv). apply andb_negb_r.
      + intros c. by rewrite orb_assoc. }
  rewrite H1, H2. by repeat case_bool_decide.
Qed.

Lemma text_values_witness :
  ParseKwargs.processed_val "1e5" = Ok (ParseKwargs.VStr "1e5").
Proof. apply (text_values "1e5" eq_refl). by left. Defined.

(** *** The pieces of an argument, and the loop *)

Lemma split_length sep (s : string) :
  length (str.split sep s) = S (count (fun c => Ascii.eqb c sep) s).
Proof.
  induction s as [|c s IH]; [done|]. rewrite count_cons. simpl.
  destruct (Ascii.eqb c sep); simpl; [by rewrite IH|].
  destruct (str.split sep s) as [|piece pieces]; [done|exact IH].
Qed.

Lemma split_whole sep (s : string) :
  count (fun c => Ascii.eqb c sep) s = 0%nat -> str.split sep s = [s].
Proof.
  induction s as [|c s IH]; [done|]. rewrite count_cons. simpl.
  destruct (Ascii.eqb c sep); [done|]. intros Hs. by rewrite (IH Hs).
Qed.

Lemma split_first sep (k r : string) :
  count (fun c => Ascii.eqb c sep) k = 0%nat ->
  str.split sep (k +:+ String sep r) = k :: str.split sep r.
Proof.
  induction k as [|c k IH].
  - intros _. change (EmptyString +:+ String sep r) with (String sep r). simpl.
    by rewrite Ascii.eqb_refl.
  - rewrite count_cons. change (String c k +:+ String sep r) with (String c (k +:+ String sep r)).
    simpl. destruct (Ascii.eqb c sep); [done|]. intros Hk. by rewrite (IH Hk).
Qed.

Section namespace.
Context {V : Type}.
Implicit Types (d : list (string * V)) (k : string) (v : V).

Lemma get_setitem d k v k' :
  get (setitem d k v) k' = if String.eqb k' k then Some v else get d k'.
Proof.
  induction d as [|[k0 v0] d IH]; simpl; [done|].
  destruct (String.eqb_spec k k0) as [->|Hne]; simpl.
  - by destruct (String.eqb k' k0).
  - destruct (String.eqb_spec k' k0) as [->|Hne'].
    + destruct (String.eqb_spec k0 k) as [->|]; done.
    + exact IH.
Qed.

Lemma get_app d1 d2 k :
  get (d1 ++ d2) k = match get d1 k with Some v => Some v | None => get d2 k end.
Proof.
  induction d1 as [|[k0 v0] d1 IH]; simpl; [done|]. by destruct (String.eqb k k0).
Qed.

Lemma get_update d (l : list (string * V)) k :
  get (update d l) k = match get (reverse l) k with Some v => Some v | None => get d k end.
Proof.
  revert d. induction l as [|[k0 v0] l IH]; intros d; [done|].
  change (update d ((k0, v0) :: l)) with (update (setitem d k0 v0) l).
  rewrite IH, reverse_cons, get_app, get_setitem. simpl.
  destruct (get (reverse l) k); [done|]. by destruct (String.eqb k k0).
Qed.

Lemma keys_setitem d k v :
  keys (setitem d k v) = if bool_decide (k ∈ keys d) then keys d else keys d ++ [k].
Proof.
  induction d as [|[k0 v0] d IH]; [done|]. simpl.
  destruct (String.eqb_spec k k0) as [->|Hne].
  - rewrite bool_decide_eq_true_2; [done|]. apply list_elem_of_here.
  - rewrite keys_cons, IH. case_bool_decide as H1; case_bool_decide as H2; try done.
    + exfalso. apply H2. by apply list_elem_of_further.
    + exfalso. apply elem_of_cons in H2 as [?|?]; done.
Qed.

Lemma wf_setitem d k v : wf d -> wf (setitem d k v).
Proof.
  unfold wf. rewrite keys_setitem. case_bool_decide as Hk; [done|]. intros Hd.
  apply NoDup_app. split; [done|]. split; [|apply NoDup_singleton].
  intros x Hx ->%list_elem_of_singleton. done.
Qed.

Lemma wf_update d (l : list (string * V)) : wf d -> wf (update d l).
Proof.
  revert d. induction l as [|[k0 v0] l IH]; intros d Hd; [done|].
  apply IH, wf_setitem, Hd.
Qed.

End namespace.

Lemma loop_step (value : string) (rest : list string) dest key v :
  parse_item value = Ok (key, v) ->
  ParseKwargs.loop dest (value :: rest) = ParseKwargs.loop (setitem dest key v) rest.
Proof.
  unfold parse_item. simpl.
  destruct (str.split "=" value) as [|key' [|value_str [|? ?]]]; try done.
  destruct (ParseKwargs.processed_val value_str) as [v'|e]; [|done]. by intros [= <- <-].
Qed.

Lemma loop_parsed (good rest : list string) dest items :
  mapM parse_item good = Ok items ->
  ParseKwargs.loop dest (good ++ rest) = ParseKwargs.loop (update dest items) rest.
Proof.
  revert dest items. induction good as [|value good IH]; intros dest items.
  - by intros [= <-].
  - change (mapM parse_item (value :: good))
      with (y ← parse_item value; k ← mapM parse_item good; mret (y :: k)).
    destruct (parse_item value) as [[key v]|e] eqn:Hp; [|done].
    destruct (mapM parse_item good) as [its|e] eqn:Hg; [|done]. intros [= <-].
    change ((value :: good) ++ rest) with (value :: (good ++ rest)).
    rewrite (loop_step value _ dest key v Hp). exact (IH _ _ eq_refl).
Qed.

Lemma loop_raise (value : string) (rest : list string) dest e :
  parse_item value = Raise e -> ParseKwargs.loop dest (value :: rest) = (dest, Raise e).
Proof.
  unfold parse_item. simpl.
  destruct (str.split "=" value) as [|key [|value_str [|? ?]]]; try by intros [= <-].
  destruct (ParseKwargs.processed_val value_str) as [v|e']; [done|]. by intros [= <-].
Qed.

(** X25.  When every argument can be read, the call ends normally and the
    namespace holds the items in the order of the arguments, each key once
    with the value of its last argument.  When an argument fails after
    others that could be read, the call raises its exception, the namespace
    keeps what the arguments before it gave, and the arguments after it are
    not looked at. *)
Theorem kwargs_in_order (values : list string) items :
  mapM parse_item values = Ok items ->
  let namespace := from_items items in
  ParseKwargs.__call__ values = (namespace, Ok tt) /\
  wf namespace /\
  (forall k, get namespace k = get (reverse items) k) /\
  (forall bad rest e, parse_item bad = Raise e ->
     ParseKwargs.__call__ (values ++ bad :: rest) = (namespace, Raise e)).
Proof.
  intros Hv namespace. unfold ParseKwargs.__call__. repeat split.
  - rewrite <- (app_nil_r values) at 1. by rewrite (loop_parsed values [] [] items Hv).
  - apply wf_update. apply NoDup_nil_2.
  - intros k. unfold namespace, from_items. rewrite get_update.
    by destruct (get (reverse items) k).
  - intros bad rest e Hbad.
    by rewrite (loop_parsed values (bad :: rest) [] items Hv), (loop_raise bad rest _ e Hbad).
Qed.

Lemma kwargs_in_order_witness :
  ParseKwargs.__call__ ["depth=12"; "name=vit"; "depth=24"; "a=b=c"; "lr=1"]
  = ([("depth", ParseKwargs.VInt 24); ("name", ParseKwargs.VStr "vit")], Raise ValueError).
Proof.
  exact (proj2 (proj2 (proj2 (kwargs_in_order ["depth=12"; "name=vit"; "depth=24"]
    [("depth", ParseKwargs.VInt 12); ("name", ParseKwargs.VStr "vit");
     ("depth", ParseKwargs.VInt 24)] eq_refl))) "a=b=c" ["lr=1"] ValueError eq_refl).
Defined.

(** X26.  An argument is cut at its equals signs, and must have exactly one:
    with none, or with two or more, the unpacking raises [ValueError] before
    anything is stored.  With exactly one, the text before it is the key,
    as it is written (blanks included, and empty if the argument starts
    with the sign), and the text after it is the value that the tests
    read. *)
Theorem one_equals_sign (value : string) :
  length (str.split "=" value) = S (count is_equals value) /\
  (count is_equals value <> 1%nat ->
   forall rest, ParseKwargs.__call__ (value :: rest) = ([], Raise ValueError)) /\
  (forall key value_str, value = key +:+ String "=" value_str ->
     count is_equals key = 0%nat -> count is_equals value_str = 0%nat ->
     str.split "=" value = [key; value_str] /\
     forall rest,
       ParseKwargs.__call__ (value :: rest)
       = match ParseKwargs.processed_val value_str with
         | Ok v => ParseKwargs.loop [(key, v)] rest
         | Raise e => ([], Raise e)
         end).
Proof.
  split; [apply split_length|]. split.
  - intros Hc rest. unfold ParseKwargs.__call__. simpl.
    pose proof (split_length "=" value) as Hl.
    change (fun c => Ascii.eqb c "=") with is_equals in Hl.
    destruct (str.split "=" value) as [|a [|b [|c l]]]; try done.
    exfalso. apply Hc. simpl in Hl. lia.
  - intros key value_str -> Hk Hv.
    assert (Hs : str.split "=" (key +:+ String "=" value_str) = [key; value_str]).
    { by rewrite (split_first "=" key value_str Hk), (split_whole "=" value_str Hv). }
    split; [done|]. intros rest. unfold ParseKwargs.__call__. simpl. by rewrite Hs.
Qed.

(** ** The columns of the CSV loggers *)

Lemma foldl_append {A B} (f : B -> list A) (init : list A) (l : list B) :
  foldl (fun acc x => acc ++ f x) init l = init ++ (l ≫= f).
Proof.
  revert init. induction l as [|x l IH]; intros init.
  - simpl. by rewrite app_nil_r.
  - rewrite bind_cons. simpl. by rewrite IH, <- app_assoc.
Qed.

Lemma length_bind_const {A B} (f : B -> list A) (n : nat) (l : list B) :
  (forall x, length (f x) = n) -> length (l ≫= f) = (n * length l)%nat.
Proof.
  intros Hf. induction l as [|x l IH]; [simpl; lia|].
  rewrite bind_cons, length_app, Hf, IH. simpl. lia.
Qed.

Lemma bind_singleton {A} (l : list A) : l ≫= (fun x => [x]) = l.
Proof. induction l as [|x l IH]; [done|]. rewrite bind_cons, IH. done. Qed.

Lemma differ_app (a b x y : string) : differ a b = true -> a +:+ x <> b +:+ y.
Proof.
  revert b. induction a as [|c a IH]; intros [|d b]; simpl; try done.
  change (String c a +:+ x) with (String c (a +:+ x)).
  change (String d b +:+ y) with (String d (b +:+ y)).
  intros Hd [= -> Heq]. rewrite Ascii.eqb_refl in Hd. by apply (IH b).
Qed.

Lemma group_columns_colon idx name :
  name ∈ CSVBatchLogger.group_columns idx -> some is_colon name = true.
Proof.
  unfold CSVBatchLogger.group_columns. rewrite !elem_of_cons, elem_of_nil.
  intros H. repeat (destruct H as [->|H]; [by rewrite some_app|]). done.
Qed.

Lemma group_columns_NoDup idx : NoDup (CSVBatchLogger.group_columns idx).
Proof.
  unfold CSVBatchLogger.group_columns.
  repeat (apply NoDup_cons; split;
    [rewrite ?elem_of_cons, elem_of_nil; intros H;
     repeat (destruct H as [H|H]; [by apply differ_app in H|]); done|]).
  apply NoDup_nil_2.
Qed.

Lemma group_columns_inj idx idx' name :
  name ∈ CSVBatchLogger.group_columns idx -> name ∈ CSVBatchLogger.group_columns idx' ->
  idx = idx'.
Proof.
  unfold CSVBatchLogger.group_columns. rewrite !elem_of_cons, elem_of_nil.
  intros H H'.
  repeat (destruct H as [->|H]);
    repeat (destruct H' as [H'|H']);
    try done;
    first [by apply differ_app in H'
          |by apply (inj (String.app _)), (inj pretty.pretty) in H'].
Qed.

Lemma columns_shape dataset n_groups :
  CSVBatchLogger.columns dataset n_groups
  = ["epoch"; "batch"] ++ (seqZ 0 n_groups ≫= CSVBatchLogger.group_columns)
    ++ ["avg_actual_loss"; "avg_per_sample_loss"; "avg_acc"; "model_norm_sq";
        "reg_loss"; "worst_group_acc"; "mean_differences"; "group_avg_acc"]
    ++ (if String.eqb dataset "MetaDataset" then ["F1-score"] else [])
    ++ (if String.eqb dataset "ISIC" then ["roc_auc"] else []).
Proof.
  unfold CSVBatchLogger.columns. cbv zeta. rewrite foldl_append.
  destruct (String.eqb dataset "MetaDataset"), (String.eqb dataset "ISIC");
    by rewrite <- ?app_assoc, ?app_nil_r.
Qed.

(** X27.  The header of the batch log has no column twice, whatever the
    number of groups and the dataset.  It starts with [epoch] and [batch]
    (the two keys that [log] sets), has the six columns of every group below
    [n_groups], and counts six columns a group and ten others, and one more
    for the datasets MetaDataset and ISIC. *)
Theorem batch_log_columns (dataset : string) (n_groups : Z) :
  NoDup (CSVBatchLogger.columns dataset n_groups) /\
  ["epoch"; "batch"] `prefix_of` CSVBatchLogger.columns dataset n_groups /\
  (forall idx, (0 <= idx < n_groups)%Z ->
     CSVBatchLogger.group_columns idx ⊆ CSVBatchLogger.columns dataset n_groups) /\
  length (CSVBatchLogger.columns dataset n_groups)
  = (6 * Z.to_nat n_groups + 10
     + (if bool_decide (dataset ∈ ["MetaDataset"; "ISIC"]) then 1 else 0))%nat.
Proof.
  rewrite columns_shape.
  set (groups := seqZ 0 n_groups ≫= CSVBatchLogger.group_columns).
  set (others :=
         ["avg_actual_loss"; "avg_per_sample_loss"; "avg_acc"; "model_norm_sq";
          "reg_loss"; "worst_group_acc"; "mean_differences"; "group_avg_acc"]
         ++ (if String.eqb dataset "MetaDataset" then ["F1-score"] else [])
         ++ (if String.eqb dataset "ISIC" then ["roc_auc"] else [])).
  assert (Hothers : NoDup (["epoch"; "batch"] ++ others) /\
                    Forall (fun name => some is_colon name = false)
                      (["epoch"; "batch"] ++ others) /\
                    length others
                    = (8 + (if bool_decide (dataset ∈ ["MetaDataset"; "ISIC"])
                            then 1 else 0))%nat).
  { unfold others.
    destruct (String.eqb_spec dataset "MetaDataset") as [->|H1]; [|
      destruct (String.eqb_spec dataset "ISIC") as [->|H2]].
    - split; [by apply (bool_decide_unpack _)|]. split; [by repeat constructor|done].
    - split; [by apply (bool_decide_unpack _)|]. split; [by repeat constructor|done].
    - split; [by apply (bool_decide_unpack _)|]. split; [by repeat constructor|].
      rewrite bool_decide_eq_false_2; [done|].
      rewrite !elem_of_cons, elem_of_nil. by intros [?|[?|[]]]. }
  destruct Hothers as (Hnd & Hcolon & Hlen).
  split; [|split; [|split]].
  - apply (NoDup_Permutation_proper (groups ++ ["epoch"; "batch"] ++ others)).
    { rewrite !app_assoc. apply Permutation_app_tail, Permutation_app_comm. }
    apply NoDup_app. split; [|split; [|exact Hnd]].
    + apply NoDup_bind; [|intros; apply group_columns_NoDup|apply NoDup_seqZ].
      intros i j name _ _. apply group_columns_inj.
    + intros name (idx & Hname & _)%list_elem_of_bind Hin.
      rewrite Forall_forall in Hcolon. apply Hcolon in Hin.
      by rewrite (group_columns_colon idx name Hname) in Hin.
  - by exists (groups ++ others).
  - intros idx Hidx name Hname. apply elem_of_app. right. apply elem_of_app. left.
    apply list_elem_of_bind. exists idx. split; [done|]. apply elem_of_seqZ. lia.
  - rewrite !length_app, Hlen. unfold groups.
    rewrite (length_bind_const _ 6); [|done]. rewrite length_seqZ. simpl. lia.
Qed.

(** X28.  The header of the concept log is [epoch], the concept names in
    their order, and [average].  It has a column twice exactly when a
    concept name is given twice or a concept is called [epoch] or
    [average]. *)
Theorem concept_log_columns (concept_names : list string) :
  CSVLogger.columns concept_names = "epoch" :: (concept_names ++ ["average"]) /\
  (NoDup (CSVLogger.columns concept_names) <->
   NoDup concept_names /\ ("epoch" ∉ concept_names) /\ ("average" ∉ concept_names)).
Proof.
  assert (Hc : CSVLogger.columns concept_names = "epoch" :: (concept_names ++ ["average"])).
  { unfold CSVLogger.columns. cbv zeta.
    rewrite (foldl_append (fun concept => [concept])), bind_singleton. done. }
  split; [exact Hc|]. rewrite Hc, NoDup_cons, NoDup_app, elem_of_app, list_elem_of_singleton.
  split.
  - intros (He & Hn & Ha & _). split; [done|]. split; [tauto|].
    intros Hin. apply (Ha _ Hin). by apply list_elem_of_singleton.
  - intros (Hn & He & Ha). split; [by intros [?|?]|]. split; [done|].
    split; [|apply NoDup_singleton]. intros x Hx ->%list_elem_of_singleton. done.
Qed.
